(** * tenzro-c0re: chunk manager, k-bucket routing table, DHT wire
    validation and storage manager.

    A shallow embedding of the TypeScript sources

      - [src/storage/chunk.ts]   (class [DefaultChunkManager])
      - [src/dht/protocol.ts]    (class [DHTProtocol])
      - [src/dht/kbucket.ts]     (class [KBucket])
      - [src/storage/manager.ts] (class [StorageManager])

    with the types of [src/storage/types.ts], [src/types/storage.ts] and
    [src/types/index.ts] that they use,

    followed by the theorems that settle the properties stated for them.

    Conventions of the embedding.
      - A JavaScript [number] that the code uses as a count, an offset, an
        index or a millisecond timestamp is a [Z].
      - A [Buffer] is a list of bytes.
      - A JavaScript [string] is a [string]; an optional or possibly
        [undefined] property is an [option].
      - A [throw] is the [Err] branch of [Result].
      - [Date.now()] reads a clock that is threaded through the code; every
        call consumes one reading.
      - An [async] method that is called alone is run to completion: none
        of the modelled methods yields between a test on the shared state
        and the update it guards. The replications that
        [handleReplication] starts together run side by side, each up to
        its next [await] of a provider, in an order that is a parameter
        of [store] (see "Calls that run side by side").
      - [emit] appends to a log of events; listeners are not modelled (a
        listener that throws is outside the model). *)

From Stdlib Require Import ZArith Lia Ascii String Strings.Byte.
From stdpp Require Import base tactics option list sorting gmap strings pretty.

Local Open Scope Z_scope.

(** ** The runtime the code calls into *)

Abbreviation Buffer := (list byte).

(** [Buffer.length] *)
Definition blen (b : Buffer) : Z := Z.of_nat (length b).

(** What Node.js provides and the sources only call: the SHA-256 digest in
    lower-case hex ([createHash('sha256').update(d).digest('hex')]) and the
    previous contents of freshly allocated, uninitialised memory
    ([Buffer.allocUnsafe]). *)
Class Runtime := {
  sha256_hex : Buffer → string;
  uninitialised : nat → byte
}.

(** The clock behind [Date.now()]: reading number [n] from now on. *)
Definition Clock := nat → Z.

Definition Date_now (clk : Clock) : Z * Clock :=
  (clk O, fun n => clk (S n)).

(** Errors thrown by the modelled code: a plain [Error] with its message, the
    [TypeError] of a property read on [undefined], or a [StorageError]
    (src/types/index.ts) with its message and, of the [details] object that
    the throwing code passes, the [code] and, where there is one, the chunk
    index. The [code] property of the error object itself is 'STORAGE_ERROR'
    for every [StorageError]; the codes that the modelled code names
    (CHUNK_VALIDATION_ERROR, NOT_FOUND, ...) are [details.code]. *)
Inductive Error :=
  | PlainError (message : string)
  | TypeError (message : string)
  | StorageError (message : string) (code : string) (chunkIndex : option Z).

Inductive Result (A : Type) :=
  | Ok (a : A)
  | Err (e : Error).
Arguments Ok {A} a.
Arguments Err {A} e.

(** [Buffer.prototype.slice(start, end)]: negative positions count from the
    end, both positions are clamped to the buffer. *)
Definition clamp_pos (len p : Z) : Z :=
  if p <? 0 then Z.max (len + p) 0 else Z.min p len.

Definition Buffer_slice (b : Buffer) (start end_ : Z) : Buffer :=
  let s := clamp_pos (blen b) start in
  let e := clamp_pos (blen b) end_ in
  take (Z.to_nat (e - s)) (drop (Z.to_nat s) b).

(** [Buffer.allocUnsafe(n)] *)
Definition Buffer_allocUnsafe `{RT : Runtime} (n : Z) : Buffer :=
  map uninitialised (seq 0 (Z.to_nat n)).

(** [src.copy(target, targetStart)]: overwrites [target] from [targetStart]
    on with as many bytes of [src] as fit; the length of [target] is kept. *)
Definition Buffer_copy (src target : Buffer) (targetStart : nat) : Buffer :=
  take targetStart target
    ++ take (length target - targetStart) src
    ++ drop (targetStart + length src) target.

(** ** src/storage/chunk.ts *)

Record StorageLocation := {
  loc_nodeId : string;
  loc_type : string;
  loc_storageType : string;
  loc_protocol : string;
  loc_endpoint : string;
  loc_region : string;
  loc_availability : Z;
  loc_lastSeen : Z;
  loc_health : Z;
  loc_capacity : Z;
  loc_used : Z;
  loc_latency : Z;
  loc_bandwidth : Z
}.

(** [ChunkInfo] of src/storage/types.ts, without the optional [encryption]
    and [compression], which no modelled code reads or writes. The type
    asks for a [location], but [NetworkStorageProvider.storeChunk] returns
    chunks whose [location] is [undefined] (the first element of an empty
    array), so the field is optional here. *)
Record ChunkInfo := {
  chunk_index : Z;
  chunk_size : Z;
  chunk_checksum : string;
  chunk_location : option StorageLocation;
  chunk_replicas : Z
}.

Record DefaultChunkManager := {
  defaultChunkSize : Z
}.

(** [new DefaultChunkManager()] : the constructor's default is 1 MiB. *)
Definition newDefaultChunkManager (chunkSize : option Z) : DefaultChunkManager :=
  {| defaultChunkSize := default (1024 * 1024) chunkSize |}.

Section ChunkManager.
Context `{RT : Runtime}.

(** [calculateChecksum] *)
Definition calculateChecksum (data : Buffer) : string := sha256_hex data.

(** The descriptor pushed by one iteration of the loop of [split]. *)
Definition splitDescriptor (index size : Z) (checksum : string) (now : Z) : ChunkInfo :=
  {| chunk_index := index;
     chunk_size := size;
     chunk_checksum := checksum;
     chunk_location :=
       Some {| loc_nodeId := ""; loc_type := "source"; loc_storageType := "local";
               loc_protocol := "file"; loc_endpoint := ""; loc_region := "";
               loc_availability := 1; loc_lastSeen := now; loc_health := 1;
               loc_capacity := 0; loc_used := 0; loc_latency := 0;
               loc_bandwidth := 0 |};
     chunk_replicas := 0 |}.

(** The [while (offset < data.length)] loop of [split]. The loop does not
    terminate for a chunk size of 0 or less on a non-empty buffer, so the
    model counts iterations: [None] is "more than [fuel] iterations". *)
Fixpoint split_loop (fuel : nat) (data : Buffer) (chunkSize : Z)
    (index offset : Z) (chunks : list ChunkInfo) (clk : Clock)
    : option (list ChunkInfo * Clock) :=
  if offset <? blen data then
    match fuel with
    | O => None
    | S fuel' =>
        let size := Z.min chunkSize (blen data - offset) in
        let chunk := Buffer_slice data offset (offset + size) in
        let checksum := calculateChecksum chunk in
        let '(now, clk') := Date_now clk in
        split_loop fuel' data chunkSize (index + 1) (offset + size)
          (chunks ++ [splitDescriptor index size checksum now]) clk'
    end
  else Some (chunks, clk).

(** [split(data, chunkSize = this.defaultChunkSize)] *)
Definition split (fuel : nat) (self : DefaultChunkManager) (data : Buffer)
    (chunkSize : option Z) (clk : Clock) : option (list ChunkInfo * Clock) :=
  split_loop fuel data (default (defaultChunkSize self) chunkSize) 0 0 [] clk.

(** [validate(chunk, info)] *)
Definition validate (chunk : Buffer) (info : ChunkInfo) : bool :=
  if negb (blen chunk =? chunk_size info) then false
  else String.eqb (calculateChecksum chunk) (chunk_checksum info).

(** [Array.prototype.sort((a, b) => a.info.index - b.info.index)]: the
    sort is stable (ECMAScript 2019), so its result is the one computed by
    inserting each pair, last first, in front of the first pair that must
    come after it. *)
Fixpoint insertByIndex (p : ChunkInfo * Buffer) (l : list (ChunkInfo * Buffer))
    : list (ChunkInfo * Buffer) :=
  match l with
  | [] => [p]
  | q :: l' =>
      if chunk_index p.1 - chunk_index q.1 <=? 0 then p :: q :: l'
      else q :: insertByIndex p l'
  end.

Definition sortByIndex (l : list (ChunkInfo * Buffer)) : list (ChunkInfo * Buffer) :=
  foldr insertByIndex [] l.

(** [info.map((info, i) => ({info, data: chunks[i]}))], for lists of the
    same length (checked by [combine] before). *)
Definition pairUp (chunks : list Buffer) (info : list ChunkInfo)
    : list (ChunkInfo * Buffer) :=
  zip info chunks.

(** The copy loop of [combine]: state is [(result, offset)]. *)
Definition copyStep (st : Buffer * nat) (p : ChunkInfo * Buffer) : Buffer * nat :=
  (Buffer_copy p.2 st.1 st.2, (st.2 + length p.2)%nat).

(** [combine(chunks, info)] *)
Definition combine (chunks : list Buffer) (info : list ChunkInfo) : Result Buffer :=
  if negb (length chunks =? length info)%nat then
    Err (PlainError "Chunks and chunk info length mismatch")
  else
    let sortedPairs := sortByIndex (pairUp chunks info) in
    match List.find (fun p => negb (validate p.2 p.1)) sortedPairs with
    | Some p =>
        Err (StorageError "Chunk validation failed" "CHUNK_VALIDATION_ERROR"
               (Some (chunk_index p.1)))
    | None =>
        let totalSize := fold_left (fun sum p => sum + chunk_size p.1) sortedPairs 0 in
        let result := Buffer_allocUnsafe totalSize in
        Ok (fold_left copyStep sortedPairs (result, O)).1
    end.

(** From [LocalStorageProvider.store] (src/storage/local.ts): the bytes a
    caller of [split] stores for descriptor number [i] of the returned
    list are [data.slice(i * chunkSize, i * chunkSize + chunk.size)]. *)
Definition chunkBytes (data : Buffer) (chunkSize : Z) (info : list ChunkInfo)
    : list Buffer :=
  imap (fun i c =>
          let offset := Z.of_nat i * chunkSize in
          Buffer_slice data offset (offset + chunk_size c)) info.

End ChunkManager.

(** ** src/dht/protocol.ts *)

(** The value of a byte as a number, and the byte a number leaves when it is
    stored into a [Buffer] (its low 8 bits). *)
Definition byteZ (b : byte) : Z := Z.of_N (Byte.to_N b).

Definition byte_of_Z (z : Z) : byte :=
  default x00 (Byte.of_N (Z.to_N (z mod 256))).

(** One hex digit, either case, as Node.js decodes it. *)
Definition unhex (c : ascii) : option Z :=
  let n := Z.of_N (N_of_ascii c) in
  if (48 <=? n) && (n <=? 57) then Some (n - 48)
  else if (97 <=? n) && (n <=? 102) then Some (n - 87)
  else if (65 <=? n) && (n <=? 70) then Some (n - 55)
  else None.

(** [Buffer.from(s, "hex")]: decodes two digits per byte and stops at the
    first pair that is not two hex digits; a trailing single character is
    dropped. *)
Fixpoint Buffer_from_hex (s : string) : Buffer :=
  match s with
  | String a (String b rest) =>
      match unhex a, unhex b with
      | Some hi, Some lo => byte_of_Z (hi * 16 + lo) :: Buffer_from_hex rest
      | _, _ => []
      end
  | _ => []
  end.

(** [buffer[i]] used as an operand of [^]: reading past the end gives
    [undefined], which [^] takes as 0. *)
Definition Buffer_operand (b : Buffer) (i : nat) : Z :=
  default 0 (byteZ <$> b !! i).

Definition KEY_SIZE : nat := 32.

(** [DHTProtocol.distance(keyA, keyB)]: the loop assigns
    [distance[i] = bufferA[i] ^ bufferB[i]] for [i] from 0 to [KEY_SIZE - 1]
    in a zero-filled buffer. *)
Definition distance (keyA keyB : string) : Buffer :=
  let bufferA := Buffer_from_hex keyA in
  let bufferB := Buffer_from_hex keyB in
  fold_left
    (fun distance i =>
       <[i := byte_of_Z (Z.lxor (Buffer_operand bufferA i) (Buffer_operand bufferB i))]>
         distance)
    (seq 0 KEY_SIZE) (replicate KEY_SIZE x00).

Record DHTPayload := {
  payload_id : string;
  payload_timestamp : Z;
  payload_sender : option string;
  payload_receiver : option string;
  payload_key : option string;
  payload_value : option string
}.

Record DHTMessage := {
  msg_type : string;
  msg_dhtType : option string;
  msg_protocol : option string;
  msg_version : option string;
  msg_payload : DHTPayload
}.

(** [!x] for a property that holds a string when it is there: true for
    [undefined] and for the empty string. *)
Definition falsy (x : option string) : bool :=
  match x with
  | None => true
  | Some s => String.eqb s ""
  end.

Definition is_lower_hex_digit (c : ascii) : bool :=
  let n := Z.of_N (N_of_ascii c) in
  ((48 <=? n) && (n <=? 57)) || ((97 <=? n) && (n <=? 102)).

(** [/^[0-9a-f]{64}$/.test(s)] *)
Definition test_key_format (s : string) : bool :=
  (String.length s =? 64)%nat && forallb is_lower_hex_digit (list_ascii_of_string s).

Definition MAX_TIME_DIFF : Z := 5 * 60 * 1000.

(** [DHTProtocol.validateMessage(message)]. The clock is read only when the
    first two tests have passed. *)
Definition validateMessage (message : DHTMessage) (clk : Clock) : bool * Clock :=
  if falsy (msg_dhtType message)
     || falsy (payload_sender (msg_payload message))
     || falsy (msg_protocol message)
     || falsy (msg_version message)
  then (false, clk)
  else if negb (falsy (payload_key (msg_payload message)))
          && negb (test_key_format (default "" (payload_key (msg_payload message))))
  then (false, clk)
  else
    let '(now, clk') := Date_now clk in
    let messageTime := payload_timestamp (msg_payload message) in
    if Z.abs (now - messageTime) >? MAX_TIME_DIFF then (false, clk')
    else (true, clk').

(** ** src/dht/kbucket.ts *)

Record PeerMetadata := {
  pm_type : string;
  pm_region : string;
  pm_version : string;
  pm_capabilities : list string;
  pm_uptime : Z;
  pm_lastSeen : Z
}.

Record PeerMetrics := {
  px_latency : Z;
  px_bandwidth : Z;
  px_reliability : Z;
  px_storage_total : Z;
  px_storage_used : Z;
  px_storage_available : Z
}.

Record PeerInfo := {
  peer_id : string;
  peer_multiaddr : list string;
  peer_protocols : list string;
  peer_metadata : PeerMetadata;
  peer_metrics : PeerMetrics
}.

Record Bucket := {
  peers : list PeerInfo;
  lastUpdated : Z
}.

Record KBucket := {
  nodeId : string;
  kSize : Z;
  numberOfBuckets : nat;
  buckets : list Bucket
}.

(** [{...peer, metadata: {...peer.metadata, lastSeen: Date.now()}}] *)
Definition seenAt (peer : PeerInfo) (now : Z) : PeerInfo :=
  {| peer_id := peer_id peer;
     peer_multiaddr := peer_multiaddr peer;
     peer_protocols := peer_protocols peer;
     peer_metadata :=
       {| pm_type := pm_type (peer_metadata peer);
          pm_region := pm_region (peer_metadata peer);
          pm_version := pm_version (peer_metadata peer);
          pm_capabilities := pm_capabilities (peer_metadata peer);
          pm_uptime := pm_uptime (peer_metadata peer);
          pm_lastSeen := now |};
     peer_metrics := peer_metrics peer |}.

(** [Array(n).fill(null).map(() => ({peers: [], lastUpdated: Date.now()}))] *)
Fixpoint freshBuckets (n : nat) (clk : Clock) : list Bucket * Clock :=
  match n with
  | O => ([], clk)
  | S n' =>
      let '(now, clk1) := Date_now clk in
      let '(rest, clk2) := freshBuckets n' clk1 in
      ({| peers := []; lastUpdated := now |} :: rest, clk2)
  end.

(** [new KBucket(nodeId, kSize = 20, numberOfBuckets = 256)]: the
    constructor fills [buckets] twice, first with 256 buckets and then with
    [numberOfBuckets]; the second array is the one that stays. *)
Definition newKBucket (nodeId : string) (kSize : option Z) (numberOfBuckets : option nat)
    (clk : Clock) : KBucket * Clock :=
  let k := default 20 kSize in
  let n := default 256%nat numberOfBuckets in
  let '(_, clk1) := freshBuckets 256 clk in
  let '(bs, clk2) := freshBuckets n clk1 in
  ({| nodeId := nodeId; kSize := k; numberOfBuckets := n; buckets := bs |}, clk2).

(** [Array.prototype.findIndex]: the first position that satisfies [f], or
    -1. *)
Fixpoint findIndex_from {A} (f : A → bool) (l : list A) (i : Z) : Z :=
  match l with
  | [] => -1
  | x :: l' => if f x then i else findIndex_from f l' (i + 1)
  end.

Definition findIndex {A} (f : A → bool) (l : list A) : Z := findIndex_from f l 0.

(** The inner loop of [getBucketIndex]: the first [j] in 0..7 with
    [(byte & (1 << (7 - j))) !== 0]. *)
Definition firstSetBit (b : Z) : option Z :=
  List.find (fun j => negb (Z.land b (Z.shiftl 1 (7 - j)) =? 0)) [0; 1; 2; 3; 4; 5; 6; 7].

(** The outer loop of [getBucketIndex] from byte number [i] on. A non-zero
    byte in which the inner loop finds nothing lets the outer loop go
    on. *)
Fixpoint bucketIndex_from (distance : Buffer) (i : Z) : option Z :=
  match distance with
  | [] => None
  | b :: rest =>
      if negb (byteZ b =? 0) then
        match firstSetBit (byteZ b) with
        | Some j => Some (i * 8 + j)
        | None => bucketIndex_from rest (i + 1)
        end
      else bucketIndex_from rest (i + 1)
  end.

(** [KBucket.getBucketIndex(peerId)] *)
Definition getBucketIndex (self : KBucket) (peerId : string) : Z :=
  default (Z.of_nat (numberOfBuckets self) - 1)
    (bucketIndex_from (distance (nodeId self) peerId) 0).

(** [this.buckets[bucketIndex]]: [undefined] outside the array. *)
Definition bucketAt (self : KBucket) (bucketIndex : Z) : option Bucket :=
  if bucketIndex <? 0 then None else buckets self !! Z.to_nat bucketIndex.

Definition STALE_THRESHOLD : Z := 1 * 60 * 60 * 1000.

(** [KBucket.findStalePeer(bucket)] *)
Definition findStalePeer (bucket : Bucket) (clk : Clock) : Z * Clock :=
  let '(now, clk') := Date_now clk in
  (findIndex (fun peer => now - pm_lastSeen (peer_metadata peer) >? STALE_THRESHOLD)
     (peers bucket), clk').

(** [KBucket.addPeerToBucket(bucket, peer)] *)
Definition addPeerToBucket (self : KBucket) (bucket : Bucket) (peer : PeerInfo)
    (clk : Clock) : Bucket * Clock :=
  if Z.of_nat (length (peers bucket)) <? kSize self then
    let '(now, clk') := Date_now clk in
    ({| peers := peers bucket ++ [seenAt peer now]; lastUpdated := lastUpdated bucket |}, clk')
  else
    let '(staleIndex, clk1) := findStalePeer bucket clk in
    if negb (staleIndex =? -1) then
      let '(now, clk2) := Date_now clk1 in
      ({| peers := <[Z.to_nat staleIndex := seenAt peer now]> (peers bucket);
          lastUpdated := lastUpdated bucket |}, clk2)
    else (bucket, clk1).

(** The bucket object is shared with the array: writing it back at its
    position is the effect of mutating it in place. *)
Definition setBucket (self : KBucket) (bucketIndex : Z) (bucket : Bucket) : KBucket :=
  {| nodeId := nodeId self; kSize := kSize self; numberOfBuckets := numberOfBuckets self;
     buckets := <[Z.to_nat bucketIndex := bucket]> (buckets self) |}.

(** [KBucket.addPeer(peer)] *)
Definition addPeer (peer : PeerInfo) (self : KBucket) (clk : Clock)
    : Result (KBucket * Clock) :=
  let bucketIndex := getBucketIndex self (peer_id peer) in
  match bucketAt self bucketIndex with
  | None => Err (TypeError "Cannot read properties of undefined (reading 'peers')")
  | Some bucket =>
      let existingPeerIndex :=
        findIndex (fun p => String.eqb (peer_id p) (peer_id peer)) (peers bucket) in
      let '(bucket1, clk1) :=
        if negb (existingPeerIndex =? -1) then
          let '(now, clk') := Date_now clk in
          ({| peers := <[Z.to_nat existingPeerIndex := seenAt peer now]> (peers bucket);
              lastUpdated := lastUpdated bucket |}, clk')
        else addPeerToBucket self bucket peer clk in
      let '(now, clk2) := Date_now clk1 in
      Ok (setBucket self bucketIndex
            {| peers := peers bucket1; lastUpdated := now |}, clk2)
  end.

(** [KBucket.removePeer(peerId)] *)
Definition removePeer (peerId : string) (self : KBucket) (clk : Clock)
    : Result (KBucket * Clock) :=
  let bucketIndex := getBucketIndex self peerId in
  match bucketAt self bucketIndex with
  | None => Err (TypeError "Cannot read properties of undefined (reading 'peers')")
  | Some bucket =>
      let peerIndex := findIndex (fun p => String.eqb (peer_id p) peerId) (peers bucket) in
      if negb (peerIndex =? -1) then
        let '(now, clk') := Date_now clk in
        Ok (setBucket self bucketIndex
              {| peers := delete (Z.to_nat peerIndex) (peers bucket); lastUpdated := now |},
            clk')
      else Ok (self, clk)
  end.

(** [KBucket.getAllPeers()] *)
Definition getAllPeers (self : KBucket) : list PeerInfo :=
  fold_left (fun acc bucket => acc ++ peers bucket) (buckets self) [].

(** ** src/storage/manager.ts *)

Inductive StorageStrategy := LocalOnly | NetworkOnly | P2POnly | Hybrid.

(** [StorageOptions] of src/storage/types.ts, as far as the manager and the
    chunking of the providers read it: [replicas] and [chunks.size]. The
    other properties ([encryption], [compression], [chunks.parallel],
    [persist]) are passed through to the providers unread. *)
Record StorageOptions := {
  opt_replicas : option Z;
  opt_chunkSize : option Z
}.

(** [StorageMetadata] of src/storage/types.ts, without the optional
    [encryption] and [compression], which the manager does not read. *)
Record StorageMetadata := {
  md_id : string;
  md_size : Z;
  md_chunks : list ChunkInfo;
  md_created : Z;
  md_modified : Z;
  md_checksum : string;
  md_storageType : string;
  md_replicas : Z
}.

Record StorageRequest := {
  req_data : Buffer;
  req_options : option StorageOptions;
  req_strategy : option StorageStrategy;
  req_priority : option Z
}.

Record StorageManagerConfig := {
  cfg_defaultChunkSize : Z;
  cfg_defaultStrategy : option StorageStrategy;
  cfg_replicationFactor : option Z
}.

(** The events the manager emits; a provider is named by its key in the
    manager's [providers] map. *)
Inductive Event :=
  | Stored (id : string) (size : Z) (replicas : Z) (strategy : StorageStrategy)
  | Retrieved (id : string) (size : Z) (provider : string)
  | Deleted (id : string)
  | Replicated (id : string) (provider : string)
  | ReplicationFailed (id : string) (provider : string) (error : Error).

(** The [StorageProvider] interface of src/storage/types.ts, with the
    methods that [store] and [retrieve] of the manager call. A provider is
    a state of type [P]; a method takes the state and returns its result,
    or the error it throws, with the state it leaves. [getMetadata] may
    return [null], as the manager's tests of its result allow for.
    [constructorName] is [provider.constructor.name]. *)
Class StorageProvider (P : Type) := {
  provider_store : P → Buffer → option StorageOptions → Result StorageMetadata * P;
  provider_retrieve : P → string → Result Buffer * P;
  provider_validateChecksum : P → string → Result bool * P;
  provider_getMetadata : P → string → Result (option StorageMetadata) * P;
  constructorName : P → string
}.

(** [String.prototype.toLowerCase] on ASCII. *)
Definition lowerAscii (c : ascii) : ascii :=
  let n := N_of_ascii c in
  if ((65 <=? n) && (n <=? 90))%N then ascii_of_N (n + 32) else c.

Fixpoint toLowerCase (s : string) : string :=
  match s with
  | EmptyString => EmptyString
  | String c s' => String (lowerAscii c) (toLowerCase s')
  end.

(** [Array.prototype.slice(start, end)] *)
Definition Array_slice {A} (l : list A) (start end_ : Z) : list A :=
  let s := clamp_pos (Z.of_nat (length l)) start in
  let e := clamp_pos (Z.of_nat (length l)) end_ in
  take (Z.to_nat (e - s)) (drop (Z.to_nat s) l).

Section StorageManager.
Context {P : Type} `{SP : StorageProvider P}.

(** The manager: [providers] is the [Map] in insertion order, with the
    current state of each provider object; [emitted] is the log of the
    events passed to [emit], oldest first. *)
Record StorageManager := {
  config : StorageManagerConfig;
  providers : list (string * P);
  metadataCache : gmap string StorageMetadata;
  emitted : list Event
}.

(** Computations of the manager: a result or a thrown error, and the
    manager they leave. *)
Definition M (A : Type) : Type := StorageManager → Result A * StorageManager.

Definition ret {A} (a : A) : M A := fun m => (Ok a, m).
Definition throw {A} (e : Error) : M A := fun m => (Err e, m).
Definition bind {A B} (c : M A) (k : A → M B) : M B :=
  fun m => match c m with
           | (Ok a, m') => k a m'
           | (Err e, m') => (Err e, m')
           end.
(** [try { c } catch (error) { h error }] *)
Definition try_catch {A} (c : M A) (h : Error → M A) : M A :=
  fun m => match c m with
           | (Ok a, m') => (Ok a, m')
           | (Err e, m') => h e m'
           end.

Notation "'let*' x ':=' c 'in' k" := (bind c (fun x => k))
  (at level 10, x pattern, c at level 100, k at level 200).

(** [this.emit(event)] *)
Definition emit (e : Event) : M unit :=
  fun m => (Ok tt, {| config := config m; providers := providers m;
                      metadataCache := metadataCache m;
                      emitted := emitted m ++ [e] |}).

(** [this.metadataCache.get(id)] and [this.metadataCache.set(id, md)] *)
Definition cacheGet (id : string) : M (option StorageMetadata) :=
  fun m => (Ok (metadataCache m !! id), m).

Definition cacheSet (id : string) (md : StorageMetadata) : M unit :=
  fun m => (Ok tt, {| config := config m; providers := providers m;
                      metadataCache := <[id := md]> (metadataCache m);
                      emitted := emitted m |}).

(** The state of the provider object stored under [name]. *)
Fixpoint providerState (ps : list (string * P)) (name : string) : option P :=
  match ps with
  | [] => None
  | (n, p) :: ps' => if String.eqb n name then Some p else providerState ps' name
  end.

Fixpoint setProviderState (ps : list (string * P)) (name : string) (p' : P)
    : list (string * P) :=
  match ps with
  | [] => []
  | (n, p) :: ps' =>
      if String.eqb n name then (n, p') :: ps'
      else (n, p) :: setProviderState ps' name p'
  end.

(** A method call on the provider object stored under [name]: the object
    is shared between the map and every array that lists it, so the call
    runs on its current state and leaves the new state in the map. A name
    that is not in the map holds no object. *)
Definition call {A} (name : string) (method : P → Result A * P) : M A :=
  fun m => match providerState (providers m) name with
           | None => (Err (TypeError "Cannot read properties of undefined"), m)
           | Some p =>
               let '(r, p') := method p in
               (r, {| config := config m;
                      providers := setProviderState (providers m) name p';
                      metadataCache := metadataCache m;
                      emitted := emitted m |})
           end.

(** [getProvidersForStrategy(strategy)], as the keys of the providers. *)
Definition getProvidersForStrategy (strategy : StorageStrategy) : M (list string) :=
  fun m =>
    let has name := bool_decide (is_Some (providerState (providers m) name)) in
    (Ok match strategy with
        | LocalOnly => if has "local" then ["local"] else []
        | NetworkOnly => if has "network" then ["network"] else []
        | P2POnly => if has "p2p" then ["p2p"] else []
        | Hybrid => map fst (providers m)
        end, m).

(** [metadata.chunks.some(chunk => chunk.location.storageType === className)]:
    the chunks are tested in order up to the first match; the test of a
    chunk without a [location] throws. *)
Fixpoint someChunkOfType (className : string) (chunks : list ChunkInfo) : Result bool :=
  match chunks with
  | [] => Ok false
  | chunk :: rest =>
      match chunk_location chunk with
      | None =>
          Err (TypeError "Cannot read properties of undefined (reading 'storageType')")
      | Some location =>
          if String.eqb (loc_storageType location) className then Ok true
          else someChunkOfType className rest
      end
  end.

(** [Array.from(this.providers.values()).filter(provider => ...)], as the
    keys of the providers that are kept. *)
Fixpoint filterProviders (ps : list (string * P)) (metadata : StorageMetadata)
    : Result (list string) :=
  match ps with
  | [] => Ok []
  | (name, provider) :: rest =>
      match someChunkOfType (toLowerCase (constructorName provider))
              (md_chunks metadata) with
      | Err e => Err e
      | Ok keep =>
          match filterProviders rest metadata with
          | Err e => Err e
          | Ok names => Ok (if keep then name :: names else names)
          end
      end
  end.

(** [getProvidersForMetadata(metadata)] *)
Definition getProvidersForMetadata (metadata : StorageMetadata) : M (list string) :=
  fun m => (filterProviders (providers m) metadata, m).

(** [findMetadata(id)]: the loop over [this.providers.values()]. *)
Fixpoint findMetadata_loop (names : list string) (id : string)
    : M (option StorageMetadata) :=
  match names with
  | [] => ret None
  | name :: rest =>
      fun m =>
        match call name (fun p => provider_getMetadata p id) m with
        | (Ok (Some metadata), m') => (Ok (Some metadata), m')
        | (Ok None, m') => findMetadata_loop rest id m'
        | (Err _, m') => findMetadata_loop rest id m'
        end
  end.

Definition findMetadata (id : string) : M (option StorageMetadata) :=
  fun m => findMetadata_loop (map fst (providers m)) id m.

(** The loop "try each provider until successful" of [retrieve];
    [lastError] is [None] for [undefined]. *)
Fixpoint retrieve_loop (names : list string) (id : string) (metadata : StorageMetadata)
    (lastError : option Error) : M Buffer :=
  match names with
  | [] => throw (StorageError "Failed to retrieve data from any provider"
                   "RETRIEVE_ERROR" None)
  | provider :: rest =>
      try_catch
        (let* data := call provider (fun p => provider_retrieve p id) in
         let* valid := call provider (fun p => provider_validateChecksum p id) in
         if negb valid then throw (PlainError "Checksum validation failed")
         else
           let* _ := emit (Retrieved id (md_size metadata) provider) in
           ret data)
        (fun error => retrieve_loop rest id metadata (Some error))
  end.

(** The first part of [retrieve]: the metadata from the cache or, failing
    that, from the providers (and then into the cache). *)
Definition lookupMetadata (id : string) : M (option StorageMetadata) :=
  let* cached := cacheGet id in
  match cached with
  | Some metadata => ret (Some metadata)
  | None =>
      let* found := findMetadata id in
      match found with
      | Some metadata => let* _ := cacheSet id metadata in ret (Some metadata)
      | None => ret None
      end
  end.

(** The second part of [retrieve], once the metadata is there: the
    preferred provider first if one is named and exists, then the loop over
    the providers for the metadata. *)
Definition retrieveFrom (id : string) (preferredProvider : option string)
    (metadata : StorageMetadata) : M Buffer :=
  let* candidates := getProvidersForMetadata metadata in
  if (length candidates =? 0)%nat then
    throw (StorageError "No providers available for retrieval" "NO_PROVIDERS" None)
  else
    let others := retrieve_loop candidates id metadata None in
    if falsy preferredProvider then others
    else
      let name := default "" preferredProvider in
      fun m =>
        match providerState (providers m) name with
        | Some _ =>
            try_catch (call name (fun p => provider_retrieve p id))
              (fun _ => others) m
        | None => others m
        end.

(** [retrieve(id, options)]; [preferredProvider] is
    [options?.preferredProvider]. *)
Definition retrieve (id : string) (preferredProvider : option string) : M Buffer :=
  let* metadata := lookupMetadata id in
  match metadata with
  | None => throw (StorageError "Data not found" "NOT_FOUND" None)
  | Some metadata => retrieveFrom id preferredProvider metadata
  end.

(** *** Calls that run side by side

    [handleReplication] starts every replication before it awaits any of
    them. An [async] method runs without interruption up to its first
    [await] of a provider's method; it goes on, again without interruption,
    when that call has settled, up to its next such [await]. A [Task] is a
    call in that state: it has settled, or it waits for a provider. When a
    waiting task is resumed in a state of the manager, the effect of the
    provider's call takes place and the method runs on: [next] is the task
    that is left and [after] the state that is left. An [await] of one of
    the manager's own methods does not let another call in: its promise
    settles in the turn in which the provider's call that it waited for has
    settled. *)
Inductive Task (A : Type) : Type :=
  | Settled (r : Result A)
  | Waiting (next : StorageManager → Task A) (after : StorageManager → StorageManager).
Arguments Settled {A} r.
Arguments Waiting {A} next after.

(** An [async] method: called in a state of the manager, it runs up to its
    first [await] of a provider. *)
Definition Async (A : Type) : Type := StorageManager → Task A * StorageManager.

Definition resume {A} (t : Task A) : Async A :=
  fun m => match t with
           | Settled r => (Settled r, m)
           | Waiting next after => (next m, after m)
           end.

(** The task that waits to run [c]. *)
Definition suspended {A} (c : Async A) : Task A :=
  Waiting (fun m => (c m).1) (fun m => (c m).2).

(** Code without an [await]. *)
Definition now {A} (c : M A) : Async A :=
  fun m => let '(r, m') := c m in (Settled r, m').

(** [await provider.method(...)] for the provider object stored under
    [name]: the caller waits, and the call has its effect on the provider
    and its result when the caller is resumed. A name that is not in the
    map holds no object: the call throws at once. *)
Definition awaitCall {A} (name : string) (method : P → Result A * P) : Async A :=
  fun m => match providerState (providers m) name with
           | None => now (call name method) m
           | Some _ => (suspended (now (call name method)), m)
           end.

(** [k] with the result of the task [t], once it has settled. *)
Fixpoint andThen {A B} (t : Task A) (k : Result A → Async B) : Async B :=
  match t with
  | Settled r => k r
  | Waiting next after =>
      fun m => (suspended (fun m1 => andThen (next m1) k (after m1)), m)
  end.

Definition acase {A B} (c : Async A) (k : Result A → Async B) : Async B :=
  fun m => let '(t, m1) := c m in andThen t k m1.

Definition abind {A B} (c : Async A) (k : A → Async B) : Async B :=
  acase c (fun r => match r with
                    | Ok a => k a
                    | Err e => now (throw e)
                    end).

(** [try { c } catch (error) { h error }] around code that awaits. *)
Definition acatch {A} (c : Async A) (h : Error → Async A) : Async A :=
  acase c (fun r => match r with
                    | Ok a => now (ret a)
                    | Err e => h e
                    end).

(** A task that is resumed until it has settled, with nothing else running
    in between; and a method that runs alone. *)
Fixpoint run {A} (t : Task A) : M A :=
  fun m => match t with
           | Settled r => (r, m)
           | Waiting next after => run (next m) (after m)
           end.

Definition alone {A} (c : Async A) : M A :=
  fun m => let '(t, m1) := c m in run t m1.

Notation "'let+' x ':=' c 'in' k" := (abind c (fun x => k))
  (at level 10, x pattern, c at level 100, k at level 200).

(** [findMetadata], [retrieve] and [replicateToProvider] once more, with
    their [await]s, for calls that run side by side. The bodies are those
    of [findMetadata_loop], [lookupMetadata], [retrieve_loop],
    [retrieveFrom] and [retrieve] above, which are these methods run
    alone. *)
Fixpoint findMetadataA_loop (names : list string) (id : string)
    : Async (option StorageMetadata) :=
  match names with
  | [] => now (ret None)
  | name :: rest =>
      acase (awaitCall name (fun p => provider_getMetadata p id))
        (fun r => match r with
                  | Ok (Some metadata) => now (ret (Some metadata))
                  | Ok None => findMetadataA_loop rest id
                  | Err _ => findMetadataA_loop rest id
                  end)
  end.

Definition findMetadataA (id : string) : Async (option StorageMetadata) :=
  fun m => findMetadataA_loop (map fst (providers m)) id m.

Fixpoint retrieveA_loop (names : list string) (id : string) (metadata : StorageMetadata)
    (lastError : option Error) : Async Buffer :=
  match names with
  | [] => now (throw (StorageError "Failed to retrieve data from any provider"
                        "RETRIEVE_ERROR" None))
  | provider :: rest =>
      acatch
        (let+ data := awaitCall provider (fun p => provider_retrieve p id) in
         let+ valid := awaitCall provider (fun p => provider_validateChecksum p id) in
         if negb valid then now (throw (PlainError "Checksum validation failed"))
         else
           let+ _ := now (emit (Retrieved id (md_size metadata) provider)) in
           now (ret data))
        (fun error => retrieveA_loop rest id metadata (Some error))
  end.

Definition lookupMetadataA (id : string) : Async (option StorageMetadata) :=
  let+ cached := now (cacheGet id) in
  match cached with
  | Some metadata => now (ret (Some metadata))
  | None =>
      let+ found := findMetadataA id in
      match found with
      | Some metadata => let+ _ := now (cacheSet id metadata) in now (ret (Some metadata))
      | None => now (ret None)
      end
  end.

Definition retrieveFromA (id : string) (preferredProvider : option string)
    (metadata : StorageMetadata) : Async Buffer :=
  let+ candidates := now (getProvidersForMetadata metadata) in
  if (length candidates =? 0)%nat then
    now (throw (StorageError "No providers available for retrieval" "NO_PROVIDERS" None))
  else
    let others := retrieveA_loop candidates id metadata None in
    if falsy preferredProvider then others
    else
      let name := default "" preferredProvider in
      fun m =>
        match providerState (providers m) name with
        | Some _ =>
            acatch (awaitCall name (fun p => provider_retrieve p id))
              (fun _ => others) m
        | None => others m
        end.

Definition retrieveA (id : string) (preferredProvider : option string) : Async Buffer :=
  let+ metadata := lookupMetadataA id in
  match metadata with
  | None => now (throw (StorageError "Data not found" "NOT_FOUND" None))
  | Some metadata => retrieveFromA id preferredProvider metadata
  end.

(** [replicateToProvider(metadata, provider, options)] *)
Definition replicateToProvider (metadata : StorageMetadata) (provider : string)
    (options : option StorageOptions) : Async unit :=
  acatch
    (let+ data := retrieveA (md_id metadata) None in
     let+ _ :=
       awaitCall provider
         (fun p => provider_store p data
                     (Some {| opt_replicas := Some 1;
                              opt_chunkSize := options ≫= opt_chunkSize |})) in
     now (emit (Replicated (md_id metadata) provider)))
    (fun error => now (emit (ReplicationFailed (md_id metadata) provider error))).

(** The calls of an array of promises are started one after the other. *)
Fixpoint startAll (calls : list (Async unit)) (m : StorageManager)
    : list (Task unit) * StorageManager :=
  match calls with
  | [] => ([], m)
  | c :: rest =>
      let '(t, m1) := c m in
      let '(tasks, m2) := startAll rest m1 in
      (t :: tasks, m2)
  end.

(** The task at position [i] is resumed, if there is one. *)
Definition resumeAt (i : nat) (tasks : list (Task unit)) (m : StorageManager)
    : list (Task unit) * StorageManager :=
  match tasks !! i with
  | Some t => let '(t', m') := resume t m in (<[i := t']> tasks, m')
  | None => (tasks, m)
  end.

Fixpoint runSchedule (schedule : list nat) (tasks : list (Task unit)) (m : StorageManager)
    : list (Task unit) * StorageManager :=
  match schedule with
  | [] => (tasks, m)
  | i :: rest => let '(tasks', m') := resumeAt i tasks m in runSchedule rest tasks' m'
  end.

Fixpoint finishAll (tasks : list (Task unit)) (m : StorageManager) : StorageManager :=
  match tasks with
  | [] => m
  | t :: rest => finishAll rest (run t m).2
  end.

(** [await Promise.allSettled(promises)]: the calls are started, and they
    go on in the order in which the providers' calls that they wait for
    settle. That order is not the manager's to decide: [schedule] gives it,
    as the positions of the calls that are resumed, one after the other;
    when it is used up, the calls that still wait are run to their end in
    the order of the array. No rejection is passed on. *)
Definition allSettled (schedule : list nat) (calls : list (Async unit)) : M unit :=
  fun m =>
    let '(tasks, m1) := startAll calls m in
    let '(tasks', m2) := runSchedule schedule tasks m1 in
    (Ok tt, finishAll tasks' m2).

(** [handleReplication(metadata, providers, options)] *)
Definition handleReplication (schedule : list nat) (metadata : StorageMetadata)
    (secondaries : list string) (options : option StorageOptions) : M unit :=
  fun m =>
    let replicationFactor :=
      default (default 1 (cfg_replicationFactor (config m))) (options ≫= opt_replicas) in
    let replicationPromises :=
      map (fun provider => replicateToProvider metadata provider options)
        (Array_slice secondaries 0 (replicationFactor - 1)) in
    allSettled schedule replicationPromises m.

(** [store(request)]; [schedule] is the order in which the provider calls
    of the replications settle. *)
Definition store (schedule : list nat) (request : StorageRequest) : M StorageMetadata :=
  fun m =>
    let strategy :=
      default (default Hybrid (cfg_defaultStrategy (config m))) (req_strategy request) in
    (let* targets := getProvidersForStrategy strategy in
     match targets with
     | [] => throw (StorageError "No storage providers available for strategy"
                      "NO_PROVIDERS" None)
     | primary :: secondaries =>
         try_catch
           (let* primaryMetadata :=
              call primary
                (fun p => provider_store p (req_data request) (req_options request)) in
            let* _ := cacheSet (md_id primaryMetadata) primaryMetadata in
            let* _ :=
              if (1 <? length targets)%nat
                 && negb (bool_decide (req_options request ≫= opt_replicas = Some 0))
              then handleReplication schedule primaryMetadata secondaries
                     (req_options request)
              else ret tt in
            let* _ :=
              emit (Stored (md_id primaryMetadata) (md_size primaryMetadata)
                      (Z.of_nat (length targets)) strategy) in
            ret primaryMetadata)
           (fun error => throw (StorageError "Failed to store data" "STORE_ERROR" None))
     end) m.
End StorageManager.

Arguments Settled {P A} r.
Arguments Waiting {P A} next after.

(** * Specification-side definitions *)

(** The bytes of [data] at positions [lo] (included) to [hi] (excluded). *)
Definition bytesBetween (data : Buffer) (lo hi : Z) : Buffer :=
  take (Z.to_nat (hi - lo)) (drop (Z.to_nat lo) data).

(** The bytes of chunk number [i] of [data] cut every [C] bytes. *)
Definition chunkRange (data : Buffer) (C : Z) (i : nat) : Buffer :=
  bytesBetween data (Z.of_nat i * C) (Z.min ((Z.of_nat i + 1) * C) (blen data)).

(** The descriptor that [split] is expected to produce for chunk number
    [i], when it reads the clock at reading number [i]. *)
Definition chunkAt `{RT : Runtime} (data : Buffer) (C : Z) (clk : Clock) (i : nat) : ChunkInfo :=
  let lo := Z.of_nat i * C in
  let hi := Z.min ((Z.of_nat i + 1) * C) (blen data) in
  splitDescriptor (Z.of_nat i) (hi - lo) (sha256_hex (bytesBetween data lo hi)) (clk i).

(** The number of chunks of [n] bytes cut every [C] bytes: the ceiling of
    [n / C]. *)
Definition chunkCount (n C : Z) : Z := (n + C - 1) / C.

(** The sum of the sizes announced by a list of descriptors. *)
Definition totalSize (info : list ChunkInfo) : Z :=
  foldr Z.add 0 (map chunk_size info).

(** Pairs in ascending order of descriptor index. *)
Definition indexLe (p q : ChunkInfo * Buffer) : Prop :=
  chunk_index p.1 <= chunk_index q.1.

(** A runtime on which the definitions can be evaluated: the digest of a
    buffer is the buffer itself read as a string (so different buffers have
    different digests), and fresh memory is filled with [0xaa]. *)
Definition evalRuntime : Runtime :=
  {| sha256_hex := fun b => string_of_list_ascii (map ascii_of_byte b);
     uninitialised := fun _ => xaa |}.

(** A clock that starts at [t] and advances by one millisecond per reading. *)
Definition evalClock (t : Z) : Clock := fun n => t + Z.of_nat n.

(** A lower-case hex digit, and a key in wire form: exactly 64 lower-case
    hex digits. *)
Definition lowerHexDigit (c : ascii) : Prop :=
  c ∈ list_ascii_of_string "0123456789abcdef".

Definition isKey64 (s : string) : Prop :=
  String.length s = 64%nat /\ Forall lowerHexDigit (list_ascii_of_string s).

(** A message that passes every test of [validateMessage] at time [now],
    with the given [key]. *)
Definition pingMessage (key : option string) (timestamp : Z) : DHTMessage :=
  {| msg_type := "query";
     msg_dhtType := Some "PING";
     msg_protocol := Some "dht";
     msg_version := Some "1.0.0";
     msg_payload :=
       {| payload_id := "1"; payload_timestamp := timestamp;
          payload_sender := Some "node-a"; payload_receiver := None;
          payload_key := key; payload_value := None |} |}.

(** The number that a buffer denotes, first byte most significant. *)
Fixpoint beValue (b : Buffer) : Z :=
  match b with
  | [] => 0
  | x :: rest => byteZ x * 256 ^ Z.of_nat (length rest) + beValue rest
  end.

(** The number that a string of hex digits denotes: the value of a 256-bit
    id in wire form. *)
Fixpoint hexValue (s : string) : Z :=
  match s with
  | EmptyString => 0
  | String c rest => default 0 (unhex c) * 16 ^ Z.of_nat (String.length rest) + hexValue rest
  end.

(** The ids of all zeros, of the lowest bit only and of the highest bit
    only. *)
Definition zeros (n : nat) : string := string_of_list_ascii (replicate n "0"%char).

Definition idZero : string := zeros 64.
Definition idOne : string := zeros 63 +:+ "1".
Definition idTop : string := "8" +:+ zeros 63.
Definition idTopNext : string := "c" +:+ zeros 63.

(** The routing table of the node [idZero], as the constructor leaves it
    with its default parameters. *)
Definition emptyTable : KBucket := (newKBucket idZero None None (evalClock 0)).1.

(** The operations of a routing table, and a sequence of them run one after
    the other; the first error stops the run. *)
Inductive Op :=
  | AddPeer (peer : PeerInfo)
  | RemovePeer (peerId : string).

Definition runOp (op : Op) (self : KBucket) (clk : Clock) : Result (KBucket * Clock) :=
  match op with
  | AddPeer peer => addPeer peer self clk
  | RemovePeer peerId => removePeer peerId self clk
  end.

Fixpoint runOps (ops : list Op) (self : KBucket) (clk : Clock) : Result (KBucket * Clock) :=
  match ops with
  | [] => Ok (self, clk)
  | op :: rest =>
      match runOp op self clk with
      | Ok (self', clk') => runOps rest self' clk'
      | Err e => Err e
      end
  end.

(** A peer older than the stale threshold at time [now]. *)
Definition stale (now : Z) (q : PeerInfo) : Prop :=
  now - pm_lastSeen (peer_metadata q) > 1 * 60 * 60 * 1000.

(** [i] is the first position of [l] whose element satisfies [P]. *)
Definition firstAt {A} (P : A -> Prop) (l : list A) (i : nat) : Prop :=
  (exists x, l !! i = Some x /\ P x)
  /\ forall j y, (j < i)%nat -> l !! j = Some y -> ~ P y.

(** What [addPeer] does to the peers [old] of the bucket of [p], for a
    bucket capacity [k] and a clock [clk]: the new list of peers and the
    clock left for the final reading that sets [lastUpdated]. *)
Inductive AddOutcome (p : PeerInfo) (k : Z) (clk : Clock) (old : list PeerInfo)
    : list PeerInfo -> Clock -> Prop :=
  | Refreshed (i : nat) :
      firstAt (fun q => peer_id q = peer_id p) old i ->
      AddOutcome p k clk old (<[i := seenAt p (clk O)]> old) (fun n => clk (S n))
  | Appended :
      Forall (fun q => peer_id q <> peer_id p) old ->
      Z.of_nat (length old) < k ->
      AddOutcome p k clk old (old ++ [seenAt p (clk O)]) (fun n => clk (S n))
  | Replaced (i : nat) :
      Forall (fun q => peer_id q <> peer_id p) old ->
      k <= Z.of_nat (length old) ->
      firstAt (stale (clk O)) old i ->
      AddOutcome p k clk old (<[i := seenAt p (clk 1%nat)]> old) (fun n => clk (S (S n)))
  | Rejected :
      Forall (fun q => peer_id q <> peer_id p) old ->
      k <= Z.of_nat (length old) ->
      Forall (fun q => ~ stale (clk O) q) old ->
      AddOutcome p k clk old old (fun n => clk (S n)).

(** A table whose array of buckets has the announced length, which is at
    least the 256 positions that a distance can name. *)
Definition wfTable (self : KBucket) : Prop :=
  length (buckets self) = numberOfBuckets self /\ (256 <= numberOfBuckets self)%nat.

(** The invariant of the routing table: every bucket holds distinct ids, at
    most [kSize] of them, and only peers whose bucket index is the bucket's
    position. *)
Definition tableInv (self : KBucket) : Prop :=
  wfTable self
  /\ 0 <= kSize self
  /\ forall (b : nat) (bucket : Bucket),
       buckets self !! b = Some bucket ->
       NoDup (map peer_id (peers bucket))
       /\ Z.of_nat (length (peers bucket)) <= kSize self
       /\ Forall (fun q => getBucketIndex self (peer_id q) = Z.of_nat b) (peers bucket).

(** The ids of the peers of bucket number [b], in order. *)
Definition bucketIds (self : KBucket) (b : Z) : option (list string) :=
  (fun bucket => map peer_id (peers bucket)) <$> bucketAt self b.

(** A peer that was never seen, with the given id. *)
Definition peerWithId (id : string) (lastSeen : Z) : PeerInfo :=
  {| peer_id := id; peer_multiaddr := []; peer_protocols := [];
     peer_metadata :=
       {| pm_type := "unknown"; pm_region := ""; pm_version := "1.0.0";
          pm_capabilities := []; pm_uptime := 0; pm_lastSeen := lastSeen |};
     peer_metrics :=
       {| px_latency := 0; px_bandwidth := 0; px_reliability := 0;
          px_storage_total := 0; px_storage_used := 0; px_storage_available := 0 |} |}.

(** The table of the node [idZero] after it has met the peers [idTop] and
    [idTopNext], which both fall into bucket 0. *)
Definition twoPeerTable : Result (KBucket * Clock) :=
  runOps [AddPeer (peerWithId idTop 0); AddPeer (peerWithId idTopNext 0)]
    emptyTable (evalClock 0).

(** The strategy that [store] resolves for a request. *)
Definition resolvedStrategy (config : StorageManagerConfig) (request : StorageRequest)
    : StorageStrategy :=
  default (default Hybrid (cfg_defaultStrategy config)) (req_strategy request).

(** The two events of a replication attempt, and the event of a read. *)
Definition isReplicationEvent (e : Event) : bool :=
  match e with
  | Replicated _ _ | ReplicationFailed _ _ _ => true
  | _ => false
  end.

Definition isRetrieved (e : Event) : bool :=
  match e with
  | Retrieved _ _ _ => true
  | _ => false
  end.

(** A provider that can be evaluated. Its state says what its class is
    called, which bytes it holds, whether its checksum validation passes,
    which metadata it knows, what its [store] returns (nothing: it throws),
    and how often its [store] has run. *)
Record EvalProvider := {
  ep_className : string;
  ep_bytes : option Buffer;
  ep_checksumOk : bool;
  ep_metadata : option StorageMetadata;
  ep_storeResult : option StorageMetadata;
  ep_stores : nat
}.

Definition evalProvider : StorageProvider EvalProvider :=
  {| provider_store := fun p data _ =>
       match ep_storeResult p with
       | Some md =>
           (Ok md, {| ep_className := ep_className p; ep_bytes := Some data;
                      ep_checksumOk := ep_checksumOk p; ep_metadata := Some md;
                      ep_storeResult := ep_storeResult p; ep_stores := S (ep_stores p) |})
       | None => (Err (PlainError "store failed"), p)
       end;
     provider_retrieve := fun p _ =>
       match ep_bytes p with
       | Some b => (Ok b, p)
       | None => (Err (PlainError "nothing stored"), p)
       end;
     provider_validateChecksum := fun p _ => (Ok (ep_checksumOk p), p);
     provider_getMetadata := fun p _ => (Ok (ep_metadata p), p);
     constructorName := ep_className |}.

(** Metadata of a one-chunk artifact of 3 bytes held by a provider of
    storage type [storageType]. *)
Definition evalMetadata (id storageType : string) : StorageMetadata :=
  {| md_id := id; md_size := 3;
     md_chunks :=
       [{| chunk_index := 0; chunk_size := 3; chunk_checksum := "c0";
           chunk_location :=
             Some {| loc_nodeId := "local"; loc_type := "source";
                     loc_storageType := storageType;
                     loc_protocol := "file"; loc_endpoint := "/chunks/0"; loc_region := "";
                     loc_availability := 1; loc_lastSeen := 0; loc_health := 1;
                     loc_capacity := 0; loc_used := 0; loc_latency := 0;
                     loc_bandwidth := 0 |};
           chunk_replicas := 0 |}];
     md_created := 0; md_modified := 0; md_checksum := "c0";
     md_storageType := storageType; md_replicas := 1 |}.

Definition evalConfig : StorageManagerConfig :=
  {| cfg_defaultChunkSize := 1024 * 1024; cfg_defaultStrategy := None;
     cfg_replicationFactor := Some 3 |}.

(** A manager with a local, a network and a p2p provider that hold nothing
    yet; [store] succeeds on the first two and throws on the third. *)
Definition evalManager : StorageManager (P := EvalProvider) :=
  {| config := evalConfig;
     providers :=
       [("local", {| ep_className := "local"; ep_bytes := None; ep_checksumOk := true;
                     ep_metadata := None;
                     ep_storeResult := Some (evalMetadata "id-1" "local");
                     ep_stores := 0 |});
        ("network", {| ep_className := "network"; ep_bytes := None; ep_checksumOk := true;
                       ep_metadata := None;
                       ep_storeResult := Some (evalMetadata "id-2" "network");
                       ep_stores := 0 |});
        ("p2p", {| ep_className := "p2p"; ep_bytes := None; ep_checksumOk := true;
                   ep_metadata := None; ep_storeResult := None; ep_stores := 0 |})];
     metadataCache := ∅;
     emitted := [] |}.

(** A manager that has the metadata of "id-1" in its cache, from an earlier
    [store], while its only provider no longer knows the id and holds no
    bytes. *)
Definition staleCacheManager : StorageManager (P := EvalProvider) :=
  {| config := evalConfig;
     providers :=
       [("local", {| ep_className := "LocalStorageProvider"; ep_bytes := None;
                     ep_checksumOk := true; ep_metadata := None;
                     ep_storeResult := None; ep_stores := 1 |})];
     metadataCache := {[ "id-1" := evalMetadata "id-1" "local" ]};
     emitted := [] |}.

(** A manager whose provider "local" holds bytes for "id-1" that fail its
    checksum validation. *)
Definition corruptManager : StorageManager (P := EvalProvider) :=
  {| config := evalConfig;
     providers :=
       [("local", {| ep_className := "local"; ep_bytes := Some [xff; xff; xff];
                     ep_checksumOk := false;
                     ep_metadata := Some (evalMetadata "id-1" "local");
                     ep_storeResult := None; ep_stores := 1 |})];
     metadataCache := ∅;
     emitted := [] |}.

Definition evalRequest (replicas : option Z) : StorageRequest :=
  {| req_data := [x01; x02; x03];
     req_options := Some {| opt_replicas := replicas; opt_chunkSize := None |};
     req_strategy := Some Hybrid;
     req_priority := None |}.

Section StorageManagerSpec.
Context {P : Type} `{SP : StorageProvider P}.

(** The manager after the primary's [store] has returned [md] and left the
    provider in state [p0']: the metadata is cached, the replication (if
    any) has run, and 'stored' has been emitted. *)
Definition afterPrimary (schedule : list nat) (request : StorageRequest)
    (m : StorageManager (P := P)) (primary : string) (p0' : P)
    (rest : list (string * P)) (md : StorageMetadata) : StorageManager (P := P) :=
  let m1 := {| config := config m; providers := (primary, p0') :: rest;
               metadataCache := <[md_id md := md]> (metadataCache m);
               emitted := emitted m |} in
  let m2 :=
    if (1 <? S (length rest))%nat
       && negb (bool_decide (req_options request ≫= opt_replicas = Some 0))
    then (handleReplication schedule md (map fst rest) (req_options request) m1).2
    else m1 in
  {| config := config m2; providers := providers m2; metadataCache := metadataCache m2;
     emitted := emitted m2 ++ [Stored (md_id md) (md_size md)
                                 (Z.of_nat (S (length rest))) Hybrid] |}.

(** The options that [replicateToProvider] passes to the secondary. *)
Definition replicaOptions (options : option StorageOptions) : option StorageOptions :=
  Some {| opt_replicas := Some 1; opt_chunkSize := options ≫= opt_chunkSize |}.

(** The secondaries to which [store] starts a replication. *)
Definition attemptedSecondaries (request : StorageRequest) (m : StorageManager (P := P))
    (rest : list (string * P)) : list string :=
  if (1 <? S (length rest))%nat
     && negb (bool_decide (req_options request ≫= opt_replicas = Some 0))
  then
    Array_slice (map fst rest) 0
      (default (default 1 (cfg_replicationFactor (config m)))
         (req_options request ≫= opt_replicas) - 1)
  else [].

(** A provider in state [p] does not know [id]: its [getMetadata] returns
    [null] or throws. *)
Definition unknownTo (id : string) (p : P) : Prop :=
  forall md p', provider_getMetadata p id <> (Ok (Some md), p').

(** The providers that [getProvidersForMetadata] selects when every chunk
    has a location: the keys, in the order of the map, of the providers
    whose class name in lower case is the storage type of some chunk. *)
Definition candidatesFor (metadata : StorageMetadata) (ps : list (string * P))
    : list string :=
  map fst
    (List.filter
       (fun np =>
          existsb (fun chunk =>
                     match chunk_location chunk with
                     | Some location =>
                         String.eqb (loc_storageType location)
                           (toLowerCase (constructorName np.2))
                     | None => false
                     end)
            (md_chunks metadata))
       ps).

(** Every chunk of the metadata has a location. *)
Definition located (metadata : StorageMetadata) : Prop :=
  Forall (fun chunk => is_Some (chunk_location chunk)) (md_chunks metadata).




(** [Life I t O]: whatever the other calls do between the turns of the task
    [t], as long as they keep [I], each turn of [t] keeps [I], and the
    events that [t] emits from now to its end, with its result, satisfy
    [O]. *)
Fixpoint Life {A} (I : StorageManager (P := P) → Prop) (t : Task A)
    (O : list Event → Result A → Prop) : Prop :=
  match t with
  | Settled r => O [] r
  | Waiting next after =>
      forall m, I m ->
        exists out, emitted (after m) = emitted m ++ out
                    /\ I (after m)
                    /\ Life I (next m) (fun rest r => O (out ++ rest) r)
  end.

(** The same for a method from its call on. *)
Definition LifeA {A} (I : StorageManager (P := P) → Prop) (c : Async A)
    (O : list Event → Result A → Prop) : Prop :=
  forall m, I m ->
    exists out, emitted (c m).2 = emitted m ++ out
                /\ I (c m).2
                /\ Life I (c m).1 (fun rest r => O (out ++ rest) r).

(** The events [outs] of the calls of an array satisfy, call by call, what
    [Os] says of them. *)
Definition eachSatisfies (Os : list (list Event → Result unit → Prop))
    (outs : list (list Event)) : Prop :=
  Forall2 (fun (O : list Event → Result unit → Prop) out => exists r, O out r) Os outs.

(** Only 'retrieved' events. *)
Definition onlyRetrieved (out : list Event) : Prop :=
  Forall (fun e => isRetrieved e = true) out.

(** What the replications keep: the configuration, the cache, the keys of
    the providers, and [Good] of the state of every provider. *)
Definition kept (config0 : StorageManagerConfig) (cache0 : gmap string StorageMetadata)
    (keys0 : list string) (Good : string → P → Prop) (m : StorageManager (P := P)) : Prop :=
  config m = config0
  /\ metadataCache m = cache0
  /\ map fst (providers m) = keys0
  /\ forall name p, providerState (providers m) name = Some p -> Good name p.

(** [Good] is kept by the methods that a replication calls. *)
Definition keptByProviders (Good : string → P → Prop) : Prop :=
  forall name p, Good name p ->
    (forall id, Good name (provider_retrieve p id).2)
    /\ (forall id, Good name (provider_validateChecksum p id).2)
    /\ (forall data options, Good name (provider_store p data options).2).

(** What a replication to [secondary] emits: 'retrieved' events, and then
    'replicated', after a [store] of the secondary that returned, or
    'replication-failed'. *)
Definition replicationEvents (Good : string → P → Prop) (id secondary : string)
    (options : option StorageOptions) (out : list Event) : Prop :=
  exists reads e,
    out = reads ++ [e]
    /\ onlyRetrieved reads
    /\ ((e = Replicated id secondary
         /\ exists p data md' p',
              Good secondary p
              /\ provider_store p data (replicaOptions options) = (Ok md', p'))
        \/ exists error, e = ReplicationFailed id secondary error).

End StorageManagerSpec.

(** * The rest of the sources *)

(** ** src/dht/protocol.ts, continued *)

(** [Array.prototype.sort(cmp)] for a comparator that returns a number: the
    stable sort, computed by inserting each element, last first, in front of
    the first element that must not come before it. *)
Fixpoint insertBy {A} (cmp : A -> A -> Z) (x : A) (l : list A) : list A :=
  match l with
  | [] => [x]
  | y :: l' => if cmp x y <=? 0 then x :: y :: l' else y :: insertBy cmp x l'
  end.

Definition Array_sort {A} (cmp : A -> A -> Z) (l : list A) : list A :=
  foldr (insertBy cmp) [] l.

(** [a.compare(b)] on buffers: -1, 0 or 1 by the first byte that differs,
    and by length when one buffer is a prefix of the other. *)
Fixpoint Buffer_compare (a b : Buffer) : Z :=
  match a, b with
  | [], [] => 0
  | [], _ :: _ => -1
  | _ :: _, [] => 1
  | x :: a', y :: b' =>
      if byteZ x <? byteZ y then -1
      else if byteZ y <? byteZ x then 1
      else Buffer_compare a' b'
  end.

(** [Buffer.from(s)] for a string: its UTF-8 octets, which are the
    characters of the modelled string. *)
Definition Buffer_from_string (s : string) : Buffer :=
  map byte_of_ascii (list_ascii_of_string s).

(** [n.toString()] for an integer. *)
Definition Number_toString (n : Z) : string := pretty n.

Inductive DHTMessageType := FIND_NODE | FIND_VALUE | STORE | DELETE | PING.

Definition DHTMessageType_string (t : DHTMessageType) : string :=
  match t with
  | FIND_NODE => "FIND_NODE"
  | FIND_VALUE => "FIND_VALUE"
  | STORE => "STORE"
  | DELETE => "DELETE"
  | PING => "PING"
  end.

(** The [options] of [createMessage]. *)
Record MessageOptions := {
  mo_key : option string;
  mo_value : option string;
  mo_receiver : option string
}.

(** [DHTProtocol.mapDHTTypeToMessageType(dhtType)] *)
Definition mapDHTTypeToMessageType (dhtType : DHTMessageType) : string :=
  match dhtType with
  | FIND_NODE | FIND_VALUE => "query"
  | STORE | DELETE => "update"
  | PING => "query"
  end.

(** [DHTProtocol.keysEqual(keyA, keyB)] *)
Definition keysEqual (keyA keyB : string) : bool := String.eqb keyA keyB.

(** [DHTProtocol.isCloser(keyA, keyB, target)] *)
Definition isCloser (keyA keyB target : string) : bool :=
  let distanceA := distance keyA target in
  let distanceB := distance keyB target in
  Buffer_compare distanceA distanceB <? 0.

(** [DHTProtocol.sortByDistance(peers, targetKey)]: sorts a copy. *)
Definition sortByDistance (peers : list PeerInfo) (targetKey : string) : list PeerInfo :=
  Array_sort
    (fun a b =>
       let distanceA := distance (peer_id a) targetKey in
       let distanceB := distance (peer_id b) targetKey in
       Buffer_compare distanceA distanceB)
    peers.

Section DHTProtocol.
Context `{RT : Runtime}.

(** [DHTProtocol.generateKey(value)] for a string. *)
Definition generateKey (value : string) : string :=
  sha256_hex (Buffer_from_string value).

(** [DHTProtocol.createMessage(dhtType, sender, options)]. The clock is read
    for the id and then for the timestamp. The payload's [data], a second
    copy of [options.value], has no field in [DHTPayload] and is left out. *)
Definition createMessage (dhtType : DHTMessageType) (sender : string)
    (options : MessageOptions) (clk : Clock) : DHTMessage * Clock :=
  let '(now1, clk1) := Date_now clk in
  let '(now2, clk2) := Date_now clk1 in
  ({| msg_type := mapDHTTypeToMessageType dhtType;
      msg_dhtType := Some (DHTMessageType_string dhtType);
      msg_protocol := Some "dht";
      msg_version := Some "1.0.0";
      msg_payload :=
        {| payload_id := generateKey (Number_toString now1);
           payload_timestamp := now2;
           payload_sender := Some sender;
           payload_receiver := mo_receiver options;
           payload_key := mo_key options;
           payload_value := mo_value options |} |}, clk2).
End DHTProtocol.

(** ** src/dht/kbucket.ts, continued *)

(** [KBucket.getPeer(peerId)] *)
Definition getPeer (peerId : string) (self : KBucket) : Result (option PeerInfo) :=
  let bucketIndex := getBucketIndex self peerId in
  match bucketAt self bucketIndex with
  | None => Err (TypeError "Cannot read properties of undefined (reading 'peers')")
  | Some bucket => Ok (List.find (fun p => String.eqb (peer_id p) peerId) (peers bucket))
  end.

(** [KBucket.getClosestPeers(key, count = this.kSize)] *)
Definition getClosestPeers (key : string) (count : option Z) (self : KBucket)
    : list PeerInfo :=
  let allPeers := getAllPeers self in
  Array_slice (sortByDistance allPeers key) 0 (default (kSize self) count).

(** [KBucket.size()] *)
Definition KBucket_size (self : KBucket) : Z :=
  fold_left (fun total bucket => total + Z.of_nat (length (peers bucket))) (buckets self) 0.

(** [KBucket.getBucketStats()]: [(bucketSize, totalPeers)]. *)
Definition getBucketStats (self : KBucket) : list Z * Z :=
  let bucketSize := map (fun bucket => Z.of_nat (length (peers bucket))) (buckets self) in
  let totalPeers := fold_left (fun sum size => sum + size) bucketSize 0 in
  (bucketSize, totalPeers).

(** [KBucket.isPeerStale(peer)] *)
Definition isPeerStale (peer : PeerInfo) (clk : Clock) : bool * Clock :=
  let '(now, clk') := Date_now clk in
  (now - pm_lastSeen (peer_metadata peer) >? STALE_THRESHOLD, clk').

(** ** src/storage/manager.ts, continued *)

(** The methods of the [StorageProvider] interface that [delete] and
    [cleanup] of the manager call. *)
Class StorageProviderMore (P : Type) := {
  provider_delete : P -> string -> Result bool * P;
  provider_cleanup : P -> Result unit * P
}.

Section StorageManagerMore.
Context {P : Type} `{SP : StorageProvider P} `{SM : StorageProviderMore P}.

Notation "'let*' x ':=' c 'in' k" := (bind c (fun x => k))
  (at level 10, x pattern, c at level 100, k at level 200).

(** [this.metadataCache.delete(id)] and [this.metadataCache.clear()] *)
Definition cacheDelete (id : string) : M (P := P) unit :=
  fun m => (Ok tt, {| config := config m; providers := providers m;
                      metadataCache := delete id (metadataCache m);
                      emitted := emitted m |}).

Definition cacheClear : M (P := P) unit :=
  fun m => (Ok tt, {| config := config m; providers := providers m;
                      metadataCache := ∅;
                      emitted := emitted m |}).

(** [await Promise.all(calls)] over calls that are run one after the other:
    every call is made; the results are returned if all calls return, and
    the first error is thrown otherwise. *)
Fixpoint allPromise {A} (calls : list (M (P := P) A)) : M (P := P) (list A) :=
  match calls with
  | [] => ret []
  | c :: rest =>
      fun m =>
        match c m with
        | (Ok a, m1) =>
            match allPromise rest m1 with
            | (Ok l, m2) => (Ok (a :: l), m2)
            | (Err e, m2) => (Err e, m2)
            end
        | (Err e, m1) => (Err e, (allPromise rest m1).2)
        end
  end.

(** [StorageManager.delete(id)] *)
Definition StorageManager_delete (id : string) : M (P := P) bool :=
  let* metadata := findMetadata id in
  match metadata with
  | None => ret false
  | Some metadata =>
      let* names := getProvidersForMetadata metadata in
      let* results :=
        allPromise (map (fun provider => call provider (fun p => provider_delete p id))
                      names) in
      let success := existsb (fun result => result) results in
      if success then
        let* _ := cacheDelete id in
        let* _ := emit (Deleted id) in
        ret success
      else ret success
  end.

(** [StorageManager.getMetadata(id)] *)
Definition getMetadata (id : string) : M (P := P) (option StorageMetadata) :=
  let* cached := cacheGet id in
  match cached with
  | Some metadata => ret (Some metadata)
  | None =>
      let* metadata := findMetadata id in
      match metadata with
      | Some found => let* _ := cacheSet id found in ret metadata
      | None => ret metadata
      end
  end.

(** [StorageManager.cleanup()] *)
Definition cleanup : M (P := P) unit :=
  fun m =>
    (let* _ :=
       allPromise (map (fun provider => call provider provider_cleanup)
                     (map fst (providers m))) in
     cacheClear) m.
End StorageManagerMore.

(** The remaining methods of the provider that can be evaluated: [delete]
    drops the bytes and the metadata and says whether there were any;
    [cleanup] does nothing. *)
Definition evalProviderMore : StorageProviderMore EvalProvider :=
  {| provider_delete := fun p _ =>
       (Ok (bool_decide (is_Some (ep_metadata p))),
        {| ep_className := ep_className p; ep_bytes := None;
           ep_checksumOk := ep_checksumOk p; ep_metadata := None;
           ep_storeResult := ep_storeResult p; ep_stores := ep_stores p |});
     provider_cleanup := fun p => (Ok tt, p) |}.

(** A table that a new table becomes by a sequence of [addPeer] and
    [removePeer], for a capacity of 0 or more and at least 256 buckets. *)
Definition reachable (table : KBucket) : Prop :=
  exists (id : string) (k : option Z) (n : option nat) (clk : Clock) (ops : list Op)
         (clk' : Clock),
    0 <= default 20 k /\ (256 <= default 256%nat n)%nat
    /\ runOps ops (newKBucket id k n clk).1 (newKBucket id k n clk).2 = Ok (table, clk').

(** The test by which [removePeer] and [getPeer] look for an id. *)
Definition hasId (id : string) (p : PeerInfo) : bool := String.eqb (peer_id p) id.

(** The distance of a peer to a target, read as a number. *)
Definition distanceTo (target : string) (p : PeerInfo) : Z :=
  beValue (distance (peer_id p) target).

(** The table of the node [idZero] after the constructor and two calls of
    [addPeer], for [idTop] and [idTopNext], on the clock that the constructor
    leaves. *)
Definition twoPeers : KBucket :=
  match runOps [AddPeer (peerWithId idTop 0); AddPeer (peerWithId idTopNext 0)]
          (newKBucket idZero None None (evalClock 0)).1
          (newKBucket idZero None None (evalClock 0)).2 with
  | Ok (table, _) => table
  | Err _ => emptyTable
  end.

(** The key under which [getProvidersForStrategy] looks for the one
    provider of a strategy; the hybrid strategy takes every provider. *)
Definition strategyKey (strategy : StorageStrategy) : option string :=
  match strategy with
  | LocalOnly => Some "local"
  | NetworkOnly => Some "network"
  | P2POnly => Some "p2p"
  | Hybrid => None
  end.

(** The errors that [retrieve] and [store] throw; [NO_LOCATION] is the
    [TypeError] of [getProvidersForMetadata] on a chunk without a
    location. *)
Definition NOT_FOUND : Error := StorageError "Data not found" "NOT_FOUND" None.
Definition NO_PROVIDERS_for_retrieval : Error :=
  StorageError "No providers available for retrieval" "NO_PROVIDERS" None.
Definition RETRIEVE_ERROR : Error :=
  StorageError "Failed to retrieve data from any provider" "RETRIEVE_ERROR" None.
Definition NO_LOCATION : Error :=
  TypeError "Cannot read properties of undefined (reading 'storageType')".
Definition NO_PROVIDERS_for_strategy : Error :=
  StorageError "No storage providers available for strategy" "NO_PROVIDERS" None.
Definition STORE_ERROR : Error := StorageError "Failed to store data" "STORE_ERROR" None.

(** The names of the classes of the providers that [initializeProviders]
    creates (src/storage/local.ts, network.ts and p2p.ts), and the storage
    types that the type of a chunk location allows. *)
Definition builtinClassNames : list string :=
  ["LocalStorageProvider"; "NetworkStorageProvider"; "P2PStorageProvider"].

Definition storageTypes : list string := ["local"; "network"; "p2p"].

Definition typedChunks (md : StorageMetadata) : Prop :=
  Forall (fun chunk => exists location,
                         chunk_location chunk = Some location
                         /\ loc_storageType location ∈ storageTypes)
    (md_chunks md).

Definition builtinProviders {P : Type} `{SP : StorageProvider P}
    (ps : list (string * P)) : Prop :=
  Forall (fun np => constructorName np.2 ∈ builtinClassNames) ps.

Definition isOk {A} (r : Result A) : bool :=
  match r with
  | Ok _ => true
  | Err _ => false
  end.

(** A request for the data of [evalRequest] with a given strategy. *)
Definition strategyRequest (strategy : StorageStrategy) : StorageRequest :=
  {| req_data := [x01; x02; x03];
     req_options := None;
     req_strategy := Some strategy;
     req_priority := None |}.

(** A manager with the providers of [evalManager] under the class names
    that the built-in providers have. *)
Definition builtinManager : StorageManager (P := EvalProvider) :=
  {| config := evalConfig;
     providers :=
       [("local", {| ep_className := "LocalStorageProvider"; ep_bytes := None;
                     ep_checksumOk := true; ep_metadata := None;
                     ep_storeResult := Some (evalMetadata "id-1" "local");
                     ep_stores := 0 |});
        ("network", {| ep_className := "NetworkStorageProvider"; ep_bytes := None;
                       ep_checksumOk := true; ep_metadata := None;
                       ep_storeResult := Some (evalMetadata "id-2" "network");
                       ep_stores := 0 |});
        ("p2p", {| ep_className := "P2PStorageProvider"; ep_bytes := None;
                   ep_checksumOk := true; ep_metadata := None;
                   ep_storeResult := Some (evalMetadata "id-3" "p2p");
                   ep_stores := 0 |})];
     metadataCache := ∅;
     emitted := [] |}.




(** A manager with the three built-in providers that hold nothing yet;
    [store] succeeds on the local and on the network provider and throws
    on the p2p provider. *)
Definition p2pDownManager : StorageManager (P := EvalProvider) :=
  {| config := evalConfig;
     providers :=
       [("local", {| ep_className := "LocalStorageProvider"; ep_bytes := None;
                     ep_checksumOk := true; ep_metadata := None;
                     ep_storeResult := Some (evalMetadata "id-1" "local");
                     ep_stores := 0 |});
        ("network", {| ep_className := "NetworkStorageProvider"; ep_bytes := None;
                       ep_checksumOk := true; ep_metadata := None;
                       ep_storeResult := Some (evalMetadata "id-2" "network");
                       ep_stores := 0 |});
        ("p2p", {| ep_className := "P2PStorageProvider"; ep_bytes := None;
                   ep_checksumOk := true; ep_metadata := None;
                   ep_storeResult := None; ep_stores := 0 |})];
     metadataCache := ∅;
     emitted := [] |}.

(** The [store] of the provider under "p2p" throws. *)
Definition p2pDown (name : string) (p : EvalProvider) : Prop :=
  name = "p2p" -> ep_storeResult p = None.

(** The table of the node [idZero] with room for one peer in each bucket,
    after the constructor and [addPeer] of [idTop], and the clock that they
    leave. *)
Definition fullBucketTable : KBucket * Clock :=
  match runOps [AddPeer (peerWithId idTop 0)]
          (newKBucket idZero (Some 1) None (evalClock 0)).1
          (newKBucket idZero (Some 1) None (evalClock 0)).2 with
  | Ok tableAndClock => tableAndClock
  | Err _ => (emptyTable, evalClock 0)
  end.

(** * Chunk manager: proofs *)

Section ChunkManagerProofs.
Context `{RT : Runtime}.

Lemma blen_nonneg (b : Buffer) : 0 <= blen b.
Proof. unfold blen. lia. Qed.

Lemma Buffer_slice_inside (data : Buffer) (lo hi : Z) :
  0 <= lo -> lo <= hi -> hi <= blen data ->
  Buffer_slice data lo hi = bytesBetween data lo hi.
Proof.
  intros Hlo Hhi Hlen. unfold Buffer_slice, bytesBetween, clamp_pos.
  destruct (Z.ltb_spec lo 0); [lia|].
  destruct (Z.ltb_spec hi 0); [lia|].
  rewrite !Z.min_l by lia. reflexivity.
Qed.

Lemma bytesBetween_length (data : Buffer) (lo hi : Z) :
  0 <= lo -> lo <= hi -> hi <= blen data ->
  blen (bytesBetween data lo hi) = hi - lo.
Proof.
  intros Hlo Hhi Hlen. unfold bytesBetween, blen in *.
  rewrite length_take, length_drop. lia.
Qed.

Lemma chunkCount_step (n C : Z) :
  0 < C -> C <= n -> chunkCount n C = 1 + chunkCount (n - C) C.
Proof.
  intros HC Hn. unfold chunkCount.
  replace (n + C - 1) with ((n - C + C - 1) + 1 * C) by lia.
  rewrite Z.div_add by lia. lia.
Qed.

Lemma chunkCount_last (n C : Z) :
  0 < n -> n <= C -> chunkCount n C = 1.
Proof.
  intros Hn HC. unfold chunkCount.
  replace (n + C - 1) with ((n - 1) + 1 * C) by lia.
  rewrite Z.div_add by lia. rewrite Z.div_small by lia. lia.
Qed.

Lemma chunkCount_none (n C : Z) :
  0 < C -> n <= 0 -> chunkCount n C <= 0.
Proof.
  intros HC Hn. unfold chunkCount.
  assert ((n + C - 1) / C < 1); [|lia].
  apply Z.div_lt_upper_bound; lia.
Qed.

Lemma chunkCount_bounds (n C : Z) :
  0 < C -> 0 <= n ->
  (chunkCount n C - 1) * C < n <= chunkCount n C * C.
Proof.
  intros HC Hn. unfold chunkCount.
  pose proof (Z.div_mod (n + C - 1) C ltac:(lia)) as Hdm.
  pose proof (Z.mod_pos_bound (n + C - 1) C HC) as Hmod.
  nia.
Qed.

(** The loop of [split] entered at the start of chunk number [k], with a
    clock [clk] that is [clk0] after [k] readings. *)
Lemma split_loop_spec (data : Buffer) (C : Z) (clk0 : Clock) :
  0 < C ->
  forall (fuel k : nat) (chunks : list ChunkInfo) (clk : Clock),
    blen data - Z.of_nat k * C <= Z.of_nat fuel ->
    (forall j, clk j = clk0 (k + j)%nat) ->
    let n := Z.to_nat (chunkCount (blen data - Z.of_nat k * C) C) in
    exists clk',
      split_loop fuel data C (Z.of_nat k) (Z.of_nat k * C) chunks clk
      = Some (chunks ++ map (chunkAt data C clk0) (seq k n), clk')
      /\ forall j, clk' j = clk0 (k + n + j)%nat.
Proof.
  intros HC. induction fuel as [|fuel IH]; intros k chunks clk Hfuel Hclk n.
  - simpl. destruct (Z.ltb_spec (Z.of_nat k * C) (blen data)); [lia|].
    subst n. pose proof (chunkCount_none (blen data - Z.of_nat k * C) C HC ltac:(lia)).
    replace (Z.to_nat _) with O by lia. simpl.
    rewrite app_nil_r. exists clk. split; [reflexivity|].
    intros j. rewrite Hclk. f_equal. lia.
  - simpl. destruct (Z.ltb_spec (Z.of_nat k * C) (blen data)) as [Hlt|Hge].
    + destruct (Z.le_gt_cases C (blen data - Z.of_nat k * C)) as [Hfull|Hpart].
      * (* a full chunk *)
        rewrite Z.min_l by lia.
        specialize (IH (S k) (chunks ++ [chunkAt data C clk0 k]) (fun j => clk (S j))).
        replace (Z.of_nat (S k)) with (Z.of_nat k + 1) in IH by lia.
        replace ((Z.of_nat k + 1) * C) with (Z.of_nat k * C + C) in IH by lia.
        assert (Hd : splitDescriptor (Z.of_nat k) C
                       (calculateChecksum (Buffer_slice data (Z.of_nat k * C) (Z.of_nat k * C + C)))
                       (clk O) = chunkAt data C clk0 k).
        { unfold chunkAt, calculateChecksum. rewrite Hclk, Nat.add_0_r.
          replace ((Z.of_nat k + 1) * C) with (Z.of_nat k * C + C) by lia.
          rewrite Z.min_l by lia.
          rewrite Buffer_slice_inside by lia.
          f_equal. lia. }
        rewrite Hd.
        destruct IH as [clk' [Heq Hclk']]; [lia| |].
        { intros j. rewrite Hclk. f_equal. lia. }
        exists clk'. rewrite Heq.
        subst n. rewrite (chunkCount_step (blen data - Z.of_nat k * C) C) by lia.
        replace (blen data - Z.of_nat k * C - C) with (blen data - (Z.of_nat k * C + C)) in * by lia.
        pose proof (chunkCount_bounds (blen data - (Z.of_nat k * C + C)) C HC) as Hb.
        set (m := chunkCount (blen data - (Z.of_nat k * C + C)) C) in *.
        assert (0 <= m) by nia.
        replace (Z.to_nat (1 + m)) with (S (Z.to_nat m)) by lia.
        split.
        -- simpl seq. simpl map. rewrite <- app_assoc. reflexivity.
        -- intros j. rewrite Hclk'. f_equal. lia.
      * (* the last, shorter chunk *)
        rewrite Z.min_r by lia.
        subst n. rewrite chunkCount_last by lia. simpl.
        replace (Z.of_nat k * C + (blen data - Z.of_nat k * C)) with (blen data) by lia.
        assert (Hend : forall f i cs c, split_loop f data C i (blen data) cs c = Some (cs, c)).
        { intros f i cs c. destruct f; simpl; rewrite Z.ltb_irrefl; reflexivity. }
        rewrite Hend. exists (fun j => clk (S j)). split.
        -- do 3 f_equal. unfold chunkAt, calculateChecksum.
           rewrite Hclk, Nat.add_0_r. rewrite Z.min_r by lia.
           rewrite Buffer_slice_inside by lia. reflexivity.
        -- intros j. rewrite Hclk. f_equal. lia.
    + subst n. pose proof (chunkCount_none (blen data - Z.of_nat k * C) C HC ltac:(lia)).
      replace (Z.to_nat _) with O by lia. simpl.
      rewrite app_nil_r. exists clk. split; [reflexivity|].
      intros j. rewrite Hclk. f_equal. lia.
Qed.

(** With a chunk size of 0 or less the loop of [split] makes no progress
    on a non-empty buffer: no number of iterations is enough. *)
Lemma split_loop_diverges (data : Buffer) (C : Z) :
  C <= 0 ->
  forall (fuel : nat) (index offset : Z) (chunks : list ChunkInfo) (clk : Clock),
    offset < blen data ->
    split_loop fuel data C index offset chunks clk = None.
Proof.
  intros HC. induction fuel as [|fuel IH]; intros index offset chunks clk Hlt; simpl.
  - destruct (Z.ltb_spec offset (blen data)); [reflexivity | lia].
  - destruct (Z.ltb_spec offset (blen data)); [|lia]. apply IH. lia.
Qed.

(** *** The sort of [combine] *)

Lemma insertByIndex_perm p l : insertByIndex p l ≡ₚ p :: l.
Proof.
  induction l as [|q l IH]; simpl; [reflexivity|].
  destruct (_ <=? 0); [reflexivity|].
  rewrite IH. apply Permutation_swap.
Qed.

Lemma sortByIndex_perm l : sortByIndex l ≡ₚ l.
Proof.
  induction l as [|p l IH]; simpl; [reflexivity|].
  rewrite insertByIndex_perm, IH. reflexivity.
Qed.

Lemma insertByIndex_sorted p l :
  StronglySorted indexLe l -> StronglySorted indexLe (insertByIndex p l).
Proof.
  induction 1 as [|q l Hs IH Hq]; simpl.
  - repeat constructor.
  - destruct (Z.leb_spec (chunk_index p.1 - chunk_index q.1) 0) as [Hle|Hgt].
    + constructor; [constructor; assumption|].
      constructor; [unfold indexLe; lia|].
      eapply Forall_impl; [exact Hq|]. unfold indexLe. intros; lia.
    + constructor; [assumption|].
      rewrite insertByIndex_perm. constructor; [unfold indexLe; lia|assumption].
Qed.

Lemma sortByIndex_sorted l : StronglySorted indexLe (sortByIndex l).
Proof.
  induction l as [|p l IH]; simpl; [constructor|].
  apply insertByIndex_sorted, IH.
Qed.

(** The sort is stable: pairs with the same index keep their order. *)
Lemma insertByIndex_stable (z : Z) p l :
  List.filter (fun q => chunk_index q.1 =? z) (insertByIndex p l)
  = List.filter (fun q => chunk_index q.1 =? z) (p :: l).
Proof.
  induction l as [|q l IH]; [reflexivity|].
  simpl insertByIndex.
  destruct (Z.leb_spec (chunk_index p.1 - chunk_index q.1) 0) as [Hle|Hgt]; [reflexivity|].
  simpl in *. rewrite IH.
  destruct (Z.eqb_spec (chunk_index p.1) z), (Z.eqb_spec (chunk_index q.1) z);
    try reflexivity; lia.
Qed.

Lemma sortByIndex_stable (z : Z) l :
  List.filter (fun q => chunk_index q.1 =? z) (sortByIndex l)
  = List.filter (fun q => chunk_index q.1 =? z) l.
Proof.
  induction l as [|p l IH]; [reflexivity|].
  simpl sortByIndex. rewrite insertByIndex_stable. simpl. rewrite IH. reflexivity.
Qed.

(** A list that is already in ascending order is left as it is. *)
Lemma sortByIndex_id l : StronglySorted indexLe l -> sortByIndex l = l.
Proof.
  induction 1 as [|p l Hs IH Hp]; [reflexivity|].
  simpl. rewrite IH. destruct l as [|q l]; [reflexivity|].
  simpl. inversion Hp as [|? ? Hpq _]; subst. unfold indexLe in Hpq.
  destruct (Z.leb_spec (chunk_index p.1 - chunk_index q.1) 0); [reflexivity|lia].
Qed.

(** *** The checks and the copy loop of [combine] *)

Lemma validate_true (chunk : Buffer) (info : ChunkInfo) :
  validate chunk info = true
  <-> blen chunk = chunk_size info /\ sha256_hex chunk = chunk_checksum info.
Proof.
  unfold validate, calculateChecksum.
  destruct (Z.eqb_spec (blen chunk) (chunk_size info)); simpl.
  - rewrite String.eqb_eq. tauto.
  - split; [discriminate|tauto].
Qed.

Lemma find_invalid_none (l : list (ChunkInfo * Buffer)) :
  Forall (fun p => validate p.2 p.1 = true) l ->
  List.find (fun p => negb (validate p.2 p.1)) l = None.
Proof.
  induction 1 as [|p l Hp _ IH]; [reflexivity|].
  simpl. rewrite Hp. exact IH.
Qed.

Lemma find_invalid_some (l : list (ChunkInfo * Buffer)) :
  Exists (fun p => validate p.2 p.1 = false) l ->
  exists p, List.find (fun p => negb (validate p.2 p.1)) l = Some p.
Proof.
  induction 1 as [p l Hp|p l _ IH]; simpl.
  - rewrite Hp. eauto.
  - destruct (validate p.2 p.1); simpl; eauto.
Qed.

Lemma fold_sizes (l : list (ChunkInfo * Buffer)) (acc : Z) :
  fold_left (fun sum p => sum + chunk_size p.1) l acc = acc + totalSize (map fst l).
Proof.
  revert acc. induction l as [|p l IH]; intros acc; simpl.
  - unfold totalSize. simpl. lia.
  - rewrite IH. unfold totalSize. simpl. lia.
Qed.

Lemma totalSize_perm (l1 l2 : list ChunkInfo) :
  l1 ≡ₚ l2 -> totalSize l1 = totalSize l2.
Proof.
  unfold totalSize. induction 1; simpl; lia.
Qed.

Lemma totalSize_valid (l : list (ChunkInfo * Buffer)) :
  Forall (fun p => validate p.2 p.1 = true) l ->
  totalSize (map fst l) = blen (concat (map snd l)).
Proof.
  induction 1 as [|p l Hp _ IH]; [reflexivity|].
  apply validate_true in Hp as [Hlen _].
  unfold totalSize, blen in *. simpl. rewrite length_app. simpl in IH. lia.
Qed.

Lemma Buffer_copy_fits (src target : Buffer) (offset : nat) :
  (offset + length src <= length target)%nat ->
  Buffer_copy src target offset
  = take offset target ++ src ++ drop (offset + length src) target.
Proof.
  intros Hfit. unfold Buffer_copy. rewrite (take_ge src) by lia. reflexivity.
Qed.

Lemma copy_loop (l : list (ChunkInfo * Buffer)) :
  forall (result : Buffer) (offset : nat),
    (offset + length (concat (map snd l)) = length result)%nat ->
    (fold_left copyStep l (result, offset)).1 = take offset result ++ concat (map snd l).
Proof.
  induction l as [|p l IH]; intros result offset Hlen; simpl in *.
  - rewrite app_nil_r. rewrite take_ge by lia. reflexivity.
  - rewrite length_app in Hlen. unfold copyStep at 2. simpl.
    rewrite Buffer_copy_fits by lia.
    rewrite IH.
    + rewrite app_assoc. rewrite take_app_length'.
      * rewrite <- app_assoc. reflexivity.
      * rewrite length_app, length_take. lia.
    + rewrite !length_app, length_take, length_drop. lia.
Qed.

Lemma Buffer_allocUnsafe_length (n : Z) :
  length (Buffer_allocUnsafe n) = Z.to_nat n.
Proof. unfold Buffer_allocUnsafe. rewrite length_map, length_seq. reflexivity. Qed.

(** [combine] on chunks that all pass [validate]. *)
Lemma combine_valid (chunks : list Buffer) (info : list ChunkInfo) :
  length chunks = length info ->
  Forall (fun p => validate p.2 p.1 = true) (pairUp chunks info) ->
  combine chunks info = Ok (concat (map snd (sortByIndex (pairUp chunks info)))).
Proof.
  intros Hlen Hall. unfold combine.
  rewrite Hlen, Nat.eqb_refl. simpl.
  assert (Hsorted : Forall (fun p => validate p.2 p.1 = true)
                      (sortByIndex (pairUp chunks info))).
  { rewrite sortByIndex_perm. exact Hall. }
  rewrite find_invalid_none by exact Hsorted.
  rewrite fold_sizes, Z.add_0_l.
  rewrite copy_loop.
  - reflexivity.
  - rewrite Buffer_allocUnsafe_length, totalSize_valid by exact Hsorted.
    unfold blen. lia.
Qed.

(** [combine] when some chunk fails [validate]. *)
Lemma combine_invalid (chunks : list Buffer) (info : list ChunkInfo) :
  length chunks = length info ->
  Exists (fun p => validate p.2 p.1 = false) (pairUp chunks info) ->
  exists k, combine chunks info
            = Err (StorageError "Chunk validation failed" "CHUNK_VALIDATION_ERROR" k).
Proof.
  intros Hlen Hex. unfold combine.
  rewrite Hlen, Nat.eqb_refl. simpl.
  destruct (find_invalid_some (sortByIndex (pairUp chunks info))) as [p Hp].
  { rewrite sortByIndex_perm. exact Hex. }
  rewrite Hp. eauto.
Qed.

(** *** [split] followed by [combine] *)

Lemma split_result (self : DefaultChunkManager) (data : Buffer) (C : Z)
    (fuel : nat) (clk : Clock) :
  0 < C -> (length data <= fuel)%nat ->
  exists clk',
    split fuel self data (Some C) clk
    = Some (map (chunkAt data C clk) (seq 0 (Z.to_nat (chunkCount (blen data) C))), clk').
Proof.
  intros HC Hfuel. unfold split. simpl.
  destruct (split_loop_spec data C clk HC fuel O [] clk) as [clk' [Heq _]].
  - unfold blen. lia.
  - reflexivity.
  - exists clk'. simpl in Heq. rewrite Z.sub_0_r in Heq. exact Heq.
Qed.

Lemma concat_ranges (data : Buffer) (C : Z) (n : nat) :
  0 < C ->
  concat (map (chunkRange data C) (seq 0 n))
  = take (Z.to_nat (Z.min (Z.of_nat n * C) (blen data))) data.
Proof.
  intros HC. induction n as [|n IH].
  - simpl. rewrite Z.min_l by apply blen_nonneg. reflexivity.
  - rewrite seq_S, map_app, concat_app, IH. simpl. rewrite app_nil_r.
    unfold chunkRange, bytesBetween.
    replace (Z.of_nat (S n)) with (Z.of_nat n + 1) by lia.
    destruct (Z.le_gt_cases (Z.of_nat n * C) (blen data)) as [Hle|Hgt].
    + rewrite (Z.min_l (Z.of_nat n * C)) by lia.
      rewrite take_take_drop. f_equal. lia.
    + rewrite !Z.min_r by lia.
      replace (Z.to_nat (blen data - Z.of_nat n * C)) with O by lia.
      simpl. apply app_nil_r.
Qed.

Lemma chunkBytes_split (data : Buffer) (C : Z) (clk : Clock) (n : nat) :
  0 < C ->
  chunkBytes data C (map (chunkAt data C clk) (seq 0 n)) = map (chunkRange data C) (seq 0 n).
Proof.
  intros HC. unfold chunkBytes. apply list_eq. intros i.
  rewrite list_lookup_imap, !list_lookup_fmap.
  destruct (seq 0 n !! i) as [j|] eqn:Hj; [|reflexivity].
  apply lookup_seq in Hj as [-> _]. simpl. f_equal.
  unfold chunkRange.
  pose proof (blen_nonneg data).
  replace (Z.of_nat i * C + (Z.min ((Z.of_nat i + 1) * C) (blen data) - Z.of_nat i * C))
    with (Z.min ((Z.of_nat i + 1) * C) (blen data)) by lia.
  destruct (Z.le_gt_cases (Z.of_nat i * C) (blen data)) as [Hle|Hgt].
  - apply Buffer_slice_inside; nia.
  - (* past the end of the data: both are empty *)
    unfold Buffer_slice, bytesBetween, clamp_pos.
    destruct (Z.ltb_spec (Z.of_nat i * C) 0); [nia|].
    destruct (Z.ltb_spec (Z.min ((Z.of_nat i + 1) * C) (blen data)) 0); [nia|].
    replace (Z.to_nat (Z.min (Z.min ((Z.of_nat i + 1) * C) (blen data)) (blen data)
                       - Z.min (Z.of_nat i * C) (blen data))) with O by nia.
    replace (Z.to_nat (Z.min ((Z.of_nat i + 1) * C) (blen data) - Z.of_nat i * C))
      with O by nia.
    reflexivity.
Qed.

Lemma zip_map_map {A B D} (f : D -> A) (g : D -> B) (l : list D) :
  zip (map f l) (map g l) = map (fun i => (f i, g i)) l.
Proof. induction l as [|x l IH]; simpl; [reflexivity|]. rewrite <- IH. reflexivity. Qed.

Lemma StronglySorted_map_seq {A} (R : A -> A -> Prop) (h : nat -> A) :
  (forall i j : nat, (i <= j)%nat -> R (h i) (h j)) ->
  forall n k, StronglySorted R (map h (seq k n)).
Proof.
  intros Hmono. induction n as [|n IH]; intros k; simpl; constructor.
  - apply IH.
  - apply Forall_forall. intros x Hx.
    apply list_elem_of_fmap in Hx as [j [-> Hj]].
    apply elem_of_seq in Hj. apply Hmono. lia.
Qed.

Lemma split_pairs_valid (data : Buffer) (C : Z) (clk : Clock) (n : nat) :
  0 < C -> Z.of_nat n = chunkCount (blen data) C ->
  Forall (fun p => validate p.2 p.1 = true)
    (map (fun i => (chunkAt data C clk i, chunkRange data C i)) (seq 0 n)).
Proof.
  intros HC Hn. apply Forall_forall. intros p Hp.
  apply list_elem_of_fmap in Hp as [i [-> Hi]]. apply elem_of_seq in Hi.
  simpl. apply validate_true. unfold chunkAt, chunkRange. simpl.
  pose proof (chunkCount_bounds (blen data) C HC (blen_nonneg data)).
  split; [|reflexivity].
  apply bytesBetween_length; nia.
Qed.

(** C6. For a buffer of [N] bytes and a chunk size [C > 0], [split] returns
    [ceil(N / C)] descriptors; descriptor number [i] has index [i], covers the
    bytes from [i * C] to [min ((i + 1) * C) N], has that range's length as
    its size and the SHA-256 hex digest of those bytes as its checksum; every
    size is at most [C], and the empty buffer gives no descriptor. The loop
    needs no more iterations than there are bytes. *)
Theorem split_descriptors (self : DefaultChunkManager) (data : Buffer) (C : Z)
    (fuel : nat) (clk : Clock) :
  0 < C -> (length data <= fuel)%nat ->
  exists chunks clk',
    split fuel self data (Some C) clk = Some (chunks, clk')
    /\ Z.of_nat (length chunks) = chunkCount (blen data) C
    /\ (chunkCount (blen data) C - 1) * C < blen data <= chunkCount (blen data) C * C
    /\ (forall (i : nat) (c : ChunkInfo), chunks !! i = Some c ->
          let lo := Z.of_nat i * C in
          let hi := Z.min ((Z.of_nat i + 1) * C) (blen data) in
          chunk_index c = Z.of_nat i
          /\ 0 <= lo < hi
          /\ chunk_size c = hi - lo
          /\ chunk_size c = blen (bytesBetween data lo hi)
          /\ chunk_checksum c = sha256_hex (bytesBetween data lo hi)
          /\ chunk_size c <= C)
    /\ (data = [] -> chunks = []).
Proof.
  intros HC Hfuel.
  destruct (split_result self data C fuel clk HC Hfuel) as [clk' Heq].
  pose proof (chunkCount_bounds (blen data) C HC (blen_nonneg data)) as Hb.
  pose proof (blen_nonneg data) as Hpos.
  assert (Hn : 0 <= chunkCount (blen data) C) by nia.
  eexists _, clk'. split; [exact Heq|].
  split; [rewrite length_map, length_seq; lia|].
  split; [exact Hb|].
  split.
  - intros i c Hi lo hi.
    rewrite list_lookup_fmap in Hi.
    destruct (seq 0 _ !! i) as [j|] eqn:Hj; [|discriminate].
    apply lookup_seq in Hj as [-> Hlt]. simpl in Hi. injection Hi as <-.
    unfold chunkAt. simpl. fold lo hi.
    assert (0 <= lo < hi) by (subst lo hi; nia).
    rewrite bytesBetween_length by (subst lo hi; nia).
    repeat split; try lia.
  - intros ->. unfold chunkCount, blen. simpl.
    replace (0 + C - 1) with (C - 1) by lia.
    rewrite Z.div_small by lia. reflexivity.
Qed.

(** C1. For a buffer [x] and a chunk size [C] with [1 <= C <= |x|], the
    chunks cut from [x] for the descriptors that [split] returns, combined
    with these descriptors, give back [x]. *)
Theorem combine_split_roundtrip (self : DefaultChunkManager) (x : Buffer) (C : Z)
    (fuel : nat) (clk : Clock) :
  1 <= C <= blen x -> (length x <= fuel)%nat ->
  exists info clk',
    split fuel self x (Some C) clk = Some (info, clk')
    /\ combine (chunkBytes x C info) info = Ok x.
Proof.
  intros [HC1 HC2] Hfuel. assert (HC : 0 < C) by lia.
  destruct (split_result self x C fuel clk HC Hfuel) as [clk' Heq].
  pose proof (chunkCount_bounds (blen x) C HC (blen_nonneg x)) as Hb.
  assert (Hcc : 0 <= chunkCount (blen x) C) by nia.
  set (n := Z.to_nat (chunkCount (blen x) C)) in *.
  assert (Hn : Z.of_nat n = chunkCount (blen x) C) by (subst n; lia).
  eexists _, clk'. split; [exact Heq|].
  rewrite chunkBytes_split by exact HC.
  rewrite combine_valid.
  - unfold pairUp. rewrite zip_map_map.
    rewrite sortByIndex_id.
    + rewrite map_map. simpl. rewrite concat_ranges by exact HC.
      rewrite Hn. rewrite Z.min_r by lia. f_equal. apply take_ge. unfold blen. lia.
    + apply StronglySorted_map_seq. intros i j Hij.
      unfold indexLe, chunkAt. simpl. lia.
  - rewrite !length_map. reflexivity.
  - unfold pairUp. rewrite zip_map_map. apply split_pairs_valid; assumption.
Qed.

(** C3. For chunks paired with descriptors: if some chunk's length differs
    from its descriptor's size, or its SHA-256 differs from its descriptor's
    checksum, [combine] throws CHUNK_VALIDATION_ERROR and returns no data;
    otherwise it returns the concatenation of the chunks in ascending order
    of descriptor index (chunks with the same index in their order of
    arrival), and the length of the result is the sum of the descriptor
    sizes. *)
Theorem combine_validates_sorts_concatenates (chunks : list Buffer) (info : list ChunkInfo) :
  length chunks = length info ->
  (Exists (fun p => blen p.2 <> chunk_size p.1 \/ sha256_hex p.2 <> chunk_checksum p.1)
     (zip info chunks) ->
   exists k, combine chunks info
             = Err (StorageError "Chunk validation failed" "CHUNK_VALIDATION_ERROR" k))
  /\ (Forall (fun p => blen p.2 = chunk_size p.1 /\ sha256_hex p.2 = chunk_checksum p.1)
        (zip info chunks) ->
      exists sorted,
        sorted ≡ₚ zip info chunks
        /\ StronglySorted indexLe sorted
        /\ (forall z, List.filter (fun q => chunk_index q.1 =? z) sorted
                      = List.filter (fun q => chunk_index q.1 =? z) (zip info chunks))
        /\ combine chunks info = Ok (concat (map snd sorted))
        /\ blen (concat (map snd sorted)) = totalSize info).
Proof.
  intros Hlen. split.
  - intros Hex. apply combine_invalid; [exact Hlen|].
    unfold pairUp. eapply Exists_impl; [exact Hex|].
    intros p Hp. simpl in Hp.
    destruct (validate p.2 p.1) eqn:Hv; [|reflexivity].
    apply validate_true in Hv. tauto.
  - intros Hall.
    assert (Hvalid : Forall (fun p => validate p.2 p.1 = true) (pairUp chunks info)).
    { unfold pairUp. eapply Forall_impl; [exact Hall|].
      intros p Hp. apply validate_true. exact Hp. }
    exists (sortByIndex (pairUp chunks info)).
    split; [apply sortByIndex_perm|].
    split; [apply sortByIndex_sorted|].
    split; [intros z; apply sortByIndex_stable|].
    split; [apply combine_valid; assumption|].
    rewrite <- totalSize_valid.
    + rewrite (totalSize_perm _ (map fst (pairUp chunks info))).
      * unfold pairUp. change (map fst (zip info chunks)) with ((zip info chunks).*1).
        rewrite fst_zip by lia. reflexivity.
      * apply Permutation_map, sortByIndex_perm.
    + rewrite sortByIndex_perm. exact Hvalid.
Qed.

End ChunkManagerProofs.

Lemma split_descriptors_witness :
  exists chunks clk',
    split (RT := evalRuntime) 3 (newDefaultChunkManager None) [x01; x02; x03] (Some 2) (evalClock 0)
    = Some (chunks, clk')
    /\ Z.of_nat (length chunks) = chunkCount 3 2.
Proof.
  destruct (split_descriptors (RT := evalRuntime) (newDefaultChunkManager None)
              [x01; x02; x03] 2 3 (evalClock 0))
    as [chunks [clk' [Heq [Hlen _]]]]; [lia | simpl; lia |].
  exists chunks, clk'. split; [exact Heq | exact Hlen].
Defined.

Lemma combine_split_roundtrip_witness :
  exists info clk',
    split (RT := evalRuntime) 5 (newDefaultChunkManager None) [x68; x65; x6c; x6c; x6f] (Some 2) (evalClock 0)
    = Some (info, clk')
    /\ combine (RT := evalRuntime) (chunkBytes [x68; x65; x6c; x6c; x6f] 2 info) info
       = Ok [x68; x65; x6c; x6c; x6f].
Proof.
  apply (combine_split_roundtrip (RT := evalRuntime)); [unfold blen; simpl; lia | simpl; lia].
Defined.

Lemma combine_validates_sorts_concatenates_witness :
  let chunks := [[x03]; [x01; x02]] in
  let info := [splitDescriptor 1 1 (String "003" "") 0;
               splitDescriptor 0 2 (String "001" (String "002" "")) 0] in
  combine (RT := evalRuntime) chunks info = Ok [x01; x02; x03]
  /\ exists sorted,
        sorted ≡ₚ zip info chunks
        /\ StronglySorted indexLe sorted
        /\ combine (RT := evalRuntime) chunks info = Ok (concat (map snd sorted)).
Proof.
  intros chunks info. split; [reflexivity|].
  destruct (combine_validates_sorts_concatenates (RT := evalRuntime) chunks info eq_refl)
    as [_ Hok].
  destruct Hok as [sorted [Hp [Hs [_ [Hc _]]]]].
  - repeat constructor.
  - exists sorted. split; [exact Hp|]. split; [exact Hs| exact Hc].
Defined.

(** * Wire validation: proofs *)

Lemma is_lower_hex_digit_spec (c : ascii) :
  is_lower_hex_digit c = true <-> lowerHexDigit c.
Proof.
  unfold lowerHexDigit. split.
  - destruct c as [[] [] [] [] [] [] [] []]; vm_compute; intros Hc;
      try discriminate Hc; clear Hc;
      repeat (first [apply list_elem_of_here | apply list_elem_of_further]).
  - intros Hc. simpl in Hc.
    repeat (apply elem_of_cons in Hc as [->|Hc]; [reflexivity|]).
    apply elem_of_nil in Hc. destruct Hc.
Qed.

Lemma test_key_format_spec (s : string) :
  test_key_format s = true <-> isKey64 s.
Proof.
  unfold test_key_format, isKey64.
  rewrite andb_true_iff, Nat.eqb_eq, forallb_forall, Forall_forall.
  split; intros [Hlen Hall]; (split; [exact Hlen|]); intros c Hc.
  - apply is_lower_hex_digit_spec, Hall. apply list_elem_of_In. exact Hc.
  - apply is_lower_hex_digit_spec, Hall. apply list_elem_of_In. exact Hc.
Qed.

(** C7, as stated, fails: a message whose [payload.key] is there but empty
    is not a string of 64 lower-case hex characters, and it is accepted. *)
Lemma validateMessage_accepts_empty_key :
  payload_key (msg_payload (pingMessage (Some "") 1000)) = Some ""
  /\ ~ isKey64 ""
  /\ (validateMessage (pingMessage (Some "") 1000) (evalClock 1000)).1 = true.
Proof.
  split; [reflexivity|]. split; [|reflexivity].
  intros [Hlen _]. discriminate Hlen.
Qed.

(** C7, amended. [validateMessage] returns false when [dhtType] is missing,
    when [payload.sender] is missing, when [payload.key] is a non-empty
    string that is not exactly 64 lower-case hex characters, and when the
    clock reading and [payload.timestamp] differ by more than 5 minutes. *)
Theorem validateMessage_rejects (m : DHTMessage) (clk : Clock) :
  msg_dhtType m = None
  \/ payload_sender (msg_payload m) = None
  \/ (exists k, payload_key (msg_payload m) = Some k /\ k <> "" /\ ~ isKey64 k)
  \/ Z.abs (clk O - payload_timestamp (msg_payload m)) > 5 * 60 * 1000 ->
  (validateMessage m clk).1 = false.
Proof.
  intros Hbad. unfold validateMessage.
  destruct (falsy (msg_dhtType m) || falsy (payload_sender (msg_payload m))
            || falsy (msg_protocol m) || falsy (msg_version m)) eqn:Hfields;
    [reflexivity|].
  repeat (apply orb_false_elim in Hfields as [Hfields ?]).
  destruct (negb (falsy (payload_key (msg_payload m)))
            && negb (test_key_format (default "" (payload_key (msg_payload m)))))
    eqn:Hkey; [reflexivity|].
  simpl.
  destruct (Z.gtb_spec (Z.abs (clk O - payload_timestamp (msg_payload m))) MAX_TIME_DIFF)
    as [Hlate|Hintime]; [reflexivity|].
  exfalso. destruct Hbad as [Hd|[Hs|[[k [Hk [Hne Hfmt]]]|Ht]]].
  - rewrite Hd in Hfields. discriminate.
  - rewrite Hs in *. discriminate.
  - rewrite Hk in Hkey. simpl in Hkey.
    destruct (String.eqb_spec k ""); [contradiction|].
    destruct (test_key_format k) eqn:Hfmt'; [|discriminate].
    apply test_key_format_spec in Hfmt'. contradiction.
  - unfold MAX_TIME_DIFF in Hintime. lia.
Qed.

Lemma validateMessage_rejects_witness :
  (validateMessage (pingMessage None 0) (evalClock 600000)).1 = false.
Proof.
  apply validateMessage_rejects. right. right. right.
  unfold evalClock. simpl. lia.
Defined.

(** * XOR metric and bucket index: proofs *)

Lemma byteZ_range (x : byte) : 0 <= byteZ x < 256.
Proof. unfold byteZ. pose proof (Byte.to_N_bounded x). lia. Qed.

Lemma byteZ_byte_of_Z (z : Z) : 0 <= z < 256 -> byteZ (byte_of_Z z) = z.
Proof.
  intros Hz. unfold byteZ, byte_of_Z. rewrite Z.mod_small by lia.
  destruct (Byte.of_N (Z.to_N z)) as [x|] eqn:Hx; simpl.
  - apply Byte.to_of_N in Hx. lia.
  - apply Byte.of_N_None_iff in Hx. lia.
Qed.

Lemma byteZ_inj (x y : byte) : byteZ x = byteZ y -> x = y.
Proof.
  unfold byteZ. intros Hxy. apply N2Z.inj in Hxy.
  pose proof (Byte.of_to_N x) as Hx. rewrite Hxy, Byte.of_to_N in Hx.
  congruence.
Qed.

Lemma distance_bytes (keyA keyB : string) :
  distance keyA keyB
  = map (fun i => byte_of_Z (Z.lxor (Buffer_operand (Buffer_from_hex keyA) i)
                                    (Buffer_operand (Buffer_from_hex keyB) i)))
      (seq 0 KEY_SIZE).
Proof. reflexivity. Qed.

Lemma firstSetBit_byte (x : byte) :
  byteZ x <> 0 -> firstSetBit (byteZ x) = Some (7 - Z.log2 (byteZ x)).
Proof. destruct x; vm_compute; intros Hx; first [reflexivity | contradiction]. Qed.

Lemma beValue_range (l : Buffer) : 0 <= beValue l < 256 ^ Z.of_nat (length l).
Proof.
  induction l as [|x l IH]; simpl beValue; simpl length.
  - simpl. lia.
  - pose proof (byteZ_range x) as Hx.
    rewrite Nat2Z.inj_succ, Z.pow_succ_r by lia.
    assert (0 < 256 ^ Z.of_nat (length l)) by (apply Z.pow_pos_nonneg; lia).
    nia.
Qed.

(** The bits of [x * 2^k + r] are those of [r] below [k] and those of [x]
    from [k] on. *)
Lemma testbit_cat (x r k n : Z) :
  0 <= k -> 0 <= r < 2 ^ k -> 0 <= n ->
  Z.testbit (x * 2 ^ k + r) n = if n <? k then Z.testbit r n else Z.testbit x (n - k).
Proof.
  intros Hk Hr Hn.
  assert (Hpos : 0 < 2 ^ k) by (apply Z.pow_pos_nonneg; lia).
  destruct (Z.ltb_spec n k) as [Hlt|Hge].
  - rewrite <- (Z.mod_pow2_bits_low (x * 2 ^ k + r) k n) by lia.
    rewrite Z.add_comm, Z.mod_add by lia.
    rewrite Z.mod_small by lia. reflexivity.
  - replace n with ((n - k) + k) at 1 by lia.
    rewrite <- Z.div_pow2_bits by lia.
    rewrite Z.add_comm, Z.div_add by lia.
    rewrite Z.div_small by lia. reflexivity.
Qed.

Lemma lxor_range (r s k : Z) :
  0 <= k -> 0 <= r < 2 ^ k -> 0 <= s < 2 ^ k -> 0 <= Z.lxor r s < 2 ^ k.
Proof.
  intros Hk Hr Hs.
  assert (Hnn : 0 <= Z.lxor r s) by (apply Z.lxor_nonneg; lia).
  split; [exact Hnn|].
  destruct (Z.eq_dec (Z.lxor r s) 0) as [->|Hnz]; [lia|].
  destruct (Z.eq_dec k 0) as [->|Hk0].
  { simpl in *. assert (r = 0) by lia. assert (s = 0) by lia. subst. contradiction. }
  apply Z.log2_lt_pow2; [lia|].
  pose proof (Z.log2_lxor r s ltac:(lia) ltac:(lia)) as Hlog.
  assert (Hr' : Z.log2 r < k).
  { destruct (Z.eq_dec r 0) as [->|]; [simpl; lia|]. apply Z.log2_lt_pow2; lia. }
  assert (Hs' : Z.log2 s < k).
  { destruct (Z.eq_dec s 0) as [->|]; [simpl; lia|]. apply Z.log2_lt_pow2; lia. }
  lia.
Qed.

Lemma lxor_cat (x y r s k : Z) :
  0 <= k -> 0 <= r < 2 ^ k -> 0 <= s < 2 ^ k ->
  Z.lxor (x * 2 ^ k + r) (y * 2 ^ k + s) = Z.lxor x y * 2 ^ k + Z.lxor r s.
Proof.
  intros Hk Hr Hs. apply Z.bits_inj'. intros n Hn.
  rewrite Z.lxor_spec, !testbit_cat by (try apply lxor_range; lia).
  destruct (n <? k); rewrite Z.lxor_spec; reflexivity.
Qed.

Lemma log2_cat (b r k : Z) :
  0 < b -> 0 <= k -> 0 <= r < 2 ^ k -> Z.log2 (b * 2 ^ k + r) = Z.log2 b + k.
Proof.
  intros Hb Hk Hr.
  pose proof (Z.log2_spec b Hb) as [Hlo Hhi].
  pose proof (Z.log2_nonneg b) as Hnn.
  apply Z.log2_unique; [lia|].
  rewrite <- Z.add_succ_l, !Z.pow_add_r by lia.
  assert (0 < 2 ^ k) by (apply Z.pow_pos_nonneg; lia).
  nia.
Qed.

Lemma pow256 (n : Z) : 0 <= n -> 256 ^ n = 2 ^ (8 * n).
Proof. intros Hn. rewrite Z.pow_mul_r by lia. reflexivity. Qed.

(** The loops of [getBucketIndex] on a non-zero buffer: the position, from
    the first bit of the buffer, of the first bit that is set. *)
Lemma bucketIndex_from_spec (l : Buffer) :
  forall i, beValue l <> 0 ->
    bucketIndex_from l i
    = Some (i * 8 + (8 * Z.of_nat (length l) - 1 - Z.log2 (beValue l))).
Proof.
  induction l as [|x l IH]; intros i Hnz; [contradiction|].
  simpl bucketIndex_from. simpl beValue in *. simpl length.
  pose proof (byteZ_range x) as Hx.
  pose proof (beValue_range l) as Hl.
  rewrite pow256 in * by lia.
  destruct (Z.eqb_spec (byteZ x) 0) as [Hzero|Hnonzero]; simpl.
  - rewrite Hzero in *. rewrite Z.mul_0_l, Z.add_0_l in *.
    rewrite IH by exact Hnz. f_equal. lia.
  - rewrite firstSetBit_byte by exact Hnonzero.
    rewrite log2_cat by lia. f_equal. lia.
Qed.

Lemma bucketIndex_from_zero (l : Buffer) :
  forall i, beValue l = 0 -> bucketIndex_from l i = None.
Proof.
  induction l as [|x l IH]; intros i Hz; [reflexivity|].
  simpl in *. pose proof (byteZ_range x) as Hx. pose proof (beValue_range l) as Hl.
  assert (0 < 256 ^ Z.of_nat (length l)) by (apply Z.pow_pos_nonneg; lia).
  assert (byteZ x = 0) by nia.
  assert (beValue l = 0) by nia.
  destruct (Z.eqb_spec (byteZ x) 0); [|contradiction]. simpl. apply IH. assumption.
Qed.

(** *** Ids in wire form *)

Lemma unhex_range (c : ascii) : 0 <= default 0 (unhex c) < 16.
Proof. destruct c as [[] [] [] [] [] [] [] []]; vm_compute; split; congruence. Qed.

Lemma unhex_lower (c : ascii) :
  lowerHexDigit c -> unhex c = Some (default 0 (unhex c)).
Proof.
  unfold lowerHexDigit. simpl. intros Hc.
  repeat (apply elem_of_cons in Hc as [->|Hc]; [reflexivity|]).
  apply elem_of_nil in Hc. destruct Hc.
Qed.

Lemma unhex_lower_inj (c c' : ascii) :
  lowerHexDigit c -> lowerHexDigit c' -> default 0 (unhex c) = default 0 (unhex c') -> c = c'.
Proof.
  unfold lowerHexDigit. simpl. intros Hc Hc'.
  repeat (apply elem_of_cons in Hc as [->|Hc];
          [repeat (apply elem_of_cons in Hc' as [->|Hc'];
                   [vm_compute; intros Heq; first [reflexivity | discriminate Heq]|]);
           apply elem_of_nil in Hc'; destruct Hc'|]).
  apply elem_of_nil in Hc. destruct Hc.
Qed.

Lemma hexValue_range (s : string) : 0 <= hexValue s < 16 ^ Z.of_nat (String.length s).
Proof.
  induction s as [|c s IH]; simpl hexValue; simpl String.length.
  - simpl. lia.
  - pose proof (unhex_range c) as Hc.
    rewrite Nat2Z.inj_succ, Z.pow_succ_r by lia.
    assert (0 < 16 ^ Z.of_nat (String.length s)) by (apply Z.pow_pos_nonneg; lia).
    nia.
Qed.

(** Two different strings of lower-case hex digits of the same length
    denote different numbers. *)
Lemma hexValue_inj (s : string) :
  forall t, String.length s = String.length t ->
    Forall lowerHexDigit (list_ascii_of_string s) ->
    Forall lowerHexDigit (list_ascii_of_string t) ->
    hexValue s = hexValue t -> s = t.
Proof.
  induction s as [|c s IH]; intros [|c' t] Hlen Hs Ht Hval;
    try discriminate Hlen; [reflexivity|].
  simpl in Hlen, Hs, Ht, Hval. injection Hlen as Hlen.
  apply Forall_cons in Hs as [Hc Hs]. apply Forall_cons in Ht as [Hc' Ht].
  pose proof (hexValue_range s) as Hrs. pose proof (hexValue_range t) as Hrt.
  pose proof (unhex_range c) as Hdc. pose proof (unhex_range c') as Hdc'.
  rewrite <- Hlen in *.
  assert (0 < 16 ^ Z.of_nat (String.length s)) by (apply Z.pow_pos_nonneg; lia).
  assert (Hd : default 0 (unhex c) = default 0 (unhex c')) by nia.
  rewrite Hd in Hval.
  f_equal.
  - apply unhex_lower_inj; assumption.
  - apply IH; [exact Hlen | assumption | assumption | lia].
Qed.

(** Decoding a string of [2 * n] lower-case hex digits gives [n] bytes that
    denote the same number. *)
Lemma Buffer_from_hex_lower (n : nat) :
  forall s, String.length s = (2 * n)%nat ->
    Forall lowerHexDigit (list_ascii_of_string s) ->
    length (Buffer_from_hex s) = n /\ beValue (Buffer_from_hex s) = hexValue s.
Proof.
  induction n as [|n IH]; intros s Hlen Hs.
  - destruct s; [split; reflexivity | discriminate Hlen].
  - destruct s as [|a [|b rest]]; try (simpl in Hlen; lia).
    simpl in Hlen. assert (Hlen' : String.length rest = (2 * n)%nat) by lia.
    simpl in Hs. apply Forall_cons in Hs as [Ha Hs]. apply Forall_cons in Hs as [Hb Hs].
    destruct (IH rest Hlen' Hs) as [IHlen IHval].
    simpl Buffer_from_hex. rewrite (unhex_lower a Ha), (unhex_lower b Hb).
    pose proof (unhex_range a) as Hra. pose proof (unhex_range b) as Hrb.
    split; [simpl; rewrite IHlen; reflexivity|].
    simpl beValue. rewrite byteZ_byte_of_Z by lia.
    rewrite IHlen, IHval. simpl hexValue. simpl String.length. rewrite Hlen'.
    replace (Z.of_nat (S (2 * n))) with (Z.succ (Z.of_nat (2 * n))) by lia.
    rewrite Z.pow_succ_r by lia.
    replace (Z.of_nat (2 * n)) with (2 * Z.of_nat n) by lia.
    rewrite (Z.pow_mul_r 16 2) by lia. change (16 ^ 2) with 256. ring.
Qed.

Lemma Buffer_from_hex_key (id : string) :
  isKey64 id ->
  length (Buffer_from_hex id) = 32%nat /\ beValue (Buffer_from_hex id) = hexValue id.
Proof. intros [Hlen Hall]. apply Buffer_from_hex_lower; [rewrite Hlen; reflexivity | exact Hall]. Qed.

(** *** The distance denotes the XOR of the two ids *)

Lemma beValue_xor (a : Buffer) :
  forall b, length a = length b ->
    beValue (zip_with (fun x y => byte_of_Z (Z.lxor (byteZ x) (byteZ y))) a b)
    = Z.lxor (beValue a) (beValue b).
Proof.
  induction a as [|x a IH]; intros [|y b] Hlen; try discriminate Hlen; [reflexivity|].
  simpl in Hlen. injection Hlen as Hlen.
  simpl zip_with. simpl beValue.
  pose proof (byteZ_range x) as Hx. pose proof (byteZ_range y) as Hy.
  pose proof (beValue_range a) as Ha. pose proof (beValue_range b) as Hb.
  rewrite length_zip_with, <- Hlen, Nat.min_id, IH by exact Hlen.
  rewrite <- Hlen in *.
  rewrite byteZ_byte_of_Z by (apply (lxor_range _ _ 8); lia).
  rewrite pow256 in * by lia.
  rewrite lxor_cat by lia. reflexivity.
Qed.

Lemma distance_zip (keyA keyB : string) :
  length (Buffer_from_hex keyA) = KEY_SIZE -> length (Buffer_from_hex keyB) = KEY_SIZE ->
  distance keyA keyB
  = zip_with (fun x y => byte_of_Z (Z.lxor (byteZ x) (byteZ y)))
      (Buffer_from_hex keyA) (Buffer_from_hex keyB).
Proof.
  intros HA HB. rewrite distance_bytes. apply list_eq. intros i.
  rewrite list_lookup_fmap, lookup_zip_with.
  destruct (decide (i < KEY_SIZE)%nat) as [Hi|Hi].
  - rewrite lookup_seq_lt by exact Hi.
    destruct (lookup_lt_is_Some_2 (Buffer_from_hex keyA) i ltac:(lia)) as [x Hx].
    destruct (lookup_lt_is_Some_2 (Buffer_from_hex keyB) i ltac:(lia)) as [y Hy].
    assert (HopA : Buffer_operand (Buffer_from_hex keyA) i = byteZ x)
      by (unfold Buffer_operand; rewrite Hx; reflexivity).
    assert (HopB : Buffer_operand (Buffer_from_hex keyB) i = byteZ y)
      by (unfold Buffer_operand; rewrite Hy; reflexivity).
    rewrite Hx, Hy.
    change (Some (byte_of_Z (Z.lxor (Buffer_operand (Buffer_from_hex keyA) i)
                                    (Buffer_operand (Buffer_from_hex keyB) i)))
            = Some (byte_of_Z (Z.lxor (byteZ x) (byteZ y)))).
    rewrite HopA, HopB. reflexivity.
  - rewrite lookup_seq_ge by lia.
    rewrite (lookup_ge_None_2 (Buffer_from_hex keyA)) by lia. reflexivity.
Qed.

Lemma distance_length (keyA keyB : string) : length (distance keyA keyB) = KEY_SIZE.
Proof. rewrite distance_bytes, length_map, length_seq. reflexivity. Qed.

Lemma distance_value (keyA keyB : string) :
  isKey64 keyA -> isKey64 keyB ->
  beValue (distance keyA keyB) = Z.lxor (hexValue keyA) (hexValue keyB).
Proof.
  intros HA HB.
  destruct (Buffer_from_hex_key keyA HA) as [HlenA HvalA].
  destruct (Buffer_from_hex_key keyB HB) as [HlenB HvalB].
  rewrite distance_zip by assumption.
  rewrite beValue_xor by congruence.
  rewrite HvalA, HvalB. reflexivity.
Qed.

(** *** The bucket index *)

Lemma getBucketIndex_value (self : KBucket) (peerId : string) :
  isKey64 (nodeId self) -> isKey64 peerId -> nodeId self <> peerId ->
  let d := Z.lxor (hexValue (nodeId self)) (hexValue peerId) in
  0 < d < 2 ^ 256 /\ getBucketIndex self peerId = 255 - Z.log2 d.
Proof.
  intros Hself Hpeer Hne d.
  pose proof (distance_value _ _ Hself Hpeer) as Hval. fold d in Hval.
  pose proof (beValue_range (distance (nodeId self) peerId)) as Hrange.
  rewrite distance_length, Hval in Hrange. change (256 ^ Z.of_nat KEY_SIZE) with (2 ^ 256) in Hrange.
  assert (Hd : d <> 0).
  { intros Hd. apply Z.lxor_eq in Hd. apply Hne.
    destruct Hself as [Hl1 Hf1], Hpeer as [Hl2 Hf2].
    apply hexValue_inj; [congruence | assumption | assumption | exact Hd]. }
  split; [lia|].
  unfold getBucketIndex. rewrite bucketIndex_from_spec by (rewrite Hval; exact Hd).
  rewrite distance_length, Hval. change (Z.of_nat KEY_SIZE) with 32.
  cbv [from_option id]. lia.
Qed.

(** C2, as stated, fails: the closest pair of ids (they differ in the last
    bit only, distance 1) gets index 255, not 0, and a farthest pair (they
    differ in the first bit) gets index 0, not 255. *)
Lemma getBucketIndex_closest_255_farthest_0 :
  (Z.lxor (hexValue idZero) (hexValue idOne) = 1
   /\ getBucketIndex emptyTable idOne = 255)
  /\ (Z.lxor (hexValue idZero) (hexValue idTop) = 2 ^ 255
      /\ getBucketIndex emptyTable idTop = 0).
Proof. vm_compute. repeat split. Qed.

(** C2, amended. For two different 256-bit ids in wire form, the bucket
    index of the peer is the position of the most significant set bit of
    XOR(self, peer) counted from the top: 255 minus the base-2 logarithm of
    the distance. The index is 0 exactly for the farthest pairs (distance at
    least 2^255) and 255 exactly for the closest pair (distance 1). *)
Theorem getBucketIndex_msb_from_top (self : KBucket) (peerId : string) :
  isKey64 (nodeId self) -> isKey64 peerId -> nodeId self <> peerId ->
  let d := Z.lxor (hexValue (nodeId self)) (hexValue peerId) in
  0 < d < 2 ^ 256
  /\ getBucketIndex self peerId = 255 - Z.log2 d
  /\ Z.testbit d (255 - getBucketIndex self peerId) = true
  /\ (forall n, 255 - getBucketIndex self peerId < n -> Z.testbit d n = false)
  /\ (getBucketIndex self peerId = 0 <-> 2 ^ 255 <= d)
  /\ (getBucketIndex self peerId = 255 <-> d = 1).
Proof.
  intros Hself Hpeer Hne d.
  destruct (getBucketIndex_value self peerId Hself Hpeer Hne) as [Hd Hidx].
  fold d in Hd, Hidx.
  pose proof (Z.log2_spec d ltac:(lia)) as [Hlo Hhi].
  pose proof (Z.log2_nonneg d) as Hnn.
  assert (Hlt : Z.log2 d < 256) by (apply Z.log2_lt_pow2; lia).
  split; [exact Hd|]. split; [exact Hidx|].
  rewrite Hidx. replace (255 - (255 - Z.log2 d)) with (Z.log2 d) by lia.
  split; [apply Z.bit_log2; lia|].
  split; [intros n Hn; apply Z.bits_above_log2; lia|].
  split.
  - split; intros H0.
    + assert (Z.log2 d = 255) as Heq by lia. rewrite Heq in Hlo. exact Hlo.
    + assert (255 <= Z.log2 d); [|lia]. apply Z.log2_le_pow2; lia.
  - split; intros H1.
    + assert (Z.log2 d = 0) as Heq by lia. rewrite Heq in Hhi. simpl in Hhi. lia.
    + rewrite H1. reflexivity.
Qed.

Lemma isKey64_idTopNext : isKey64 idTopNext.
Proof.
  apply test_key_format_spec. vm_compute. reflexivity.
Qed.

Lemma isKey64_idZero : isKey64 idZero.
Proof.
  apply test_key_format_spec. vm_compute. reflexivity.
Qed.

Lemma getBucketIndex_msb_from_top_witness :
  let d := Z.lxor (hexValue (nodeId emptyTable)) (hexValue idTopNext) in
  0 < d < 2 ^ 256
  /\ getBucketIndex emptyTable idTopNext = 255 - Z.log2 d
  /\ Z.testbit d (255 - getBucketIndex emptyTable idTopNext) = true
  /\ (forall n, 255 - getBucketIndex emptyTable idTopNext < n -> Z.testbit d n = false)
  /\ (getBucketIndex emptyTable idTopNext = 0 <-> 2 ^ 255 <= d)
  /\ (getBucketIndex emptyTable idTopNext = 255 <-> d = 1).
Proof.
  apply (getBucketIndex_msb_from_top emptyTable idTopNext).
  - exact isKey64_idZero.
  - exact isKey64_idTopNext.
  - intros Heq. apply (f_equal (fun s => String.get 0 s)) in Heq.
    vm_compute in Heq. discriminate Heq.
Defined.

(** * Routing table: proofs *)

Lemma findIndex_from_spec {A} (f : A -> bool) (l : list A) :
  forall i, 0 <= i ->
    (findIndex_from f l i = -1 /\ Forall (fun x => f x = false) l)
    \/ (i <= findIndex_from f l i < i + Z.of_nat (length l)
        /\ firstAt (fun x => f x = true) l (Z.to_nat (findIndex_from f l i - i))).
Proof.
  induction l as [|x l IH]; intros i Hi; simpl.
  - left. split; [reflexivity | constructor].
  - destruct (f x) eqn:Hx.
    + right. split; [lia|]. rewrite Z.sub_diag. simpl. split.
      * exists x. split; [reflexivity | exact Hx].
      * intros j y Hj. lia.
    + destruct (IH (i + 1) ltac:(lia)) as [[Hnone Hall]|[Hrange [[y [Hy Hfy]] Hfirst]]].
      * left. split; [exact Hnone|]. constructor; assumption.
      * right. split; [lia|].
        replace (Z.to_nat (findIndex_from f l (i + 1) - i))
          with (S (Z.to_nat (findIndex_from f l (i + 1) - (i + 1)))) by lia.
        split.
        -- exists y. split; [exact Hy | exact Hfy].
        -- intros [|j] z Hj Hz Hfz.
           ++ simpl in Hz. injection Hz as <-. congruence.
           ++ simpl in Hz. apply (Hfirst j z); [lia | exact Hz | exact Hfz].
Qed.

(** [findIndex] returns -1 when no element passes the test, and the first
    position that passes it otherwise. *)
Lemma findIndex_spec {A} (f : A -> bool) (l : list A) :
  (findIndex f l = -1 /\ Forall (fun x => f x = false) l)
  \/ (0 <= findIndex f l < Z.of_nat (length l)
      /\ firstAt (fun x => f x = true) l (Z.to_nat (findIndex f l))).
Proof.
  unfold findIndex. destruct (findIndex_from_spec f l 0 ltac:(lia)) as [Hn|[Hr Hf]].
  - left. exact Hn.
  - right. rewrite Z.sub_0_r in Hf. split; [lia | exact Hf].
Qed.

Lemma firstSetBit_range (b j : Z) : firstSetBit b = Some j -> 0 <= j <= 7.
Proof.
  unfold firstSetBit. intros Hj. apply List.find_some in Hj as [Hin _].
  simpl in Hin. lia.
Qed.

Lemma bucketIndex_from_range (l : Buffer) :
  forall i r, bucketIndex_from l i = Some r ->
    i * 8 <= r < (i + Z.of_nat (length l)) * 8.
Proof.
  induction l as [|x l IH]; intros i r Hr; [discriminate|].
  simpl in Hr. simpl length.
  destruct (negb (byteZ x =? 0)).
  - destruct (firstSetBit (byteZ x)) as [j|] eqn:Hj.
    + injection Hr as <-. apply firstSetBit_range in Hj. lia.
    + apply IH in Hr. lia.
  - apply IH in Hr. lia.
Qed.

Lemma getBucketIndex_range (self : KBucket) (peerId : string) :
  (256 <= numberOfBuckets self)%nat ->
  0 <= getBucketIndex self peerId < Z.of_nat (numberOfBuckets self).
Proof.
  intros Hn. unfold getBucketIndex.
  destruct (bucketIndex_from _ 0) as [r|] eqn:Hr; simpl.
  - apply bucketIndex_from_range in Hr. rewrite distance_length in Hr.
    change (Z.of_nat KEY_SIZE) with 32 in Hr. lia.
  - lia.
Qed.

Lemma bucketAt_wf (self : KBucket) (peerId : string) :
  wfTable self -> is_Some (bucketAt self (getBucketIndex self peerId)).
Proof.
  intros [Hlen Hn]. pose proof (getBucketIndex_range self peerId Hn) as Hr.
  unfold bucketAt. destruct (Z.ltb_spec (getBucketIndex self peerId) 0); [lia|].
  apply lookup_lt_is_Some_2. lia.
Qed.

Lemma bucketAt_setBucket (self : KBucket) (b : Z) (old new : Bucket) :
  bucketAt self b = Some old ->
  forall b', bucketAt (setBucket self b new) b'
             = if decide (b' = b) then Some new else bucketAt self b'.
Proof.
  intros Hold b'. unfold bucketAt in *. simpl.
  destruct (Z.ltb_spec b 0); [discriminate|].
  destruct (Z.ltb_spec b' 0).
  - destruct (decide (b' = b)); [lia | reflexivity].
  - destruct (decide (b' = b)) as [->|Hne].
    + apply list_lookup_insert_eq. eapply lookup_lt_Some. exact Hold.
    + apply list_lookup_insert_ne. lia.
Qed.

Lemma seenAt_id (p : PeerInfo) (now : Z) : peer_id (seenAt p now) = peer_id p.
Proof. reflexivity. Qed.

Lemma seenAt_lastSeen (p : PeerInfo) (now : Z) :
  pm_lastSeen (peer_metadata (seenAt p now)) = now.
Proof. reflexivity. Qed.

Lemma firstAt_iff {A} (P Q : A -> Prop) (l : list A) (i : nat) :
  (forall x, P x <-> Q x) -> firstAt P l i -> firstAt Q l i.
Proof.
  intros HPQ [[x [Hx HP]] Hfirst]. split.
  - exists x. split; [exact Hx | apply HPQ, HP].
  - intros j y Hj Hy HQ. apply (Hfirst j y Hj Hy). apply HPQ, HQ.
Qed.

Lemma firstAt_unique {A} (P : A -> Prop) (l : list A) (i j : nat) :
  firstAt P l i -> firstAt P l j -> i = j.
Proof.
  intros [[x [Hx HPx]] Hi] [[y [Hy HPy]] Hj].
  destruct (Nat.lt_trichotomy i j) as [Hlt|[Heq|Hgt]]; [|exact Heq|].
  - exfalso. exact (Hj i x Hlt Hx HPx).
  - exfalso. exact (Hi j y Hgt Hy HPy).
Qed.

Lemma firstAt_not_all {A} (P : A -> Prop) (l : list A) (i : nat) :
  firstAt P l i -> Forall (fun x => ~ P x) l -> False.
Proof.
  intros [[x [Hx HPx]] _] Hall.
  rewrite Forall_lookup in Hall. exact (Hall i x Hx HPx).
Qed.

Lemma stale_test (now : Z) (q : PeerInfo) :
  (now - pm_lastSeen (peer_metadata q) >? STALE_THRESHOLD) = true <-> stale now q.
Proof.
  unfold stale, STALE_THRESHOLD.
  destruct (Z.gtb_spec (now - pm_lastSeen (peer_metadata q)) (1 * 60 * 60 * 1000));
    split; intros; try discriminate; lia.
Qed.

(** [addPeerToBucket] for a peer whose id is not in the bucket. *)
Lemma addPeerToBucket_outcome (self : KBucket) (bucket : Bucket) (p : PeerInfo) (clk : Clock) :
  Forall (fun q => peer_id q <> peer_id p) (peers bucket) ->
  exists peers' clk',
    addPeerToBucket self bucket p clk
    = ({| peers := peers'; lastUpdated := lastUpdated bucket |}, clk')
    /\ AddOutcome p (kSize self) clk (peers bucket) peers' clk'.
Proof.
  intros Hfresh. unfold addPeerToBucket.
  destruct (Z.ltb_spec (Z.of_nat (length (peers bucket))) (kSize self)) as [Hroom|Hfull].
  - simpl. eexists _, _. split; [reflexivity|]. apply Appended; assumption.
  - unfold findStalePeer. simpl.
    destruct (findIndex_spec
                (fun peer => clk O - pm_lastSeen (peer_metadata peer) >? STALE_THRESHOLD)
                (peers bucket)) as [[Hnone Hall]|[Hrange Hfirst]].
    + rewrite Hnone. simpl. exists (peers bucket), (fun n => clk (S n)). split.
      * destruct bucket; reflexivity.
      * apply Rejected; [assumption | assumption |].
        eapply Forall_impl; [exact Hall|]. intros q Hq Hs.
        apply stale_test in Hs. simpl in Hq. congruence.
    + destruct (Z.eqb_spec (findIndex
                  (fun peer => clk O - pm_lastSeen (peer_metadata peer) >? STALE_THRESHOLD)
                  (peers bucket)) (-1)) as [Heq|Hne]; [lia|].
      simpl. eexists _, _. split; [reflexivity|].
      apply (Replaced p (kSize self) clk (peers bucket)); [assumption | assumption |].
      eapply firstAt_iff; [|exact Hfirst]. intros q. apply stale_test.
Qed.

(** [addPeer] on a table that has the bucket of the peer. *)
Lemma addPeer_outcome (p : PeerInfo) (self : KBucket) (clk : Clock) (bucket : Bucket) :
  bucketAt self (getBucketIndex self (peer_id p)) = Some bucket ->
  exists peers' clk1,
    addPeer p self clk
    = Ok (setBucket self (getBucketIndex self (peer_id p))
            {| peers := peers'; lastUpdated := clk1 O |},
          fun n => clk1 (S n))
    /\ AddOutcome p (kSize self) clk (peers bucket) peers' clk1.
Proof.
  intros Hbucket. unfold addPeer. rewrite Hbucket.
  destruct (findIndex_spec (fun q => String.eqb (peer_id q) (peer_id p)) (peers bucket))
    as [[Hnone Hall]|[Hrange Hfirst]].
  - rewrite Hnone. simpl.
    assert (Hfresh : Forall (fun q => peer_id q <> peer_id p) (peers bucket)).
    { eapply Forall_impl; [exact Hall|]. intros q Hq. simpl in Hq.
      apply String.eqb_neq. exact Hq. }
    destruct (addPeerToBucket_outcome self bucket p clk Hfresh) as [peers' [clk' [Heq Hout]]].
    rewrite Heq. simpl. exists peers', clk'. split; [reflexivity | exact Hout].
  - destruct (Z.eqb_spec (findIndex (fun q => String.eqb (peer_id q) (peer_id p))
                            (peers bucket)) (-1)) as [Heq|Hne]; [lia|].
    simpl. eexists _, (fun n => clk (S n)). split; [reflexivity|].
    apply (Refreshed p (kSize self) clk (peers bucket)).
    eapply firstAt_iff; [|exact Hfirst]. intros q. apply String.eqb_eq.
Qed.

(** C4, as stated, fails: a peer that is already in its bucket is not moved
    to the tail. With [idTop] before [idTopNext] in bucket 0, adding [idTop]
    again leaves it in front. *)
Lemma addPeer_existing_not_moved_to_tail :
  match twoPeerTable with
  | Ok (table, clk) =>
      bucketIds table 0 = Some [idTop; idTopNext]
      /\ match addPeer (peerWithId idTop 0) table clk with
         | Ok (table', _) =>
             bucketIds table' 0 = Some [idTop; idTopNext]
             /\ bucketIds table' 0 <> Some [idTopNext; idTop]
         | Err _ => False
         end
  | Err _ => False
  end.
Proof. vm_compute. split; [reflexivity|]. split; [reflexivity | discriminate]. Qed.

(** C4, amended. [addPeer p] takes the bucket [b] given by the XOR distance
    between the node and [p.id]. If [p.id] is already in [b], the stored
    record is replaced where it is (the order of the bucket is kept) by [p]
    with [lastSeen] set to the clock's reading; else, if the bucket holds
    less than [k] peers, [p] is appended with [lastSeen] set; else, if some
    peer of the bucket was last seen more than one hour before the clock's
    reading, the first such peer is replaced by [p] with [lastSeen] set;
    else the peers of the bucket are left as they are. In every case the
    bucket's [lastUpdated] is set to the last reading of the clock, and no
    other bucket changes. *)
Theorem addPeer_behaviour (p : PeerInfo) (self : KBucket) (clk : Clock) (bucket : Bucket) :
  let b := getBucketIndex self (peer_id p) in
  let old := peers bucket in
  let absent := Forall (fun q => peer_id q <> peer_id p) old in
  bucketAt self b = Some bucket ->
  exists self' peers' clk1,
    addPeer p self clk = Ok (self', fun n => clk1 (S n))
    /\ bucketAt self' b = Some {| peers := peers'; lastUpdated := clk1 O |}
    /\ (forall b', b' <> b -> bucketAt self' b' = bucketAt self b')
    /\ (exists m, (m = 1 \/ m = 2)%nat /\ forall n, clk1 n = clk (m + n)%nat)
    /\ (forall i, firstAt (fun q => peer_id q = peer_id p) old i ->
          peers' = <[i := seenAt p (clk O)]> old
          /\ map peer_id peers' = map peer_id old)
    /\ (absent -> Z.of_nat (length old) < kSize self ->
          peers' = old ++ [seenAt p (clk O)])
    /\ (absent -> kSize self <= Z.of_nat (length old) ->
          forall i, firstAt (stale (clk O)) old i ->
            peers' = <[i := seenAt p (clk 1%nat)]> old)
    /\ (absent -> kSize self <= Z.of_nat (length old) ->
          Forall (fun q => ~ stale (clk O) q) old ->
          peers' = old).
Proof.
  intros b old absent Hbucket.
  destruct (addPeer_outcome p self clk bucket Hbucket) as [peers' [clk1 [Heq Hout]]].
  fold b in Heq. fold old in Hout.
  eexists _, peers', clk1. split; [exact Heq|].
  split.
  { rewrite (bucketAt_setBucket self b bucket) by exact Hbucket.
    destruct (decide (b = b)); [reflexivity | contradiction]. }
  split.
  { intros b' Hne. rewrite (bucketAt_setBucket self b bucket) by exact Hbucket.
    destruct (decide (b' = b)); [contradiction | reflexivity]. }
  assert (Hpresent : forall i, firstAt (fun q => peer_id q = peer_id p) old i -> absent -> False).
  { intros i Hi Habs. apply (firstAt_not_all _ _ _ Hi).
    eapply Forall_impl; [exact Habs|]. intros q Hq. exact Hq. }
  destruct Hout as [i Hi|Habs Hroom|i Habs Hfull Hi|Habs Hfull Hfresh].
  - split; [exists 1%nat; split; [lia | reflexivity]|].
    split.
    { intros j Hj. rewrite (firstAt_unique _ _ _ _ Hj Hi). split; [reflexivity|].
      rewrite list_fmap_insert. apply list_insert_id.
      destruct Hi as [[q [Hq Hid]] _]. rewrite list_lookup_fmap, Hq. simpl.
      f_equal. exact Hid. }
    repeat split; intros Habs; exfalso; exact (Hpresent i Hi Habs).
  - split; [exists 1%nat; split; [lia | reflexivity]|].
    split; [intros j Hj; exfalso; exact (Hpresent j Hj Habs)|].
    split; [reflexivity|].
    split; intros; lia.
  - split; [exists 2%nat; split; [lia | reflexivity]|].
    split; [intros j Hj; exfalso; exact (Hpresent j Hj Habs)|].
    split; [intros; lia|].
    split.
    + intros _ _ j Hj. rewrite (firstAt_unique _ _ _ _ Hj Hi). reflexivity.
    + intros _ _ Hfresh. exfalso. exact (firstAt_not_all _ _ _ Hi Hfresh).
  - split; [exists 1%nat; split; [lia | reflexivity]|].
    split; [intros j Hj; exfalso; exact (Hpresent j Hj Habs)|].
    split; [intros; lia|].
    split; [|reflexivity].
    intros _ _ j Hj. exfalso. exact (firstAt_not_all _ _ _ Hj Hfresh).
Qed.

Lemma addPeer_behaviour_witness :
  exists self' peers' clk1,
    addPeer (peerWithId idTop 0) emptyTable (evalClock 0) = Ok (self', fun n => clk1 (S n))
    /\ bucketAt self' 0 = Some {| peers := peers'; lastUpdated := clk1 O |}
    /\ peers' = [seenAt (peerWithId idTop 0) 0].
Proof.
  destruct (addPeer_behaviour (peerWithId idTop 0) emptyTable (evalClock 0)
              {| peers := []; lastUpdated := 256 |})
    as [self' [peers' [clk1 [Heq [Hb [_ [_ [_ [Hroom _]]]]]]]]].
  - vm_compute. reflexivity.
  - exists self', peers', clk1. split; [exact Heq|]. split; [exact Hb|].
    apply Hroom; [constructor | vm_compute; reflexivity].
Defined.

(** *** The invariant of the table *)

Lemma NoDup_insert_fresh {A} (l : list A) (i : nat) (x : A) :
  NoDup l -> x ∉ l -> NoDup (<[i := x]> l).
Proof.
  intros Hnd. revert i. induction Hnd as [|y l Hy Hnd IH]; intros i Hx; [constructor|].
  apply not_elem_of_cons in Hx as [Hxy Hx].
  destruct i as [|i]; simpl.
  - constructor; assumption.
  - constructor; [|apply IH; exact Hx].
    intros Hin. apply list_elem_of_lookup in Hin as [j Hj].
    apply list_lookup_insert_Some in Hj as [[_ [-> _]]|[_ Hj]].
    + contradiction.
    + apply Hy. eapply list_elem_of_lookup_2. exact Hj.
Qed.

Lemma elem_of_insert_inv {A} (l : list A) (i : nat) (x y : A) :
  y ∈ <[i := x]> l -> y = x \/ y ∈ l.
Proof.
  intros Hin. apply list_elem_of_lookup in Hin as [j Hj].
  apply list_lookup_insert_Some in Hj as [[_ [-> _]]|[_ Hj]].
  - left. reflexivity.
  - right. eapply list_elem_of_lookup_2. exact Hj.
Qed.

Lemma absent_ids (p : PeerInfo) (old : list PeerInfo) :
  Forall (fun q => peer_id q <> peer_id p) old -> peer_id p ∉ map peer_id old.
Proof.
  intros Habs Hin. apply list_elem_of_fmap in Hin as [q [Hid Hq]].
  rewrite Forall_forall in Habs. apply (Habs q Hq). symmetry. exact Hid.
Qed.

(** Every outcome of [addPeer] keeps the ids of a bucket distinct and the
    bucket within its capacity, and the only id it can bring in is that of
    the peer. *)
Lemma AddOutcome_inv (p : PeerInfo) (k : Z) (clk : Clock) (old peers' : list PeerInfo)
    (clk1 : Clock) :
  AddOutcome p k clk old peers' clk1 ->
  NoDup (map peer_id old) -> Z.of_nat (length old) <= k ->
  NoDup (map peer_id peers')
  /\ Z.of_nat (length peers') <= k
  /\ forall q, q ∈ peers' -> peer_id q = peer_id p \/ q ∈ old.
Proof.
  intros Hout Hnd Hlen.
  destruct Hout as [i Hi|Habs Hroom|i Habs Hfull Hi|Habs Hfull Hfresh].
  - split; [|split].
    + change (NoDup (peer_id <$> <[i:=seenAt p (clk O)]> old)).
      rewrite list_fmap_insert, list_insert_id; [exact Hnd|].
      destruct Hi as [[q [Hq Hid]] _]. rewrite list_lookup_fmap, Hq. simpl.
      f_equal. exact Hid.
    + rewrite length_insert. exact Hlen.
    + intros q Hq. apply elem_of_insert_inv in Hq as [->|Hq]; [left; reflexivity | right; exact Hq].
  - split; [|split].
    + rewrite map_app. apply NoDup_app. split; [exact Hnd|]. split.
      * intros x Hx Hx'. simpl in Hx'. apply list_elem_of_singleton in Hx'. subst x.
        exact (absent_ids p old Habs Hx).
      * simpl. apply NoDup_singleton.
    + rewrite length_app. simpl. lia.
    + intros q Hq. apply elem_of_app in Hq as [Hq|Hq]; [right; exact Hq|].
      apply list_elem_of_singleton in Hq. subst q. left. reflexivity.
  - split; [|split].
    + change (NoDup (peer_id <$> <[i:=seenAt p (clk 1%nat)]> old)).
      rewrite list_fmap_insert. apply NoDup_insert_fresh; [exact Hnd|].
      apply absent_ids. exact Habs.
    + rewrite length_insert. exact Hlen.
    + intros q Hq. apply elem_of_insert_inv in Hq as [->|Hq]; [left; reflexivity | right; exact Hq].
  - split; [exact Hnd|]. split; [exact Hlen|]. intros q Hq. right. exact Hq.
Qed.

Lemma tableInv_setBucket (self : KBucket) (b : Z) (old new : Bucket) :
  tableInv self -> bucketAt self b = Some old ->
  NoDup (map peer_id (peers new)) ->
  Z.of_nat (length (peers new)) <= kSize self ->
  Forall (fun q => getBucketIndex self (peer_id q) = b) (peers new) ->
  tableInv (setBucket self b new).
Proof.
  intros [[Hlen Hn] [Hk Hinv]] Hold Hnd Hcap Hidx.
  split; [|split].
  - split; [|exact Hn]. simpl. rewrite length_insert. exact Hlen.
  - exact Hk.
  - intros b' bucket Hb'. simpl in Hb'.
    unfold bucketAt in Hold. destruct (Z.ltb_spec b 0); [discriminate|].
    apply list_lookup_insert_Some in Hb' as [[Hb [-> _]]|[Hne Hb']].
    + split; [exact Hnd|]. split; [exact Hcap|].
      eapply Forall_impl; [exact Hidx|]. intros q Hq. cbv beta in Hq.
      change (getBucketIndex self (peer_id q) = Z.of_nat b'). lia.
    + exact (Hinv b' bucket Hb').
Qed.

Lemma addPeer_tableInv (p : PeerInfo) (self : KBucket) (clk : Clock) :
  tableInv self ->
  exists self' clk',
    addPeer p self clk = Ok (self', clk')
    /\ kSize self' = kSize self /\ nodeId self' = nodeId self /\ tableInv self'.
Proof.
  intros Hinv. pose proof Hinv as [Hwf [Hk Hbuckets]].
  destruct (bucketAt_wf self (peer_id p) Hwf) as [bucket Hbucket].
  destruct (addPeer_outcome p self clk bucket Hbucket) as [peers' [clk1 [Heq Hout]]].
  eexists _, _. split; [exact Heq|]. split; [reflexivity|]. split; [reflexivity|].
  assert (Hold : buckets self !! Z.to_nat (getBucketIndex self (peer_id p)) = Some bucket).
  { unfold bucketAt in Hbucket. destruct (_ <? 0); [discriminate | exact Hbucket]. }
  destruct (Hbuckets _ _ Hold) as [Hnd [Hcap Hidx]].
  destruct (AddOutcome_inv _ _ _ _ _ _ Hout Hnd Hcap) as [Hnd' [Hcap' Hmem]].
  apply (tableInv_setBucket self _ bucket); simpl; try assumption.
  apply Forall_forall. intros q Hq. destruct (Hmem q Hq) as [Hid|Hin].
  - rewrite Hid. reflexivity.
  - rewrite Forall_forall in Hidx. rewrite (Hidx q Hin).
    destruct Hwf as [_ Hn]. pose proof (getBucketIndex_range self (peer_id p) Hn). lia.
Qed.

Lemma removePeer_tableInv (peerId : string) (self : KBucket) (clk : Clock) :
  tableInv self ->
  exists self' clk',
    removePeer peerId self clk = Ok (self', clk')
    /\ kSize self' = kSize self /\ nodeId self' = nodeId self /\ tableInv self'.
Proof.
  intros Hinv. pose proof Hinv as [Hwf [Hk Hbuckets]].
  destruct (bucketAt_wf self peerId Hwf) as [bucket Hbucket].
  unfold removePeer. rewrite Hbucket.
  destruct (negb (_ =? -1)); simpl.
  - eexists _, _. split; [reflexivity|]. split; [reflexivity|]. split; [reflexivity|].
    assert (Hold : buckets self !! Z.to_nat (getBucketIndex self peerId) = Some bucket).
    { unfold bucketAt in Hbucket. destruct (_ <? 0); [discriminate | exact Hbucket]. }
    destruct (Hbuckets _ _ Hold) as [Hnd [Hcap Hidx]].
    apply (tableInv_setBucket self _ bucket); simpl; try assumption.
    + change (NoDup (peer_id <$> delete (Z.to_nat (findIndex
               (fun p => String.eqb (peer_id p) peerId) (peers bucket))) (peers bucket))).
      rewrite list_fmap_delete. eapply sublist_NoDup; [exact Hnd | apply sublist_delete].
    + pose proof (sublist_length _ _
                    (sublist_delete (peers bucket)
                       (Z.to_nat (findIndex (fun p => String.eqb (peer_id p) peerId)
                                    (peers bucket))))) as Hd.
      lia.
    + apply Forall_delete. eapply Forall_impl; [exact Hidx|]. intros q Hq.
      rewrite Hq. destruct Hwf as [_ Hn].
      pose proof (getBucketIndex_range self peerId Hn). lia.
  - eexists _, _. split; [reflexivity|]. split; [reflexivity|]. split; [reflexivity | exact Hinv].
Qed.

Lemma runOps_tableInv (ops : list Op) :
  forall (self : KBucket) (clk : Clock),
    tableInv self ->
    exists self' clk',
      runOps ops self clk = Ok (self', clk')
      /\ kSize self' = kSize self /\ nodeId self' = nodeId self /\ tableInv self'.
Proof.
  induction ops as [|op ops IH]; intros self clk Hinv; simpl.
  - exists self, clk. split; [reflexivity|]. split; [reflexivity|]. split; [reflexivity | exact Hinv].
  - assert (Hstep : exists self1 clk1,
               runOp op self clk = Ok (self1, clk1)
               /\ kSize self1 = kSize self /\ nodeId self1 = nodeId self /\ tableInv self1).
    { destruct op as [p|peerId]; simpl.
      - apply addPeer_tableInv. exact Hinv.
      - apply removePeer_tableInv. exact Hinv. }
    destruct Hstep as [self1 [clk1 [Heq [Hk1 [Hid1 Hinv1]]]]]. rewrite Heq.
    destruct (IH self1 clk1 Hinv1) as [self' [clk' [Heq' [Hk' [Hid' Hinv']]]]].
    exists self', clk'. split; [exact Heq'|]. split; [congruence|]. split; [congruence | exact Hinv'].
Qed.

Lemma freshBuckets_spec (n : nat) :
  forall clk, length (freshBuckets n clk).1 = n
              /\ Forall (fun bucket => peers bucket = []) (freshBuckets n clk).1.
Proof.
  induction n as [|n IH]; intros clk; simpl.
  - split; [reflexivity | constructor].
  - destruct (IH (fun j => clk (S j))) as [Hlen Hall].
    destruct (freshBuckets n (fun j => clk (S j))) as [rest clk2]. simpl in *.
    split; [rewrite Hlen; reflexivity|]. constructor; [reflexivity | exact Hall].
Qed.

(** The constructor leaves a table that satisfies the invariant. *)
Lemma newKBucket_tableInv (id : string) (k : option Z) (n : option nat) (clk : Clock) :
  0 <= default 20 k -> (256 <= default 256%nat n)%nat ->
  tableInv (newKBucket id k n clk).1
  /\ kSize (newKBucket id k n clk).1 = default 20 k
  /\ nodeId (newKBucket id k n clk).1 = id.
Proof.
  intros Hk Hn. unfold newKBucket.
  destruct (freshBuckets 256 clk) as [first clk1].
  pose proof (freshBuckets_spec (default 256%nat n) clk1) as [Hlen Hall].
  destruct (freshBuckets (default 256%nat n) clk1) as [bs clk2]. simpl in *.
  split; [|split; reflexivity].
  split; [split; [exact Hlen | exact Hn]|].
  split; [exact Hk|].
  intros b bucket Hb. simpl in Hb.
  rewrite Forall_lookup in Hall. rewrite (Hall b bucket Hb). simpl.
  split; [constructor|]. split; [lia | constructor].
Qed.

(** C5, as stated, fails in its second part: nothing keeps the node's own
    id out of the table. Adding a peer that has the node's id stores it in
    the last bucket. *)
Lemma addPeer_stores_own_id :
  nodeId emptyTable = idZero
  /\ match runOps [AddPeer (peerWithId idZero 0)] emptyTable (evalClock 0) with
     | Ok (table, _) => nodeId table = idZero /\ bucketIds table 255 = Some [idZero]
     | Err _ => False
     end.
Proof. vm_compute. repeat split. Qed.

(** C5, amended. Any sequence of [addPeer] and [removePeer] on a new table
    (with [k >= 0] and at least 256 buckets) runs without error, and after it
    no peer id occurs twice, in one bucket or across buckets; every peer is
    in the bucket that its id's bucket index names; and every bucket holds at
    most [k] peers. The node's own id is not kept out. *)
Theorem routing_table_invariants (id : string) (k : option Z) (n : option nat)
    (clk : Clock) (ops : list Op) :
  0 <= default 20 k -> (256 <= default 256%nat n)%nat ->
  exists table clk',
    runOps ops (newKBucket id k n clk).1 (newKBucket id k n clk).2 = Ok (table, clk')
    /\ (forall (b1 b2 i1 i2 : nat) (bucket1 bucket2 : Bucket) (q1 q2 : PeerInfo),
          buckets table !! b1 = Some bucket1 -> buckets table !! b2 = Some bucket2 ->
          peers bucket1 !! i1 = Some q1 -> peers bucket2 !! i2 = Some q2 ->
          peer_id q1 = peer_id q2 -> b1 = b2 /\ i1 = i2)
    /\ (forall (b : nat) (bucket : Bucket) (q : PeerInfo),
          buckets table !! b = Some bucket -> q ∈ peers bucket ->
          getBucketIndex table (peer_id q) = Z.of_nat b)
    /\ (forall (b : nat) (bucket : Bucket),
          buckets table !! b = Some bucket ->
          Z.of_nat (length (peers bucket)) <= default 20 k).
Proof.
  intros Hk Hn.
  destruct (newKBucket_tableInv id k n clk Hk Hn) as [Hinv0 [Hk0 Hid0]].
  destruct (runOps_tableInv ops _ (newKBucket id k n clk).2 Hinv0)
    as [table [clk' [Heq [Hk' [Hid' [Hwf [_ Hinv]]]]]]].
  exists table, clk'. split; [exact Heq|].
  assert (Hidx : forall (b : nat) (bucket : Bucket) (q : PeerInfo),
             buckets table !! b = Some bucket -> q ∈ peers bucket ->
             getBucketIndex table (peer_id q) = Z.of_nat b).
  { intros b bucket q Hb Hq. destruct (Hinv b bucket Hb) as [_ [_ Hall]].
    rewrite Forall_forall in Hall. exact (Hall q Hq). }
  split; [|split; [exact Hidx|]].
  - intros b1 b2 i1 i2 bucket1 bucket2 q1 q2 Hb1 Hb2 Hq1 Hq2 Hid.
    assert (Hb : b1 = b2).
    { pose proof (Hidx b1 bucket1 q1 Hb1 (list_elem_of_lookup_2 _ _ _ Hq1)) as H1.
      pose proof (Hidx b2 bucket2 q2 Hb2 (list_elem_of_lookup_2 _ _ _ Hq2)) as H2.
      rewrite Hid in H1. lia. }
    subst b2. split; [reflexivity|].
    assert (bucket2 = bucket1) by congruence. subst bucket2.
    destruct (Hinv b1 bucket1 Hb1) as [Hnd _].
    apply (NoDup_lookup (map peer_id (peers bucket1)) i1 i2 (peer_id q1)); [exact Hnd | |].
    + change (map peer_id (peers bucket1)) with (peer_id <$> peers bucket1).
      rewrite list_lookup_fmap, Hq1. reflexivity.
    + change (map peer_id (peers bucket1)) with (peer_id <$> peers bucket1).
      rewrite list_lookup_fmap, Hq2. simpl. f_equal. symmetry. exact Hid.
  - intros b bucket Hb. destruct (Hinv b bucket Hb) as [_ [Hcap _]].
    rewrite <- Hk0, <- Hk'. exact Hcap.
Qed.

Lemma routing_table_invariants_witness :
  exists table clk',
    runOps [AddPeer (peerWithId idTop 0); AddPeer (peerWithId idTop 5); RemovePeer idTopNext]
      (newKBucket idZero None None (evalClock 0)).1
      (newKBucket idZero None None (evalClock 0)).2 = Ok (table, clk')
    /\ (forall (b : nat) (bucket : Bucket),
          buckets table !! b = Some bucket ->
          Z.of_nat (length (peers bucket)) <= 20).
Proof.
  destruct (routing_table_invariants idZero None None (evalClock 0)
              [AddPeer (peerWithId idTop 0); AddPeer (peerWithId idTop 5); RemovePeer idTopNext])
    as [table [clk' [Heq [_ [_ Hcap]]]]]; [simpl; lia | simpl; lia |].
  exists table, clk'. split; [exact Heq | exact Hcap].
Defined.


(** * Storage manager: proofs *)

Section StorageManagerProofs.
Context {P : Type} `{SP : StorageProvider P}.

Lemma providerState_set_eq (ps : list (string * P)) (name : string) (p p' : P) :
  providerState ps name = Some p ->
  providerState (setProviderState ps name p') name = Some p'.
Proof.
  induction ps as [|[n q] ps IH]; simpl; [discriminate|].
  destruct (String.eqb_spec n name) as [->|Hne]; simpl.
  - intros _. rewrite String.eqb_refl. reflexivity.
  - intros Hp. destruct (String.eqb_spec n name); [contradiction|]. apply IH, Hp.
Qed.

Lemma providerState_set_ne (ps : list (string * P)) (name name' : string) (p' : P) :
  name' <> name ->
  providerState (setProviderState ps name p') name' = providerState ps name'.
Proof.
  intros Hne. induction ps as [|[n q] ps IH]; simpl; [reflexivity|].
  destruct (String.eqb_spec n name) as [->|Hn]; simpl.
  - destruct (String.eqb_spec name name'); [congruence | reflexivity].
  - rewrite IH. reflexivity.
Qed.

Lemma setProviderState_keys (ps : list (string * P)) (name : string) (p' : P) :
  map fst (setProviderState ps name p') = map fst ps.
Proof.
  induction ps as [|[n q] ps IH]; simpl; [reflexivity|].
  destruct (String.eqb n name); simpl; [reflexivity|]. rewrite IH. reflexivity.
Qed.


Lemma providerState_elem (ps : list (string * P)) (name : string) :
  is_Some (providerState ps name) <-> name ∈ map fst ps.
Proof.
  induction ps as [|[n q] ps IH]; simpl.
  - split; [intros [x Hx]; discriminate Hx | intros Hin; apply elem_of_nil in Hin; destruct Hin].
  - destruct (String.eqb_spec n name) as [->|Hne].
    + split; [intros _; apply list_elem_of_here | intros _; eexists; reflexivity].
    + rewrite IH. split; [apply list_elem_of_further|].
      intros Hin. apply elem_of_cons in Hin as [->|Hin]; [contradiction | exact Hin].
Qed.

(** *** A call of a provider's method *)



Lemma call_frame {A} (name : string) (method : P -> Result A * P)
    (m : StorageManager (P := P)) :
  emitted (call name method m).2 = emitted m
  /\ config (call name method m).2 = config m.
Proof.
  unfold call. destruct (providerState (providers m) name); [|split; reflexivity].
  destruct (method p). split; reflexivity.
Qed.

Lemma call_cache {A} (name : string) (method : P -> Result A * P)
    (m : StorageManager (P := P)) :
  metadataCache (call name method m).2 = metadataCache m
  /\ map fst (providers (call name method m).2) = map fst (providers m).
Proof.
  unfold call. destruct (providerState (providers m) name); [|split; reflexivity].
  destruct (method p). simpl. split; [reflexivity | apply setProviderState_keys].
Qed.

Lemma call_other {A} (name : string) (method : P -> Result A * P)
    (m : StorageManager (P := P)) (name' : string) :
  name' <> name ->
  providerState (providers (call name method m).2) name' = providerState (providers m) name'.
Proof.
  intros Hne. unfold call. destruct (providerState (providers m) name); [|reflexivity].
  destruct (method p). simpl. apply providerState_set_ne, Hne.
Qed.

Lemma call_Ok {A} (name : string) (method : P -> Result A * P)
    (m m' : StorageManager (P := P)) (a : A) :
  call name method m = (Ok a, m') ->
  exists p p', providerState (providers m) name = Some p
               /\ method p = (Ok a, p')
               /\ providers m' = setProviderState (providers m) name p'
               /\ emitted m' = emitted m.
Proof.
  unfold call. destruct (providerState (providers m) name) as [p|]; [|discriminate].
  destruct (method p) as [r p'] eqn:Hm. intros Heq. injection Heq as -> <-.
  exists p, p'. split; [reflexivity|]. split; [exact Hm|]. split; reflexivity.
Qed.

(** *** The providers for a piece of metadata *)

Lemma someChunkOfType_located (className : string) (chunks : list ChunkInfo) :
  Forall (fun chunk => is_Some (chunk_location chunk)) chunks ->
  someChunkOfType className chunks
  = Ok (existsb (fun chunk =>
                   match chunk_location chunk with
                   | Some location => String.eqb (loc_storageType location) className
                   | None => false
                   end) chunks).
Proof.
  induction 1 as [|chunk chunks [location Hloc] _ IH]; [reflexivity|]. simpl.
  rewrite Hloc. destruct (String.eqb (loc_storageType location) className);
    [reflexivity | exact IH].
Qed.

Lemma filterProviders_located (md : StorageMetadata) (ps : list (string * P)) :
  located md -> filterProviders ps md = Ok (candidatesFor md ps).
Proof.
  intros Hloc. unfold candidatesFor.
  induction ps as [|[name p] ps IH]; [reflexivity|]. simpl.
  rewrite (someChunkOfType_located _ _ Hloc), IH.
  destruct (existsb _ (md_chunks md)); reflexivity.
Qed.


(** *** What the manager's methods emit and keep *)

Lemma findMetadata_loop_frame (id : string) (names : list string) :
  forall m : StorageManager (P := P),
    emitted (findMetadata_loop names id m).2 = emitted m
    /\ config (findMetadata_loop names id m).2 = config m.
Proof.
  induction names as [|name names IH]; intros m; simpl; [split; reflexivity|].
  pose proof (call_frame name (fun p => provider_getMetadata p id) m) as [He Hc].
  destruct (call name (fun p => provider_getMetadata p id) m) as [[[md|]|e] m1];
    simpl in *.
  - split; assumption.
  - rewrite <- He, <- Hc. apply IH.
  - rewrite <- He, <- Hc. apply IH.
Qed.

Lemma findMetadata_loop_cache (id : string) (names : list string) :
  forall m : StorageManager (P := P),
    metadataCache (findMetadata_loop names id m).2 = metadataCache m
    /\ map fst (providers (findMetadata_loop names id m).2) = map fst (providers m).
Proof.
  induction names as [|name names IH]; intros m; simpl; [split; reflexivity|].
  pose proof (call_cache name (fun p => provider_getMetadata p id) m) as [Hc Hk].
  destruct (call name (fun p => provider_getMetadata p id) m) as [[[md|]|e] m1];
    simpl in *.
  - split; assumption.
  - rewrite <- Hc, <- Hk. apply IH.
  - rewrite <- Hc, <- Hk. apply IH.
Qed.

Lemma findMetadata_loop_Ok (id : string) (names : list string) :
  forall m : StorageManager (P := P), isOk (findMetadata_loop names id m).1 = true.
Proof.
  induction names as [|name names IH]; intros m; simpl; [reflexivity|].
  destruct (call name (fun p => provider_getMetadata p id) m) as [[[md|]|e] m1];
    [reflexivity | apply IH | apply IH].
Qed.

Lemma retrieve_loop_events (id : string) (md : StorageMetadata) (names : list string) :
  forall (lastError : option Error) (m : StorageManager (P := P)),
    config (retrieve_loop names id md lastError m).2 = config m
    /\ exists events,
         emitted (retrieve_loop names id md lastError m).2 = emitted m ++ events
         /\ Forall (fun e => isRetrieved e = true) events.
Proof.
  induction names as [|name names IH]; intros lastError m; simpl.
  - split; [reflexivity|]. exists []. rewrite app_nil_r. split; [reflexivity | constructor].
  - unfold try_catch, bind.
    pose proof (call_frame name (fun p => provider_retrieve p id) m) as [He1 Hc1].
    destruct (call name (fun p => provider_retrieve p id) m) as [[data|e1] m1]; simpl in *.
    + pose proof (call_frame name (fun p => provider_validateChecksum p id) m1) as [He2 Hc2].
      destruct (call name (fun p => provider_validateChecksum p id) m1) as [[valid|e2] m2];
        simpl in *.
      * destruct valid; simpl.
        -- split; [congruence|]. eexists. split; [rewrite He2, He1; reflexivity|].
           repeat constructor.
        -- rewrite <- He1, <- He2, <- Hc1, <- Hc2. apply IH.
      * rewrite <- He1, <- He2, <- Hc1, <- Hc2. apply IH.
    + rewrite <- He1, <- Hc1. apply IH.
Qed.

Lemma retrieve_loop_cache (id : string) (md : StorageMetadata) (names : list string) :
  forall (lastError : option Error) (m : StorageManager (P := P)),
    metadataCache (retrieve_loop names id md lastError m).2 = metadataCache m
    /\ map fst (providers (retrieve_loop names id md lastError m).2)
       = map fst (providers m).
Proof.
  induction names as [|name names IH]; intros lastError m; simpl; [split; reflexivity|].
  unfold try_catch, bind.
  pose proof (call_cache name (fun p => provider_retrieve p id) m) as [Hc1 Hk1].
  destruct (call name (fun p => provider_retrieve p id) m) as [[data|e1] m1]; simpl in *.
  - pose proof (call_cache name (fun p => provider_validateChecksum p id) m1) as [Hc2 Hk2].
    destruct (call name (fun p => provider_validateChecksum p id) m1) as [[valid|e2] m2];
      simpl in *.
    + destruct valid; simpl.
      * split; congruence.
      * rewrite <- Hc1, <- Hc2, <- Hk1, <- Hk2. apply IH.
    + rewrite <- Hc1, <- Hc2, <- Hk1, <- Hk2. apply IH.
  - rewrite <- Hc1, <- Hk1. apply IH.
Qed.

Lemma retrieve_loop_Err (id : string) (md : StorageMetadata) (names : list string) :
  forall (lastError : option Error) (m m' : StorageManager (P := P)) (e : Error),
    retrieve_loop names id md lastError m = (Err e, m') ->
    e = RETRIEVE_ERROR /\ emitted m' = emitted m.
Proof.
  induction names as [|name names IH]; intros lastError m m' e; simpl.
  - unfold throw. intros Heq. injection Heq as <- <-. split; reflexivity.
  - unfold try_catch, bind.
    pose proof (call_frame name (fun p => provider_retrieve p id) m) as [He1 _].
    destruct (call name (fun p => provider_retrieve p id) m) as [[data|e1] m1];
      simpl in He1.
    + pose proof (call_frame name (fun p => provider_validateChecksum p id) m1) as [He2 _].
      destruct (call name (fun p => provider_validateChecksum p id) m1)
        as [[valid|e2] m2]; simpl in He2.
      * destruct valid; simpl.
        -- discriminate.
        -- intros Hloop. apply IH in Hloop as [-> Hloop]. split; [reflexivity | congruence].
      * intros Hloop. apply IH in Hloop as [-> Hloop]. split; [reflexivity | congruence].
    + intros Hloop. apply IH in Hloop as [-> Hloop]. split; [reflexivity | congruence].
Qed.

(** What [lookupMetadata] returns and leaves. *)
Lemma lookupMetadata_cases (id : string) (m : StorageManager (P := P)) :
  (exists md, metadataCache m !! id = Some md /\ lookupMetadata id m = (Ok (Some md), m))
  \/ (metadataCache m !! id = None
      /\ exists m1, findMetadata id m = (Ok None, m1)
                    /\ lookupMetadata id m = (Ok None, m1))
  \/ (metadataCache m !! id = None
      /\ exists md m1,
           findMetadata id m = (Ok (Some md), m1)
           /\ lookupMetadata id m
              = (Ok (Some md),
                 {| config := config m1; providers := providers m1;
                    metadataCache := <[id := md]> (metadataCache m1);
                    emitted := emitted m1 |})).
Proof.
  unfold lookupMetadata, bind, cacheGet.
  destruct (metadataCache m !! id) as [md|] eqn:Hcache.
  - left. exists md. split; reflexivity.
  - right. unfold findMetadata.
    pose proof (findMetadata_loop_Ok id (map fst (providers m)) m) as Hok.
    destruct (findMetadata_loop (map fst (providers m)) id m) as [[[md|]|e] m1];
      simpl in Hok; [| |discriminate Hok].
    + right. split; [reflexivity|]. exists md, m1. split; reflexivity.
    + left. split; [reflexivity|]. exists m1. split; reflexivity.
Qed.

Lemma lookupMetadata_frame (id : string) (m : StorageManager (P := P)) :
  emitted (lookupMetadata id m).2 = emitted m
  /\ config (lookupMetadata id m).2 = config m
  /\ map fst (providers (lookupMetadata id m).2) = map fst (providers m).
Proof.
  pose proof (findMetadata_loop_frame id (map fst (providers m)) m) as [He Hc].
  pose proof (findMetadata_loop_cache id (map fst (providers m)) m) as [_ Hk].
  destruct (lookupMetadata_cases id m)
    as [[md [_ ->]]|[[_ [m1 [Hfind ->]]]|[_ [md [m1 [Hfind ->]]]]]];
    [repeat split| |]; unfold findMetadata in Hfind; rewrite Hfind in He, Hc, Hk;
    repeat split; assumption.
Qed.

Lemma retrieveFrom_events (id : string) (preferred : option string)
    (metadata : StorageMetadata) (m : StorageManager (P := P)) :
  config (retrieveFrom id preferred metadata m).2 = config m
  /\ exists events,
       emitted (retrieveFrom id preferred metadata m).2 = emitted m ++ events
       /\ Forall (fun e => isRetrieved e = true) events.
Proof.
  assert (Hnone : config m = config m
                  /\ exists events, emitted m = emitted m ++ events
                                    /\ Forall (fun e => isRetrieved e = true) events).
  { split; [reflexivity|]. exists []. rewrite app_nil_r. split; [reflexivity | constructor]. }
  unfold retrieveFrom, bind, getProvidersForMetadata.
  destruct (filterProviders (providers m) metadata) as [candidates|e]; [|exact Hnone].
  destruct (length candidates =? 0)%nat; [exact Hnone|].
  destruct (falsy preferred); [apply retrieve_loop_events|].
  destruct (providerState (providers m) (default "" preferred));
    [|apply retrieve_loop_events].
  unfold try_catch.
  pose proof (call_frame (default "" preferred) (fun p => provider_retrieve p id) m)
    as [He1 Hc1].
  destruct (call (default "" preferred) (fun p => provider_retrieve p id) m)
    as [[data|e1] m1]; simpl in *.
  - split; [exact Hc1|]. exists []. rewrite app_nil_r. split; [exact He1 | constructor].
  - rewrite <- He1, <- Hc1. apply retrieve_loop_events.
Qed.

Lemma retrieveFrom_cache (id : string) (preferred : option string)
    (metadata : StorageMetadata) (m : StorageManager (P := P)) :
  metadataCache (retrieveFrom id preferred metadata m).2 = metadataCache m
  /\ map fst (providers (retrieveFrom id preferred metadata m).2) = map fst (providers m).
Proof.
  unfold retrieveFrom, bind, getProvidersForMetadata.
  destruct (filterProviders (providers m) metadata) as [candidates|e];
    [|split; reflexivity].
  destruct (length candidates =? 0)%nat; [split; reflexivity|].
  destruct (falsy preferred); [apply retrieve_loop_cache|].
  destruct (providerState (providers m) (default "" preferred));
    [|apply retrieve_loop_cache].
  unfold try_catch.
  pose proof (call_cache (default "" preferred) (fun p => provider_retrieve p id) m)
    as [Hc1 Hk1].
  destruct (call (default "" preferred) (fun p => provider_retrieve p id) m)
    as [[data|e1] m1]; simpl in *.
  - split; assumption.
  - rewrite <- Hc1, <- Hk1. apply retrieve_loop_cache.
Qed.

Lemma retrieveFrom_Err (id : string) (preferred : option string)
    (metadata : StorageMetadata) (m m' : StorageManager (P := P)) (e : Error) :
  retrieveFrom id preferred metadata m = (Err e, m') ->
  (e = NO_PROVIDERS_for_retrieval \/ e = RETRIEVE_ERROR \/ e = NO_LOCATION)
  /\ emitted m' = emitted m.
Proof.
  unfold retrieveFrom, bind, getProvidersForMetadata.
  destruct (filterProviders (providers m) metadata) as [candidates|e0] eqn:Hsel.
  2:{ intros Heq. injection Heq as <- <-. split; [|reflexivity]. right. right.
      clear -Hsel. revert Hsel. generalize (providers m). intros ps.
      induction ps as [|[name p] ps IH]; simpl; [discriminate|].
      destruct (someChunkOfType _ _) as [keep|e1] eqn:Hsome.
      - destruct (filterProviders ps metadata) as [rest|e2]; [discriminate|].
        intros Heq. injection Heq as <-. apply IH. reflexivity.
      - intros Heq. injection Heq as <-. clear IH. revert Hsome.
        generalize (toLowerCase (constructorName p)). intros className.
        induction (md_chunks metadata) as [|chunk chunks IHc]; simpl; [discriminate|].
        destruct (chunk_location chunk) as [location|].
        + destruct (String.eqb _ _); [discriminate | exact IHc].
        + intros Heq. injection Heq as <-. reflexivity. }
  destruct (length candidates =? 0)%nat.
  { unfold throw. intros Heq. injection Heq as <- <-. split; [left|]; reflexivity. }
  assert (Hloop : forall (m0 : StorageManager (P := P)) names,
             retrieve_loop names id metadata None m0 = (Err e, m') ->
             (e = NO_PROVIDERS_for_retrieval \/ e = RETRIEVE_ERROR \/ e = NO_LOCATION)
             /\ emitted m' = emitted m0).
  { intros m0 names Hl. apply retrieve_loop_Err in Hl as [-> Hl].
    split; [right; left; reflexivity | exact Hl]. }
  destruct (falsy preferred); [apply Hloop|].
  destruct (providerState (providers m) (default "" preferred)); [|apply Hloop].
  unfold try_catch.
  pose proof (call_frame (default "" preferred) (fun p => provider_retrieve p id) m)
    as [He1 _].
  destruct (call (default "" preferred) (fun p => provider_retrieve p id) m)
    as [[data|e1] m1]; simpl in He1; [discriminate|].
  intros Hl. apply Hloop in Hl as [Hcode Hl]. split; [exact Hcode | congruence].
Qed.

Lemma retrieve_events (id : string) (preferred : option string)
    (m : StorageManager (P := P)) :
  config (retrieve id preferred m).2 = config m
  /\ exists events,
       emitted (retrieve id preferred m).2 = emitted m ++ events
       /\ Forall (fun e => isRetrieved e = true) events.
Proof.
  unfold retrieve, bind.
  pose proof (lookupMetadata_frame id m) as [He [Hc _]].
  destruct (lookupMetadata id m) as [[[metadata|]|e] m1]; simpl in *.
  - rewrite <- He, <- Hc. apply retrieveFrom_events.
  - split; [exact Hc|]. exists []. rewrite app_nil_r. split; [exact He | constructor].
  - split; [exact Hc|]. exists []. rewrite app_nil_r. split; [exact He | constructor].
Qed.

Lemma findMetadata_loop_unknown (id : string) (names : list string) :
  forall m : StorageManager (P := P),
    NoDup names ->
    (forall name p, name ∈ names -> providerState (providers m) name = Some p ->
                    unknownTo id p) ->
    (findMetadata_loop names id m).1 = Ok None.
Proof.
  induction names as [|name names IH]; intros m Hnd Hunknown; [reflexivity|].
  apply NoDup_cons in Hnd as [Hfresh Hnd]. simpl.
  assert (Hnext : forall (r : Result (option StorageMetadata)) (m1 : StorageManager (P := P)),
             call name (fun p => provider_getMetadata p id) m = (r, m1) ->
             (forall md, r <> Ok (Some md))
             /\ forall name' p, name' ∈ names ->
                  providerState (providers m1) name' = Some p -> unknownTo id p).
  { intros r m1. unfold call.
    destruct (providerState (providers m) name) as [p|] eqn:Hp.
    - destruct (provider_getMetadata p id) as [r0 p'] eqn:Hg. intros Heq.
      injection Heq as <- <-. split.
      + intros md ->. exact (Hunknown name p (list_elem_of_here _ _) Hp md p' Hg).
      + intros name' q Hin Hq. simpl in Hq.
        rewrite providerState_set_ne in Hq by (intros ->; contradiction).
        exact (Hunknown name' q (list_elem_of_further _ _ _ Hin) Hq).
    - intros Heq. injection Heq as <- <-. split; [discriminate|].
      intros name' q Hin Hq. exact (Hunknown name' q (list_elem_of_further _ _ _ Hin) Hq). }
  destruct (call name (fun p => provider_getMetadata p id) m) as [r m1].
  destruct (Hnext r m1 eq_refl) as [Hr Hrest].
  destruct r as [[md|]|e].
  - exfalso. exact (Hr md eq_refl).
  - apply IH; assumption.
  - apply IH; assumption.
Qed.

(** *** The loop of [retrieve] *)















(** *** Methods that run alone *)

Lemma alone_andThen {A B} (t : Task A) (k : Result A -> Async (P := P) B) :
  forall m, alone (andThen t k) m = let '(r, m1) := run t m in alone (k r) m1.
Proof.
  induction t as [r|next IH after]; intros m; [reflexivity|].
  unfold alone in *. simpl. specialize (IH m (after m)).
  destruct (andThen (next m) k (after m)) as [t m1]. exact IH.
Qed.

Lemma alone_acase {A B} (c : Async (P := P) A) (k : Result A -> Async B)
    (m : StorageManager (P := P)) :
  alone (acase c k) m = let '(r, m1) := alone c m in alone (k r) m1.
Proof.
  unfold acase, alone. destruct (c m) as [t m1].
  exact (alone_andThen t k m1).
Qed.

Lemma alone_now {A} (c : M (P := P) A) (m : StorageManager (P := P)) :
  alone (now c) m = c m.
Proof. unfold alone, now. destruct (c m). reflexivity. Qed.

Lemma alone_awaitCall {A} (name : string) (method : P -> Result A * P)
    (m : StorageManager (P := P)) :
  alone (awaitCall name method) m = call name method m.
Proof.
  unfold alone, awaitCall.
  destruct (providerState (providers m) name); [|apply alone_now].
  simpl. unfold now. destruct (call name method m). reflexivity.
Qed.

Lemma alone_abind {A B} (c : Async (P := P) A) (k : A -> Async B)
    (m : StorageManager (P := P)) :
  alone (abind c k) m = bind (alone c) (fun a => alone (k a)) m.
Proof.
  unfold abind. rewrite alone_acase. unfold bind.
  destruct (alone c m) as [[a|e] m1]; [reflexivity | apply alone_now].
Qed.

Lemma alone_acatch {A} (c : Async (P := P) A) (h : Error -> Async A)
    (m : StorageManager (P := P)) :
  alone (acatch c h) m = try_catch (alone c) (fun e => alone (h e)) m.
Proof.
  unfold acatch. rewrite alone_acase. unfold try_catch.
  destruct (alone c m) as [[a|e] m1]; [apply alone_now | reflexivity].
Qed.

Lemma bind_ext {A B} (c c' : M (P := P) A) (k k' : A -> M B)
    (m : StorageManager (P := P)) :
  c m = c' m -> (forall a m1, k a m1 = k' a m1) -> bind c k m = bind c' k' m.
Proof.
  intros Hc Hk. unfold bind. rewrite Hc. destruct (c' m) as [[a|e] m1]; [apply Hk | reflexivity].
Qed.

Lemma try_catch_ext {A} (c c' : M (P := P) A) (h h' : Error -> M A)
    (m : StorageManager (P := P)) :
  c m = c' m -> (forall e m1, h e m1 = h' e m1) -> try_catch c h m = try_catch c' h' m.
Proof.
  intros Hc Hh. unfold try_catch. rewrite Hc.
  destruct (c' m) as [[a|e] m1]; [reflexivity | apply Hh].
Qed.

(** The methods with their [await]s, run alone, are the methods of the
    first embedding. *)
Lemma alone_findMetadataA_loop (id : string) (names : list string) :
  forall m : StorageManager (P := P),
    alone (findMetadataA_loop names id) m = findMetadata_loop names id m.
Proof.
  induction names as [|name names IH]; intros m; simpl; [apply alone_now|].
  rewrite alone_acase, alone_awaitCall.
  destruct (call name (fun p => provider_getMetadata p id) m) as [[[md|]|e] m1];
    [apply alone_now | apply IH | apply IH].
Qed.

Lemma alone_retrieveA_loop (id : string) (md : StorageMetadata) (names : list string) :
  forall (lastError : option Error) (m : StorageManager (P := P)),
    alone (retrieveA_loop names id md lastError) m = retrieve_loop names id md lastError m.
Proof.
  induction names as [|name names IH]; intros lastError m; simpl; [apply alone_now|].
  rewrite alone_acatch. apply try_catch_ext; [|intros e m1; apply IH].
  rewrite alone_abind. apply bind_ext; [apply alone_awaitCall|]. intros data m1.
  rewrite alone_abind. apply bind_ext; [apply alone_awaitCall|]. intros valid m2.
  destruct valid; simpl; [|apply alone_now].
  rewrite alone_abind. apply bind_ext; [apply alone_now|]. intros u m3. apply alone_now.
Qed.

Lemma alone_lookupMetadataA (id : string) (m : StorageManager (P := P)) :
  alone (lookupMetadataA id) m = lookupMetadata id m.
Proof.
  unfold lookupMetadataA, lookupMetadata.
  rewrite alone_abind. apply bind_ext; [apply alone_now|]. intros [cached|] m1;
    [apply alone_now|].
  rewrite alone_abind. apply bind_ext.
  { unfold findMetadataA, findMetadata, alone.
    exact (alone_findMetadataA_loop id _ m1). }
  intros [found|] m2; [|apply alone_now].
  rewrite alone_abind. apply bind_ext; [apply alone_now|]. intros u m3. apply alone_now.
Qed.

Lemma alone_retrieveFromA (id : string) (preferred : option string)
    (md : StorageMetadata) (m : StorageManager (P := P)) :
  alone (retrieveFromA id preferred md) m = retrieveFrom id preferred md m.
Proof.
  unfold retrieveFromA, retrieveFrom.
  rewrite alone_abind. apply bind_ext; [apply alone_now|]. intros candidates m1.
  destruct (length candidates =? 0)%nat; [apply alone_now|].
  destruct (falsy preferred); [apply alone_retrieveA_loop|].
  pose proof (alone_acatch
                (awaitCall (default "" preferred) (fun p => provider_retrieve p id))
                (fun _ => retrieveA_loop candidates id md None) m1) as Hcatch.
  pose proof (alone_retrieveA_loop id md candidates None m1) as Hloop.
  unfold alone in *.
  destruct (providerState (providers m1) (default "" preferred)); [|exact Hloop].
  rewrite Hcatch. apply try_catch_ext.
  - exact (alone_awaitCall _ _ m1).
  - intros e m2. exact (alone_retrieveA_loop id md candidates None m2).
Qed.

Lemma alone_retrieveA (id : string) (preferred : option string)
    (m : StorageManager (P := P)) :
  alone (retrieveA id preferred) m = retrieve id preferred m.
Proof.
  unfold retrieveA, retrieve. rewrite alone_abind.
  apply bind_ext; [apply alone_lookupMetadataA|]. intros [md|] m1;
    [apply alone_retrieveFromA | apply alone_now].
Qed.

(** *** Calls that run side by side *)

Section Life.
Variable I : StorageManager (P := P) -> Prop.

Lemma Life_weaken {A} (t : Task A) :
  forall O O' : list Event -> Result A -> Prop,
    Life I t O -> (forall out r, O out r -> O' out r) -> Life I t O'.
Proof.
  induction t as [r|next IH after]; intros O O' Ht Himp; simpl in *.
  - apply Himp, Ht.
  - intros m Hm. destruct (Ht m Hm) as [out [He [HI HL]]].
    exists out. split; [exact He|]. split; [exact HI|].
    apply (IH m _ _ HL). intros rest r. apply Himp.
Qed.

Lemma LifeA_weaken {A} (c : Async A) (O O' : list Event -> Result A -> Prop) :
  LifeA I c O -> (forall out r, O out r -> O' out r) -> LifeA I c O'.
Proof.
  intros Hc Himp m Hm. destruct (Hc m Hm) as [out [He [HI HL]]].
  exists out. split; [exact He|]. split; [exact HI|].
  apply (Life_weaken _ _ _ HL). intros rest r. apply Himp.
Qed.

Lemma Life_andThen {A B} (t : Task A) :
  forall (k : Result A -> Async B) (O1 : list Event -> Result A -> Prop)
         (O : list Event -> Result B -> Prop),
    Life I t O1 ->
    (forall out1 r, O1 out1 r -> LifeA I (k r) (fun out2 r' => O (out1 ++ out2) r')) ->
    LifeA I (andThen t k) O.
Proof.
  induction t as [r|next IH after]; intros k O1 O Ht Hk.
  - exact (Hk [] r Ht).
  - intros m Hm. simpl. exists []. rewrite app_nil_r.
    split; [reflexivity|]. split; [exact Hm|].
    intros m1 Hm1. destruct (Ht m1 Hm1) as [out [He [HI HL]]].
    destruct (IH m1 k (fun rest r => O1 (out ++ rest) r)
                (fun rest r => O (out ++ rest) r) HL) with (m := after m1)
      as [out2 [He2 [HI2 HL2]]]; [|exact HI|].
    { intros out1 r Hout1. apply (LifeA_weaken _ _ _ (Hk _ r Hout1)).
      intros out' r'. rewrite app_assoc. exact (fun H => H). }
    exists (out ++ out2). rewrite He2, He, app_assoc.
    split; [reflexivity|]. split; [exact HI2|].
    apply (Life_weaken _ _ _ HL2). intros out' r'. rewrite !app_assoc. exact (fun H => H).
Qed.

Lemma LifeA_acase {A B} (c : Async A) (k : Result A -> Async B)
    (O1 : list Event -> Result A -> Prop) (O : list Event -> Result B -> Prop) :
  LifeA I c O1 ->
  (forall out1 r, O1 out1 r -> LifeA I (k r) (fun out2 r' => O (out1 ++ out2) r')) ->
  LifeA I (acase c k) O.
Proof.
  intros Hc Hk m Hm. unfold acase.
  destruct (Hc m Hm) as [out [He [HI HL]]]. destruct (c m) as [t m1]. simpl in *.
  destruct (Life_andThen t k (fun rest r => O1 (out ++ rest) r)
              (fun rest r => O (out ++ rest) r) HL) with (m := m1)
    as [out2 [He2 [HI2 HL2]]]; [|exact HI|].
  { intros out1 r Hout1. apply (LifeA_weaken _ _ _ (Hk _ r Hout1)).
    intros out' r'. rewrite app_assoc. exact (fun H => H). }
  exists (out ++ out2). rewrite He2, He, app_assoc.
  split; [reflexivity|]. split; [exact HI2|].
  apply (Life_weaken _ _ _ HL2). intros out' r'. rewrite !app_assoc. exact (fun H => H).
Qed.

Lemma LifeA_abind {A B} (c : Async A) (k : A -> Async B)
    (O1 : list Event -> Result A -> Prop) (O : list Event -> Result B -> Prop) :
  LifeA I c O1 ->
  (forall out1 a, O1 out1 (Ok a) -> LifeA I (k a) (fun out2 r' => O (out1 ++ out2) r')) ->
  (forall out1 e, O1 out1 (Err e) -> O out1 (Err e)) ->
  LifeA I (abind c k) O.
Proof.
  intros Hc Hk Herr. apply (LifeA_acase c _ O1 O Hc).
  intros out1 [a|e] Hout1; [apply Hk, Hout1|].
  intros m Hm. exists []. simpl. rewrite !app_nil_r.
  split; [reflexivity|]. split; [exact Hm | apply Herr, Hout1].
Qed.

Lemma LifeA_acatch {A} (c : Async A) (h : Error -> Async A)
    (O1 O : list Event -> Result A -> Prop) :
  LifeA I c O1 ->
  (forall out1 a, O1 out1 (Ok a) -> O out1 (Ok a)) ->
  (forall out1 e, O1 out1 (Err e) -> LifeA I (h e) (fun out2 r' => O (out1 ++ out2) r')) ->
  LifeA I (acatch c h) O.
Proof.
  intros Hc Hok Hh. apply (LifeA_acase c _ O1 O Hc).
  intros out1 [a|e] Hout1; [|apply Hh, Hout1].
  intros m Hm. exists []. simpl. rewrite !app_nil_r.
  split; [reflexivity|]. split; [exact Hm | apply Hok, Hout1].
Qed.

Lemma LifeA_now {A} (c : M A) (O : list Event -> Result A -> Prop) :
  (forall m, I m -> exists out, emitted (c m).2 = emitted m ++ out
                                /\ I (c m).2 /\ O out (c m).1) ->
  LifeA I (now c) O.
Proof.
  intros Hc m Hm. destruct (Hc m Hm) as [out [He [HI HO]]].
  unfold now. destruct (c m) as [r m']. simpl in *.
  exists out. rewrite app_nil_r. split; [exact He|]. split; assumption.
Qed.

Lemma LifeA_awaitCall {A} (name : string) (method : P -> Result A * P)
    (O : list Event -> Result A -> Prop) :
  (forall m, I m -> I (call name method m).2 /\ O [] (call name method m).1) ->
  LifeA I (awaitCall name method) O.
Proof.
  intros Hcall.
  assert (Hnow : LifeA I (now (call name method)) O).
  { apply LifeA_now. intros m Hm. exists []. rewrite app_nil_r.
    destruct (call_frame name method m) as [He _]. destruct (Hcall m Hm) as [HI HO].
    split; [exact He|]. split; assumption. }
  intros m Hm. unfold awaitCall.
  destruct (providerState (providers m) name); [|exact (Hnow m Hm)].
  exists []. simpl. rewrite app_nil_r. split; [reflexivity|]. split; [exact Hm|].
  intros m1 Hm1. exact (Hnow m1 Hm1).
Qed.

(** A task that is run to its end. *)
Lemma run_life {A} (t : Task A) :
  forall (O : list Event -> Result A -> Prop) m,
    Life I t O -> I m ->
    exists out, emitted (run t m).2 = emitted m ++ out
                /\ I (run t m).2 /\ O out (run t m).1.
Proof.
  induction t as [r|next IH after]; intros O m Ht Hm; simpl in *.
  - exists []. rewrite app_nil_r. split; [reflexivity|]. split; assumption.
  - destruct (Ht m Hm) as [out [He [HI HL]]].
    destruct (IH m _ (after m) HL HI) as [out2 [He2 [HI2 HO2]]].
    exists (out ++ out2). rewrite He2, He, app_assoc.
    split; [reflexivity|]. split; assumption.
Qed.

(** The calls of an array, under any schedule. *)

Lemma finishAll_life (tasks : list (Task unit)) :
  forall Os m,
    Forall2 (Life I) tasks Os -> I m ->
    I (finishAll tasks m)
    /\ exists outs, eachSatisfies Os outs /\ emitted (finishAll tasks m) = emitted m ++ concat outs.
Proof.
  induction tasks as [|t tasks IH]; intros Os m Hall Hm.
  - apply Forall2_nil_inv_l in Hall as ->. split; [exact Hm|].
    exists []. split; [constructor|]. simpl. rewrite app_nil_r. reflexivity.
  - apply Forall2_cons_inv_l in Hall as [O [Os' [Ht [Hall ->]]]]. simpl.
    destruct (run_life t O m Ht Hm) as [out [He [HI HO]]].
    destruct (IH Os' _ Hall HI) as [HI2 [outs [Hsat He2]]].
    split; [exact HI2|]. exists (out :: outs). split.
    + constructor; [eexists; eassumption | exact Hsat].
    + rewrite He2, He. simpl. rewrite app_assoc. reflexivity.
Qed.

Lemma concat_insert_prefix (outs : list (list Event)) (i : nat) (o out : list Event) :
  outs !! i = Some o ->
  concat (<[i := out ++ o]> outs) ≡ₚ out ++ concat outs.
Proof.
  revert i. induction outs as [|x outs IH]; intros [|i] Hi; try discriminate Hi; simpl in *.
  - injection Hi as ->. rewrite app_assoc. reflexivity.
  - rewrite (IH i Hi). rewrite !app_assoc. apply Permutation_app_tail, Permutation_app_comm.
Qed.

Lemma resumeAt_life (i : nat) (tasks : list (Task unit)) Os m :
  Forall2 (Life I) tasks Os -> I m ->
  I (resumeAt i tasks m).2
  /\ exists out Os',
       emitted (resumeAt i tasks m).2 = emitted m ++ out
       /\ Forall2 (Life I) (resumeAt i tasks m).1 Os'
       /\ forall outs', eachSatisfies Os' outs' ->
            exists outs, eachSatisfies Os outs /\ out ++ concat outs' ≡ₚ concat outs.
Proof.
  intros Hall Hm.
  assert (Hsame : I m /\ exists out Os',
            emitted m = emitted m ++ out /\ Forall2 (Life I) tasks Os'
            /\ forall outs', eachSatisfies Os' outs' ->
                 exists outs, eachSatisfies Os outs /\ out ++ concat outs' ≡ₚ concat outs).
  { split; [exact Hm|]. exists [], Os. rewrite app_nil_r.
    split; [reflexivity|]. split; [exact Hall|].
    intros outs' Hsat. exists outs'. split; [exact Hsat | reflexivity]. }
  unfold resumeAt. destruct (tasks !! i) as [t|] eqn:Ht; [|exact Hsame].
  destruct (Forall2_lookup_l _ _ _ _ _ Hall Ht) as [O [HO HtO]].
  destruct t as [r|next after]; simpl.
  - rewrite (list_insert_id _ _ _ Ht). exact Hsame.
  - simpl in HtO. destruct (HtO m Hm) as [out [He [HI HL]]].
    split; [exact HI|].
    exists out, (<[i := fun rest r => O (out ++ rest) r]> Os).
    split; [exact He|]. split; [apply Forall2_insert; assumption|].
    intros outs' Hsat.
    assert (Hlen : (i < length outs')%nat).
    { rewrite <- (Forall2_length _ _ _ Hsat), length_insert.
      apply lookup_lt_Some with O. exact HO. }
    destruct (lookup_lt_is_Some_2 _ _ Hlen) as [o Ho].
    exists (<[i := out ++ o]> outs'). split.
    + rewrite <- (list_insert_id _ _ _ HO).
      rewrite <- (list_insert_insert_eq Os i O (fun rest r => O (out ++ rest) r)).
      apply Forall2_insert; [exact Hsat|].
      destruct (Forall2_lookup_r _ _ _ _ _ Hsat Ho) as [O' [HO' [r Hr]]].
      rewrite list_lookup_insert_eq in HO' by (apply lookup_lt_Some with O; exact HO).
      injection HO' as <-. exists r. exact Hr.
    + symmetry. apply concat_insert_prefix, Ho.
Qed.

Lemma runSchedule_life (schedule : list nat) :
  forall (tasks : list (Task unit)) Os m,
    Forall2 (Life I) tasks Os -> I m ->
    let done := runSchedule schedule tasks m in
    I (finishAll done.1 done.2)
    /\ exists outs merged,
         eachSatisfies Os outs
         /\ emitted (finishAll done.1 done.2) = emitted m ++ merged
         /\ merged ≡ₚ concat outs.
Proof.
  induction schedule as [|i schedule IH]; intros tasks Os m Hall Hm; simpl.
  - destruct (finishAll_life tasks Os m Hall Hm) as [HI [outs [Hsat He]]].
    split; [exact HI|]. exists outs, (concat outs). split; [exact Hsat|].
    split; [exact He | reflexivity].
  - destruct (resumeAt_life i tasks Os m Hall Hm) as [HI [out [Os' [He [Hall' Hback]]]]].
    destruct (resumeAt i tasks m) as [tasks' m']. simpl in *.
    destruct (IH tasks' Os' m' Hall' HI) as [HI2 [outs' [merged [Hsat [He2 Hperm]]]]].
    split; [exact HI2|].
    destruct (Hback outs' Hsat) as [outs [Hsat2 Hperm2]].
    exists outs, (out ++ merged). split; [exact Hsat2|].
    split; [rewrite He2, He, app_assoc; reflexivity|].
    rewrite Hperm. exact Hperm2.
Qed.

Lemma startAll_life (calls : list (Async unit)) :
  forall Os m,
    Forall2 (LifeA I) calls Os -> I m ->
    I (startAll calls m).2
    /\ exists out Os',
         emitted (startAll calls m).2 = emitted m ++ out
         /\ Forall2 (Life I) (startAll calls m).1 Os'
         /\ forall outs', eachSatisfies Os' outs' ->
              exists outs, eachSatisfies Os outs /\ out ++ concat outs' ≡ₚ concat outs.
Proof.
  induction calls as [|c calls IH]; intros Os m Hall Hm.
  - apply Forall2_nil_inv_l in Hall as ->. simpl. split; [exact Hm|].
    exists [], []. rewrite app_nil_r. split; [reflexivity|]. split; [constructor|].
    intros outs' Hsat. exists outs'. split; [exact Hsat | reflexivity].
  - apply Forall2_cons_inv_l in Hall as [O [Os1 [Hc [Hall ->]]]]. simpl.
    destruct (Hc m Hm) as [out1 [He1 [HI1 HL1]]]. destruct (c m) as [t m1]. simpl in *.
    destruct (IH Os1 m1 Hall HI1) as [HI2 [out2 [Os2 [He2 [Hall2 Hback]]]]].
    destruct (startAll calls m1) as [tasks m2]. simpl in *.
    split; [exact HI2|].
    exists (out1 ++ out2), ((fun rest r => O (out1 ++ rest) r) :: Os2).
    split; [rewrite He2, He1, app_assoc; reflexivity|].
    split; [constructor; assumption|].
    intros outs' Hsat. apply Forall2_cons_inv_l in Hsat as [o [outs2' [[r Hr] [Hsat ->]]]].
    destruct (Hback outs2' Hsat) as [outs2 [Hsat2 Hperm2]].
    exists ((out1 ++ o) :: outs2). split.
    + constructor; [exists r; exact Hr | exact Hsat2].
    + simpl. rewrite <- Hperm2, <- !app_assoc. apply Permutation_app_head.
      rewrite !app_assoc. apply Permutation_app_tail, Permutation_app_comm.
Qed.

(** Whatever the schedule, the calls of [allSettled] run to their end, and
    the events emitted are those of the calls, in some order. *)
Lemma allSettled_life (schedule : list nat) (calls : list (Async unit)) Os m :
  Forall2 (LifeA I) calls Os -> I m ->
  (allSettled schedule calls m).1 = Ok tt
  /\ I (allSettled schedule calls m).2
  /\ exists outs merged,
       eachSatisfies Os outs
       /\ emitted (allSettled schedule calls m).2 = emitted m ++ merged
       /\ merged ≡ₚ concat outs.
Proof.
  intros Hall Hm. unfold allSettled.
  destruct (startAll_life calls Os m Hall Hm) as [HI [out [Os' [He [Hall' Hback]]]]].
  destruct (startAll calls m) as [tasks m1]. simpl in *.
  destruct (runSchedule_life schedule tasks Os' m1 Hall' HI)
    as [HI2 [outs' [merged [Hsat [He2 Hperm]]]]].
  destruct (runSchedule schedule tasks m1) as [tasks' m2]. simpl in *.
  split; [reflexivity|]. split; [exact HI2|].
  destruct (Hback outs' Hsat) as [outs [Hsat2 Hperm2]].
  exists outs, (out ++ merged). split; [exact Hsat2|].
  split; [rewrite He2, He, app_assoc; reflexivity|].
  rewrite Hperm. exact Hperm2.
Qed.
End Life.

(** *** The replications of [store] *)

Section Replication.
Variable config0 : StorageManagerConfig.
Variable cache0 : gmap string StorageMetadata.
Variable keys0 : list string.
Variable Good : string -> P -> Prop.
Hypothesis Hgood : keptByProviders Good.


Lemma kept_call {A} (name : string) (method : P -> Result A * P)
    (m : StorageManager (P := P)) :
  (forall n p, Good n p -> Good n (method p).2) ->
  (kept config0 cache0 keys0 Good) m -> (kept config0 cache0 keys0 Good) (call name method m).2.
Proof.
  intros Hmethod [Hc [Hm [Hk Hg]]]. unfold kept, call.
  destruct (providerState (providers m) name) as [p|] eqn:Hp;
    [|repeat split; assumption].
  destruct (method p) as [r p'] eqn:Hr. simpl.
  split; [exact Hc|]. split; [exact Hm|].
  split; [rewrite setProviderState_keys; exact Hk|].
  intros n q Hq. destruct (String.eqb_spec n name) as [->|Hne].
  - rewrite (providerState_set_eq _ _ p p' Hp) in Hq. injection Hq as <-.
    pose proof (Hmethod name p (Hg name p Hp)) as Hnew. rewrite Hr in Hnew. exact Hnew.
  - rewrite providerState_set_ne in Hq by exact Hne. exact (Hg n q Hq).
Qed.

Lemma LifeA_emit (e : Event) (O : list Event -> Result unit -> Prop) :
  O [e] (Ok tt) -> LifeA (kept config0 cache0 keys0 Good) (now (emit e)) O.
Proof.
  intros HO. apply LifeA_now. intros m Hm. exists [e].
  split; [reflexivity|]. split; [exact Hm | exact HO].
Qed.

Lemma LifeA_ret {A} (a : A) (O : list Event -> Result A -> Prop) :
  O [] (Ok a) -> LifeA (kept config0 cache0 keys0 Good) (now (ret a)) O.
Proof.
  intros HO. apply LifeA_now. intros m Hm. exists []. simpl. rewrite app_nil_r.
  split; [reflexivity|]. split; [exact Hm | exact HO].
Qed.

Lemma LifeA_throw {A} (e : Error) (O : list Event -> Result A -> Prop) :
  O [] (Err e) -> LifeA (kept config0 cache0 keys0 Good) (now (throw e)) O.
Proof.
  intros HO. apply LifeA_now. intros m Hm. exists []. simpl. rewrite app_nil_r.
  split; [reflexivity|]. split; [exact Hm | exact HO].
Qed.

Lemma LifeA_quiet_call {A} (name : string) (method : P -> Result A * P) :
  (forall n p, Good n p -> Good n (method p).2) ->
  LifeA (kept config0 cache0 keys0 Good) (awaitCall name method) (fun out _ => out = []).
Proof.
  intros Hmethod. apply LifeA_awaitCall. intros m Hm.
  split; [apply kept_call; assumption | reflexivity].
Qed.

Lemma LifeA_retrieveA_loop (id : string) (md : StorageMetadata) (names : list string) :
  forall lastError,
    LifeA (kept config0 cache0 keys0 Good) (retrieveA_loop names id md lastError) (fun out _ => onlyRetrieved out).
Proof.
  induction names as [|name names IH]; intros lastError; simpl.
  - apply LifeA_throw. constructor.
  - apply (LifeA_acatch _ _ _ (fun out _ => onlyRetrieved out)).
    + apply (LifeA_abind _ _ _ (fun out _ => out = [])).
      * apply LifeA_quiet_call. intros n p Hp. apply (Hgood n p Hp).
      * intros out1 data ->.
        apply (LifeA_abind _ _ _ (fun out _ => out = [])).
        -- apply LifeA_quiet_call. intros n p Hp. apply (Hgood n p Hp).
        -- intros out1 valid ->. destruct valid; simpl.
           ++ apply (LifeA_abind _ _ _ (fun out _ => out = [Retrieved id (md_size md) name])).
              ** apply LifeA_emit. reflexivity.
              ** intros out1 u ->. apply LifeA_ret. repeat constructor.
              ** intros out1 e ->. repeat constructor.
           ++ apply LifeA_throw. constructor.
        -- intros out1 e ->. constructor.
      * intros out1 e ->. constructor.
    + intros out1 a Hout1. exact Hout1.
    + intros out1 e Hout1. apply (LifeA_weaken _ _ _ _ (IH (Some e))).
      intros out2 r Hout2. apply Forall_app. split; assumption.
Qed.

Lemma LifeA_retrieveFromA (id : string) (preferred : option string)
    (md : StorageMetadata) :
  LifeA (kept config0 cache0 keys0 Good) (retrieveFromA id preferred md) (fun out _ => onlyRetrieved out).
Proof.
  unfold retrieveFromA.
  apply (LifeA_abind _ _ _ (fun out _ => out = [])).
  - apply LifeA_now. intros m Hm. exists []. simpl. rewrite app_nil_r.
    split; [reflexivity|]. split; [exact Hm | reflexivity].
  - intros out1 candidates ->. simpl.
    destruct (length candidates =? 0)%nat; [apply LifeA_throw; constructor|].
    destruct (falsy preferred); [apply LifeA_retrieveA_loop|].
    assert (Hpreferred :
              LifeA (kept config0 cache0 keys0 Good)
                (acatch (awaitCall (default "" preferred) (fun p => provider_retrieve p id))
                   (fun _ => retrieveA_loop candidates id md None))
                (fun out _ => onlyRetrieved out)).
    { apply (LifeA_acatch _ _ _ (fun out _ => out = [])).
      + apply LifeA_quiet_call. intros n p Hp. apply (Hgood n p Hp).
      + intros out1 a ->. constructor.
      + intros out1 e ->. apply LifeA_retrieveA_loop. }
    intros m Hm.
    destruct (providerState (providers m) (default "" preferred));
      [exact (Hpreferred m Hm) | exact (LifeA_retrieveA_loop id md candidates None m Hm)].
  - intros out1 e ->. constructor.
Qed.

Lemma LifeA_retrieveA_cached (id : string) (preferred : option string)
    (md0 : StorageMetadata) :
  cache0 !! id = Some md0 ->
  LifeA (kept config0 cache0 keys0 Good) (retrieveA id preferred) (fun out _ => onlyRetrieved out).
Proof.
  intros Hcache. unfold retrieveA.
  apply (LifeA_abind _ _ _ (fun out r => out = [] /\ r = Ok (Some md0))).
  - unfold lookupMetadataA.
    apply (LifeA_abind _ _ _ (fun out r => out = [] /\ r = Ok (Some md0))).
    + apply LifeA_now. intros m Hm. exists []. simpl. rewrite app_nil_r.
      split; [reflexivity|]. split; [exact Hm|]. split; [reflexivity|].
      destruct Hm as [_ [Hm _]]. rewrite Hm, Hcache. reflexivity.
    + intros out1 cached [-> Heq]. injection Heq as ->. simpl.
      apply LifeA_ret. split; reflexivity.
    + intros out1 e [_ Heq]. discriminate Heq.
  - intros out1 metadata [-> Heq]. injection Heq as ->. simpl.
    apply LifeA_retrieveFromA.
  - intros out1 e [_ Heq]. discriminate Heq.
Qed.

(** A replication, whatever else runs between its turns, emits 'retrieved'
    events and ends by emitting 'replicated', after the [store] of its
    provider has returned, or 'replication-failed'. *)
Lemma LifeA_replicateToProvider (md md0 : StorageMetadata) (secondary : string)
    (options : option StorageOptions) :
  cache0 !! md_id md = Some md0 ->
  LifeA (kept config0 cache0 keys0 Good) (replicateToProvider md secondary options)
    (fun out _ => replicationEvents Good (md_id md) secondary options out).
Proof.
  intros Hcache. unfold replicateToProvider.
  apply (LifeA_acatch _ _ _
           (fun out r => match r with
                         | Ok _ => replicationEvents Good (md_id md) secondary options out
                         | Err _ => onlyRetrieved out
                         end)).
  - apply (LifeA_abind _ _ _ (fun out _ => onlyRetrieved out)).
    + apply (LifeA_retrieveA_cached _ _ md0 Hcache).
    + intros out1 data Hout1.
      apply (LifeA_abind _ _ _
               (fun out r =>
                  out = []
                  /\ forall md', r = Ok md' ->
                       exists p data' p',
                         Good secondary p
                         /\ provider_store p data' (replicaOptions options) = (Ok md', p'))).
      * apply LifeA_awaitCall. intros m Hm. split.
        -- apply kept_call; [|exact Hm]. intros n p Hp. apply (Hgood n p Hp).
        -- split; [reflexivity|]. intros md'. unfold call.
           destruct (providerState (providers m) secondary) as [p|] eqn:Hp; [|discriminate].
           destruct (provider_store p data _) as [r p'] eqn:Hstore. simpl.
           intros ->. exists p, data, p'. split; [|exact Hstore].
           destruct Hm as [_ [_ [_ Hg]]]. exact (Hg secondary p Hp).
      * intros out2 md' [-> Hstored]. apply LifeA_emit.
        exists out1, (Replicated (md_id md) secondary). rewrite app_nil_l.
        split; [reflexivity|]. split; [exact Hout1|]. left.
        split; [reflexivity|].
        destruct (Hstored md' eq_refl) as [p [data' [p' Hp]]]. exists p, data', md', p'.
        exact Hp.
      * intros out2 e [-> _]. rewrite app_nil_r. exact Hout1.
    + intros out1 e Hout1. exact Hout1.
  - intros out1 a Hout1. exact Hout1.
  - intros out1 e Hout1. apply LifeA_emit.
    exists out1, (ReplicationFailed (md_id md) secondary e).
    split; [reflexivity|]. split; [exact Hout1|]. right. exists e. reflexivity.
Qed.

(** The replications that [handleReplication] starts, under any schedule. *)
Lemma replications_life (schedule : list nat) (md md0 : StorageMetadata)
    (options : option StorageOptions) (names : list string)
    (m : StorageManager (P := P)) :
  cache0 !! md_id md = Some md0 ->
  (kept config0 cache0 keys0 Good) m ->
  let done :=
    allSettled schedule
      (map (fun provider => replicateToProvider md provider options) names) m in
  done.1 = Ok tt
  /\ (kept config0 cache0 keys0 Good) done.2
  /\ exists outs merged,
       Forall2 (fun secondary out =>
                  replicationEvents Good (md_id md) secondary options out) names outs
       /\ emitted done.2 = emitted m ++ merged
       /\ merged ≡ₚ concat outs.
Proof.
  intros Hcache Hm done. subst done.
  destruct (allSettled_life (kept config0 cache0 keys0 Good) schedule
              (map (fun provider => replicateToProvider md provider options) names)
              (map (fun secondary out (_ : Result unit) =>
                      replicationEvents Good (md_id md) secondary options out) names) m)
    as [Hok [HI [outs [merged [Hsat [He Hperm]]]]]]; [|exact Hm|].
  { apply Forall2_fmap, Forall_Forall2_diag, Forall_forall. intros secondary _.
    apply (LifeA_replicateToProvider md md0 secondary options Hcache). }
  split; [exact Hok|]. split; [exact HI|]. exists outs, merged.
  split; [|split; assumption].
  apply Forall2_fmap_l in Hsat. eapply Forall2_impl; [exact Hsat|].
  intros secondary out [_ Hout]. exact Hout.
Qed.
End Replication.

(** *** [store] *)

Lemma allSettled_ok (schedule : list nat) (calls : list (Async (P := P) unit))
    (m : StorageManager (P := P)) :
  (allSettled schedule calls m).1 = Ok tt.
Proof.
  unfold allSettled. destruct (startAll calls m) as [tasks m1].
  destruct (runSchedule schedule tasks m1). reflexivity.
Qed.

Lemma handleReplication_ok (schedule : list nat) (md : StorageMetadata)
    (secondaries : list string) (options : option StorageOptions)
    (m : StorageManager (P := P)) :
  (handleReplication schedule md secondaries options m).1 = Ok tt.
Proof. unfold handleReplication. apply allSettled_ok. Qed.

Lemma store_hybrid (schedule : list nat) (request : StorageRequest)
    (m : StorageManager (P := P)) (primary : string) (p0 : P) (rest : list (string * P)) :
  resolvedStrategy (config m) request = Hybrid ->
  providers m = (primary, p0) :: rest ->
  store schedule request m
  = match provider_store p0 (req_data request) (req_options request) with
    | (Ok md, p0') => (Ok md, afterPrimary schedule request m primary p0' rest md)
    | (Err _, p0') =>
        (Err STORE_ERROR,
         {| config := config m; providers := (primary, p0') :: rest;
            metadataCache := metadataCache m; emitted := emitted m |})
    end.
Proof.
  intros Hstrategy Hproviders.
  unfold store. unfold resolvedStrategy in Hstrategy. rewrite Hstrategy.
  unfold bind at 1. unfold getProvidersForStrategy. rewrite Hproviders.
  cbn [map fst]. unfold try_catch, bind, call. rewrite Hproviders.
  cbn [providerState setProviderState]. rewrite String.eqb_refl.
  destruct (provider_store p0 (req_data request) (req_options request)) as [[md|e] p0'];
    [|reflexivity].
  unfold afterPrimary. cbn [cacheSet length]. rewrite length_map.
  destruct ((1 <? S (length rest))%nat
            && negb (bool_decide (req_options request ≫= opt_replicas = Some 0))).
  - pose proof (handleReplication_ok schedule md (map fst rest) (req_options request)
                  {| config := config m; providers := (primary, p0') :: rest;
                     metadataCache := <[md_id md:=md]> (metadataCache m);
                     emitted := emitted m |}) as Hok.
    destruct (handleReplication schedule md (map fst rest) (req_options request) _)
      as [r m2].
    simpl in Hok. subst r. reflexivity.
  - reflexivity.
Qed.

Lemma replicationEvents_kinds (Good : string -> P -> Prop) (id secondary : string)
    (options : option StorageOptions) (out : list Event) :
  replicationEvents Good id secondary options out ->
  Forall (fun e => isRetrieved e || isReplicationEvent e = true) out.
Proof.
  intros [reads [e [-> [Hreads Hlast]]]]. apply Forall_app. split.
  - eapply Forall_impl; [exact Hreads|]. intros x Hx. simpl in Hx. rewrite Hx. reflexivity.
  - constructor; [|constructor].
    destruct Hlast as [[-> _]|[error ->]]; reflexivity.
Qed.

(** The three ways in which [store] ends. *)
Lemma store_cases (schedule : list nat) (request : StorageRequest)
    (m : StorageManager (P := P)) :
  store schedule request m = (Err NO_PROVIDERS_for_strategy, m)
  \/ (exists m',
        store schedule request m = (Err STORE_ERROR, m')
        /\ metadataCache m' = metadataCache m
        /\ emitted m' = emitted m
        /\ map fst (providers m') = map fst (providers m))
  \/ (exists md m' events replicas,
        store schedule request m = (Ok md, m')
        /\ metadataCache m' = <[md_id md := md]> (metadataCache m)
        /\ emitted m'
           = emitted m ++ events
               ++ [Stored (md_id md) (md_size md) replicas
                     (resolvedStrategy (config m) request)]
        /\ Forall (fun e => isRetrieved e || isReplicationEvent e = true) events
        /\ map fst (providers m') = map fst (providers m)).
Proof.
  unfold store, bind, resolvedStrategy.
  set (strategy := default (default Hybrid (cfg_defaultStrategy (config m)))
                     (req_strategy request)).
  destruct (getProvidersForStrategy strategy m) as [r m0] eqn:Htargets.
  unfold getProvidersForStrategy in Htargets. injection Htargets as <- <-.
  match goal with
  | |- context [match ?t with [] => throw _ | _ :: _ => _ end] =>
      destruct t as [|primary secondaries]
  end.
  { left. reflexivity. }
  right. unfold try_catch, bind.
  pose proof (call_frame primary
                (fun p => provider_store p (req_data request) (req_options request)) m)
    as [He1 Hcfg1].
  pose proof (call_cache primary
                (fun p => provider_store p (req_data request) (req_options request)) m)
    as [Hc1 Hk1].
  destruct (call primary _ m) as [[md|e] m1]; simpl in He1, Hcfg1, Hc1, Hk1.
  2:{ left. exists m1. split; [reflexivity|]. repeat split; assumption. }
  right. cbn [cacheSet].
  set (m2 := {| config := config m1; providers := providers m1;
                metadataCache := <[md_id md := md]> (metadataCache m1);
                emitted := emitted m1 |}).
  set (replication :=
         if (1 <? length (primary :: secondaries))%nat
            && negb (bool_decide (req_options request ≫= opt_replicas = Some 0))
         then handleReplication schedule md secondaries (req_options request)
         else ret tt).
  assert (Hrep : (replication m2).1 = Ok tt
                 /\ metadataCache (replication m2).2 = metadataCache m2
                 /\ map fst (providers (replication m2).2) = map fst (providers m2)
                 /\ exists events,
                      emitted (replication m2).2 = emitted m2 ++ events
                      /\ Forall (fun e => isRetrieved e || isReplicationEvent e = true)
                           events).
  { subst replication. destruct (_ && _).
    - unfold handleReplication.
      destruct (replications_life (config m2) (metadataCache m2)
                  (map fst (providers m2)) (fun _ _ => True)
                  (fun _ _ _ => conj (fun _ => I) (conj (fun _ => I) (fun _ _ => I)))
                  schedule md md (req_options request)
                  (Array_slice secondaries 0
                     (default (default 1 (cfg_replicationFactor (config m2)))
                        (req_options request ≫= opt_replicas) - 1)) m2)
        as [Hok [[_ [Hc [Hk _]]] [outs [merged [Houts [He Hperm]]]]]].
      { simpl. apply lookup_insert_eq. }
      { repeat split. }
      split; [exact Hok|]. split; [exact Hc|]. split; [exact Hk|].
      exists merged. split; [exact He|]. rewrite Hperm.
      apply Forall_concat. eapply Forall2_Forall_r; [exact Houts|].
      apply Forall_forall. intros secondary _ out. apply replicationEvents_kinds.
    - split; [reflexivity|]. split; [reflexivity|]. split; [reflexivity|].
      exists []. rewrite app_nil_r. split; [reflexivity | constructor]. }
  destruct Hrep as [Hok [Hc [Hk [events [He Hall]]]]].
  destruct (replication m2) as [r m3]. simpl in Hok, Hc, Hk, He. subst r.
  eexists md, _, events, _. split; [reflexivity|]. simpl.
  split; [rewrite Hc; simpl; rewrite Hc1; reflexivity|].
  split; [rewrite He; simpl; rewrite He1, <- app_assoc; reflexivity|].
  split; [exact Hall|]. rewrite Hk. exact Hk1.
Qed.

(** C10. When [store] is called with [options.replicas = 0] under the
    hybrid strategy, only the first provider's [store] runs: the states of
    all other providers stay as they were, and the only event that can be
    emitted is 'stored'; neither 'replicated' nor 'replication-failed' is
    emitted. *)
Theorem store_replicas_zero_touches_primary_only (schedule : list nat)
    (request : StorageRequest) (m : StorageManager (P := P)) (primary : string) (p0 : P)
    (rest : list (string * P)) :
  req_options request ≫= opt_replicas = Some 0 ->
  resolvedStrategy (config m) request = Hybrid ->
  providers m = (primary, p0) :: rest ->
  let stored := provider_store p0 (req_data request) (req_options request) in
  let m' := (store schedule request m).2 in
  providers m' = (primary, stored.2) :: rest
  /\ (forall name, name <> primary ->
        providerState (providers m') name = providerState (providers m) name)
  /\ (exists events, emitted m' = emitted m ++ events
                     /\ Forall (fun e => isReplicationEvent e = false) events
                     /\ match stored.1 with
                        | Ok md => (store schedule request m).1 = Ok md
                                   /\ events = [Stored (md_id md) (md_size md)
                                                  (Z.of_nat (S (length rest))) Hybrid]
                        | Err _ => events = []
                        end).
Proof.
  intros Hzero Hstrategy Hproviders stored m'. subst m'.
  rewrite (store_hybrid schedule request m primary p0 rest Hstrategy Hproviders).
  fold stored. destruct stored as [[md|e] p0']; simpl.
  - unfold afterPrimary. rewrite Hzero, bool_decide_true by reflexivity.
    rewrite andb_false_r. simpl.
    split; [reflexivity|]. split.
    + intros name Hne. rewrite Hproviders. simpl.
      destruct (String.eqb_spec primary name); [congruence | reflexivity].
    + eexists. split; [reflexivity|]. split; [repeat constructor|].
      split; reflexivity.
  - split; [reflexivity|]. split.
    + intros name Hne. rewrite Hproviders. simpl.
      destruct (String.eqb_spec primary name); [congruence | reflexivity].
    + exists []. rewrite app_nil_r. split; [reflexivity|]. split; [constructor | reflexivity].
Qed.

(** C8. Under the hybrid strategy with at least one provider, when the
    first provider's [store] succeeds, [store] succeeds and returns that
    provider's metadata, whatever happens to the replications and in
    whatever order their provider calls settle. Between the events that
    were there and the final 'stored', the events are those of the
    replications that were started, one replication per secondary: each
    emits 'retrieved' events and then one event that names its secondary,
    'replicated', which it emits only after a [store] of that secondary
    has returned, or 'replication-failed'. For a secondary whose [store]
    throws, in the state it is in and in every state that the calls of the
    replications can bring it to, 'replication-failed' is emitted and
    'replicated' is not. *)
Theorem store_hybrid_survives_replication_failures (schedule : list nat)
    (request : StorageRequest) (m : StorageManager (P := P)) (primary : string)
    (p0 p0' : P) (rest : list (string * P)) (md : StorageMetadata) :
  resolvedStrategy (config m) request = Hybrid ->
  providers m = (primary, p0) :: rest ->
  provider_store p0 (req_data request) (req_options request) = (Ok md, p0') ->
  exists m' events,
    store schedule request m = (Ok md, m')
    /\ emitted m' = emitted m ++ events
                     ++ [Stored (md_id md) (md_size md) (Z.of_nat (S (length rest))) Hybrid]
    /\ (forall Good : string -> P -> Prop,
          (forall name p, providerState ((primary, p0') :: rest) name = Some p ->
                          Good name p) ->
          keptByProviders Good ->
          exists outs,
            events ≡ₚ concat outs
            /\ Forall2 (fun secondary out =>
                          replicationEvents Good (md_id md) secondary
                            (req_options request) out)
                 (attemptedSecondaries request m rest) outs)
    /\ (forall (Good : string -> P -> Prop) (secondary : string),
          (forall name p, providerState ((primary, p0') :: rest) name = Some p ->
                          Good name p) ->
          keptByProviders Good ->
          (forall p data options,
             Good secondary p -> exists error, (provider_store p data options).1 = Err error) ->
          secondary ∈ attemptedSecondaries request m rest ->
          (Replicated (md_id md) secondary ∉ events)
          /\ exists error, ReplicationFailed (md_id md) secondary error ∈ events).
Proof.
  intros Hstrategy Hproviders Hstored.
  rewrite (store_hybrid schedule request m primary p0 rest Hstrategy Hproviders), Hstored.
  set (m1 := {| config := config m; providers := (primary, p0') :: rest;
                metadataCache := <[md_id md:=md]> (metadataCache m);
                emitted := emitted m |}).
  assert (Hruns : exists events,
            emitted (afterPrimary schedule request m primary p0' rest md)
            = emitted m ++ events
                ++ [Stored (md_id md) (md_size md) (Z.of_nat (S (length rest))) Hybrid]
            /\ forall Good : string -> P -> Prop,
                 (forall name p, providerState ((primary, p0') :: rest) name = Some p ->
                                 Good name p) ->
                 keptByProviders Good ->
                 exists outs,
                   events ≡ₚ concat outs
                   /\ Forall2 (fun secondary out =>
                                 replicationEvents Good (md_id md) secondary
                                   (req_options request) out)
                        (attemptedSecondaries request m rest) outs).
  { unfold afterPrimary, attemptedSecondaries. fold m1.
    destruct ((1 <? S (length rest))%nat
              && negb (bool_decide (req_options request ≫= opt_replicas = Some 0))).
    - unfold handleReplication.
      set (names := Array_slice (map fst rest) 0
                      (default (default 1 (cfg_replicationFactor (config m1)))
                         (req_options request ≫= opt_replicas) - 1)).
      set (done := allSettled schedule
                     (map (fun provider =>
                             replicateToProvider md provider (req_options request)) names)
                     m1).
      assert (Hlife : forall Good : string -> P -> Prop,
                (forall name p, providerState ((primary, p0') :: rest) name = Some p ->
                                Good name p) ->
                keptByProviders Good ->
                exists outs merged,
                  Forall2 (fun secondary out =>
                             replicationEvents Good (md_id md) secondary
                               (req_options request) out) names outs
                  /\ emitted done.2 = emitted m1 ++ merged
                  /\ merged ≡ₚ concat outs).
      { intros Good Hinit Hkept.
        destruct (replications_life (config m1) (metadataCache m1)
                    (map fst (providers m1)) Good Hkept schedule md md
                    (req_options request) names m1)
          as [_ [_ Hevents]]; [apply lookup_insert_eq | | exact Hevents].
        split; [reflexivity|]. split; [reflexivity|]. split; [reflexivity | exact Hinit]. }
      destruct (Hlife (fun _ _ => True) (fun _ _ _ => I)
                  (fun _ _ _ => conj (fun _ => I) (conj (fun _ => I) (fun _ _ => I))))
        as [outs0 [events [_ [He _]]]].
      exists events. split; [simpl; rewrite He; simpl; rewrite <- app_assoc; reflexivity|].
      intros Good Hinit Hkept.
      destruct (Hlife Good Hinit Hkept) as [outs [merged [Houts [He' Hperm]]]].
      rewrite He in He'. apply app_inv_head in He'. subst merged.
      exists outs. split; assumption.
    - exists []. split; [reflexivity|]. intros Good _ _. exists [].
      split; [reflexivity | constructor]. }
  destruct Hruns as [events [He Hevents]].
  eexists _, events. split; [reflexivity|]. split; [exact He|].
  split; [exact Hevents|].
  intros Good secondary Hinit Hkept Hthrows Hin.
  destruct (Hevents Good Hinit Hkept) as [outs [Hperm Houts]].
  split.
  - intros Hreplicated. rewrite Hperm in Hreplicated.
    apply list_elem_of_In, in_concat in Hreplicated as [out [Hout Hreplicated]].
    apply list_elem_of_In, list_elem_of_lookup in Hout as [i Hi].
    destruct (Forall2_lookup_r _ _ _ _ _ Houts Hi)
      as [secondary' [_ [reads [e [-> [Hreads Hlast]]]]]].
    apply list_elem_of_In, elem_of_app in Hreplicated as [Hread|Hlast'].
    + unfold onlyRetrieved in Hreads. rewrite Forall_forall in Hreads.
      specialize (Hreads _ Hread). discriminate Hreads.
    + apply list_elem_of_singleton in Hlast'. subst e.
      destruct Hlast as [[Heq [p [data [md' [p' [Hp Hstore]]]]]]|[error Heq]];
        [|discriminate Heq].
      injection Heq as <-.
      destruct (Hthrows p data (replicaOptions (req_options request)) Hp) as [error Herror].
      rewrite Hstore in Herror. discriminate Herror.
  - apply list_elem_of_lookup in Hin as [i Hi].
    destruct (Forall2_lookup_l _ _ _ _ _ Houts Hi)
      as [out [Hout [reads [e [-> [Hreads Hlast]]]]]].
    destruct Hlast as [[_ [p [data [md' [p' [Hp Hstore]]]]]]|[error ->]].
    + destruct (Hthrows p data (replicaOptions (req_options request)) Hp) as [error Herror].
      rewrite Hstore in Herror. discriminate Herror.
    + exists error. rewrite Hperm. apply list_elem_of_In, in_concat.
      exists (reads ++ [ReplicationFailed (md_id md) secondary error]). split.
      * apply list_elem_of_In, list_elem_of_lookup. exists i. exact Hout.
      * apply list_elem_of_In, elem_of_app. right. apply list_elem_of_singleton. reflexivity.
Qed.
End StorageManagerProofs.

Lemma store_replicas_zero_touches_primary_only_witness :
  let m' := (store (SP := evalProvider) [] (evalRequest (Some 0)) builtinManager).2 in
  map fst (providers m') = ["local"; "network"; "p2p"]
  /\ (forall name, name <> "local" ->
        providerState (providers m') name = providerState (providers builtinManager) name)
  /\ emitted m' = [Stored "id-1" 3 3 Hybrid].
Proof.
  destruct (store_replicas_zero_touches_primary_only (SP := evalProvider) []
              (evalRequest (Some 0)) builtinManager "local" _ _ eq_refl eq_refl eq_refl)
    as [Hp [Hother [events [Hev [_ Hstored]]]]].
  simpl in Hstored. destruct Hstored as [_ ->].
  split; [rewrite Hp; reflexivity|]. split; [exact Hother | exact Hev].
Defined.

Lemma store_hybrid_survives_replication_failures_witness :
  exists m' events,
    store (SP := evalProvider) [1; 0; 1; 0]%nat (evalRequest None) p2pDownManager
    = (Ok (evalMetadata "id-1" "local"), m')
    /\ emitted m' = events ++ [Stored "id-1" 3 3 Hybrid]
    /\ (exists outs,
          events ≡ₚ concat outs
          /\ Forall2 (fun secondary out =>
                        replicationEvents (SP := evalProvider) p2pDown "id-1" secondary
                          (req_options (evalRequest None)) out)
               ["network"; "p2p"] outs)
    /\ (Replicated "id-1" "p2p" ∉ events)
    /\ exists error, ReplicationFailed "id-1" "p2p" error ∈ events.
Proof.
  destruct (store_hybrid_survives_replication_failures (SP := evalProvider)
              [1; 0; 1; 0]%nat (evalRequest None) p2pDownManager "local" _ _ _ _
              eq_refl eq_refl eq_refl)
    as [m' [events [Hstore [Hev [Hall Hfail]]]]].
  assert (Hinit : forall name p,
            providerState
              (("local", (provider_store (StorageProvider := evalProvider)
                            {| ep_className := "LocalStorageProvider"; ep_bytes := None;
                               ep_checksumOk := true; ep_metadata := None;
                               ep_storeResult := Some (evalMetadata "id-1" "local");
                               ep_stores := 0 |}
                            (req_data (evalRequest None))
                            (req_options (evalRequest None))).2)
               :: tl (providers p2pDownManager)) name = Some p ->
            p2pDown name p).
  { intros name p Hp ->. cbn in Hp. injection Hp as <-. reflexivity. }
  assert (Hkept : keptByProviders (SP := evalProvider) p2pDown).
  { intros name p Hgood. split; [|split].
    - intros id. simpl. destruct (ep_bytes p); exact Hgood.
    - intros id. exact Hgood.
    - intros data options Hname. specialize (Hgood Hname). simpl.
      rewrite Hgood. exact Hgood. }
  exists m', events. split; [exact Hstore|]. split; [exact Hev|].
  split; [exact (Hall p2pDown Hinit Hkept)|].
  apply (Hfail p2pDown "p2p" Hinit Hkept).
  - intros p data options Hgood. exists (PlainError "store failed"). simpl.
    rewrite (Hgood eq_refl). reflexivity.
  - apply list_elem_of_further, list_elem_of_here.
Defined.

(** The class names of the three providers that the manager creates, in
    lower case, are none of the storage types that chunk locations carry. *)
Lemma builtin_class_names_match_no_storage_type :
  Forall (fun className =>
            Forall (fun storageType =>
                      String.eqb storageType (toLowerCase className) = false)
              ["local"; "network"; "p2p"])
    ["LocalStorageProvider"; "NetworkStorageProvider"; "P2PStorageProvider"].
Proof. repeat constructor. Qed.


(** The path of [retrieve] through a preferred provider returns what the
    provider reads, without the checksum validation and without the
    'retrieved' event that the loop over the providers has: the bytes that
    the loop turns down are returned here. *)
Lemma retrieve_preferred_skips_validation :
  (retrieve (SP := evalProvider) "id-1" None corruptManager).1
  = Err (StorageError "Failed to retrieve data from any provider" "RETRIEVE_ERROR" None)
  /\ (retrieve (SP := evalProvider) "id-1" (Some "local") corruptManager).1
     = Ok [xff; xff; xff]
  /\ emitted (retrieve (SP := evalProvider) "id-1" (Some "local") corruptManager).2 = [].
Proof. vm_compute. repeat split. Qed.


(** * Chunk manager: further properties *)

Section ChunkManagerMore.
Context `{RT : Runtime}.

Lemma totalSize_chunks (data : Buffer) (C : Z) (clk : Clock) (n : nat) :
  0 < C -> (n = O \/ (Z.of_nat n - 1) * C < blen data) ->
  totalSize (map (chunkAt data C clk) (seq 0 n)) = Z.min (Z.of_nat n * C) (blen data).
Proof.
  intros HC. pose proof (blen_nonneg data) as Hpos.
  induction n as [|n IH]; intros Hn.
  - unfold totalSize. simpl. lia.
  - destruct Hn as [Hn|Hn]; [discriminate|].
    rewrite seq_S, map_app. unfold totalSize in *.
    rewrite map_app, foldr_app. simpl.
    assert (Hfold : forall (l : list Z) (a : Z), foldr Z.add a l = a + foldr Z.add 0 l).
    { induction l as [|x l IHl]; intros a; simpl; [lia|]. rewrite IHl. lia. }
    rewrite Hfold, IH.
    + unfold chunkAt. simpl. lia.
    + destruct n; [left; reflexivity | right; nia].
Qed.

(** X1. The sizes of the descriptors that [split] returns add up to the
    length of the buffer. *)
Theorem split_sizes_sum (self : DefaultChunkManager) (data : Buffer) (C : Z)
    (fuel : nat) (clk : Clock) :
  0 < C -> (length data <= fuel)%nat ->
  exists chunks clk',
    split fuel self data (Some C) clk = Some (chunks, clk')
    /\ totalSize chunks = blen data.
Proof.
  intros HC Hfuel.
  destruct (split_result self data C fuel clk HC Hfuel) as [clk' Heq].
  pose proof (chunkCount_bounds (blen data) C HC (blen_nonneg data)) as Hb.
  pose proof (blen_nonneg data) as Hpos.
  assert (Hcc : 0 <= chunkCount (blen data) C) by nia.
  eexists _, clk'. split; [exact Heq|].
  rewrite totalSize_chunks; [lia | exact HC | lia].
Qed.

(** X2. With a chunk size of 0 or less, [split] returns the empty list for
    the empty buffer and does not return at all for any other buffer: no
    number of iterations of its loop is enough. *)
Theorem split_nonpositive_chunk_size (self : DefaultChunkManager) (data : Buffer) (C : Z)
    (clk : Clock) :
  C <= 0 ->
  (data = [] -> forall fuel, split fuel self data (Some C) clk = Some ([], clk))
  /\ (data <> [] -> forall fuel, split fuel self data (Some C) clk = None).
Proof.
  intros HC. split.
  - intros -> fuel. unfold split. destruct fuel; reflexivity.
  - intros Hne fuel. unfold split. apply split_loop_diverges; [exact HC|].
    destruct data; [contradiction|]. unfold blen. simpl. lia.
Qed.

Lemma zip_index_unique (info : list ChunkInfo) (chunks : list Buffer)
    (x1 x2 : ChunkInfo * Buffer) :
  NoDup (map chunk_index info) ->
  x1 ∈ zip info chunks -> x2 ∈ zip info chunks ->
  chunk_index x1.1 = chunk_index x2.1 -> x1 = x2.
Proof.
  intros Hnd H1 H2 Hidx.
  apply list_elem_of_lookup in H1 as [i Hi]. apply list_elem_of_lookup in H2 as [j Hj].
  destruct x1 as [c1 b1], x2 as [c2 b2]. simpl in Hidx.
  pose proof Hi as Hi'. pose proof Hj as Hj'.
  apply lookup_zip_with_Some in Hi' as [a1 [d1 [Heq1 [Ha1 Hd1]]]].
  apply lookup_zip_with_Some in Hj' as [a2 [d2 [Heq2 [Ha2 Hd2]]]].
  injection Heq1 as <- <-. injection Heq2 as <- <-.
  assert (i = j).
  { apply (NoDup_lookup (map chunk_index info) i j (chunk_index c1)); [exact Hnd | |].
    - change (map chunk_index info) with (chunk_index <$> info).
      rewrite list_lookup_fmap, Ha1. reflexivity.
    - change (map chunk_index info) with (chunk_index <$> info).
      rewrite list_lookup_fmap, Ha2. simpl. f_equal. symmetry. exact Hidx. }
  subst j. congruence.
Qed.

(** X3. [combine] does not depend on the order in which the chunks arrive:
    when the descriptor indices are pairwise different, the same pairs of
    chunk and descriptor in any other order give the same result, be it the
    data or the error. *)
Theorem combine_order_independent (chunks chunks' : list Buffer)
    (info info' : list ChunkInfo) :
  length chunks = length info -> length chunks' = length info' ->
  zip info' chunks' ≡ₚ zip info chunks ->
  NoDup (map chunk_index info) ->
  combine chunks' info' = combine chunks info.
Proof.
  intros Hlen Hlen' Hperm Hnd. unfold combine.
  rewrite Hlen, Hlen', !Nat.eqb_refl. simpl. unfold pairUp.
  assert (Hsorted : sortByIndex (zip info' chunks') = sortByIndex (zip info chunks)).
  { apply (StronglySorted_unique_strong indexLe).
    - intros x1 x2 H1 H2 H12 H21.
      rewrite sortByIndex_perm in H1, H2. rewrite Hperm in H1.
      apply (zip_index_unique info chunks); [assumption..|].
      unfold indexLe in *. lia.
    - apply sortByIndex_sorted.
    - apply sortByIndex_sorted.
    - rewrite !sortByIndex_perm. exact Hperm. }
  rewrite Hsorted. reflexivity.
Qed.

Lemma find_sorted_first {A} (R : A -> A -> Prop) (f : A -> bool) (l : list A) (p : A) :
  (forall x, R x x) ->
  StronglySorted R l -> List.find f l = Some p ->
  p ∈ l /\ f p = true /\ forall q, q ∈ l -> f q = true -> R p q.
Proof.
  intros Hrefl Hs. induction Hs as [|x l Hs IH Hx]; simpl; [discriminate|].
  destruct (f x) eqn:Hfx.
  - intros Heq. injection Heq as <-. split; [apply list_elem_of_here|].
    split; [exact Hfx|]. intros q Hq _.
    apply elem_of_cons in Hq as [->|Hq]; [apply Hrefl|].
    rewrite Forall_forall in Hx. apply Hx, Hq.
  - intros Hfind. destruct (IH Hfind) as [Hin [Hfp Hmin]].
    split; [apply list_elem_of_further, Hin|]. split; [exact Hfp|].
    intros q Hq Hfq. apply elem_of_cons in Hq as [->|Hq]; [congruence|].
    apply Hmin; assumption.
Qed.

(** X4. When some chunk fails its validation, the chunk index that the
    CHUNK_VALIDATION_ERROR of [combine] reports is that of a failing chunk,
    and no failing chunk has a smaller index. *)
Theorem combine_reports_smallest_failing_index (chunks : list Buffer)
    (info : list ChunkInfo) :
  length chunks = length info ->
  Exists (fun p => validate p.2 p.1 = false) (zip info chunks) ->
  exists p,
    p ∈ zip info chunks
    /\ validate p.2 p.1 = false
    /\ combine chunks info
       = Err (StorageError "Chunk validation failed" "CHUNK_VALIDATION_ERROR"
                (Some (chunk_index p.1)))
    /\ forall q, q ∈ zip info chunks -> validate q.2 q.1 = false ->
                 chunk_index p.1 <= chunk_index q.1.
Proof.
  intros Hlen Hex. unfold combine. rewrite Hlen, Nat.eqb_refl. simpl. unfold pairUp.
  destruct (find_invalid_some (sortByIndex (zip info chunks))) as [p Hp].
  { rewrite sortByIndex_perm. exact Hex. }
  rewrite Hp.
  apply (find_sorted_first indexLe) in Hp as [Hin [Hfp Hmin]];
    [|intros x; unfold indexLe; lia | apply sortByIndex_sorted].
  exists p. rewrite sortByIndex_perm in Hin.
  split; [exact Hin|]. split; [destruct (validate p.2 p.1); [discriminate | reflexivity]|].
  split; [reflexivity|].
  intros q Hq Hfq. apply Hmin; [rewrite sortByIndex_perm; exact Hq|].
  rewrite Hfq. reflexivity.
Qed.
End ChunkManagerMore.

Lemma split_sizes_sum_witness :
  exists chunks clk',
    split (RT := evalRuntime) 5 (newDefaultChunkManager None) [x68; x65; x6c; x6c; x6f]
      (Some 2) (evalClock 0) = Some (chunks, clk')
    /\ totalSize chunks = 5.
Proof.
  apply (split_sizes_sum (RT := evalRuntime)); [lia | simpl; lia].
Defined.

Lemma split_nonpositive_chunk_size_witness :
  split (RT := evalRuntime) 1000 (newDefaultChunkManager None) [x68; x65] (Some 0)
    (evalClock 0) = None.
Proof.
  apply (split_nonpositive_chunk_size (RT := evalRuntime)); [lia | discriminate].
Defined.

Lemma combine_order_independent_witness :
  combine (RT := evalRuntime) [[x03]; [x01; x02]]
    [splitDescriptor 1 1 (String "003" "") 0;
     splitDescriptor 0 2 (String "001" (String "002" "")) 0]
  = combine (RT := evalRuntime) [[x01; x02]; [x03]]
      [splitDescriptor 0 2 (String "001" (String "002" "")) 0;
       splitDescriptor 1 1 (String "003" "") 0].
Proof.
  apply (combine_order_independent (RT := evalRuntime)); try reflexivity.
  - apply Permutation_swap.
  - simpl. repeat constructor; intros Hin;
      repeat (apply elem_of_cons in Hin as [Hin|Hin]; [discriminate Hin|]);
      apply elem_of_nil in Hin; exact Hin.
Defined.

Lemma combine_reports_smallest_failing_index_witness :
  exists p : ChunkInfo * Buffer,
    combine (RT := evalRuntime) [[x03]; [x01; x02]]
      [splitDescriptor 1 1 "bad" 0; splitDescriptor 0 2 "bad" 0]
    = Err (StorageError "Chunk validation failed" "CHUNK_VALIDATION_ERROR"
             (Some (chunk_index p.1)))
    /\ chunk_index p.1 <= 0.
Proof.
  destruct (combine_reports_smallest_failing_index (RT := evalRuntime) [[x03]; [x01; x02]]
              [splitDescriptor 1 1 "bad" 0; splitDescriptor 0 2 "bad" 0] eq_refl)
    as [p [_ [_ [Heq Hmin]]]].
  - apply Exists_cons_hd. reflexivity.
  - exists p. split; [exact Heq|].
    apply (Hmin (splitDescriptor 0 2 "bad" 0, [x01; x02])); [|reflexivity].
    apply list_elem_of_further, list_elem_of_here.
Defined.

(** * XOR metric: further properties *)

Lemma distance_self (keyA : string) : distance keyA keyA = replicate 32 x00.
Proof.
  rewrite distance_bytes.
  assert (Hall : forall l : list nat,
             map (fun i => byte_of_Z (Z.lxor (Buffer_operand (Buffer_from_hex keyA) i)
                                        (Buffer_operand (Buffer_from_hex keyA) i))) l
             = replicate (length l) x00).
  { induction l as [|i l IH]; simpl; [reflexivity|].
    rewrite Z.lxor_nilpotent, IH. reflexivity. }
  rewrite Hall, length_seq. reflexivity.
Qed.

(** X5. For any two strings, well-formed ids or not, [distance] is a buffer
    of 32 bytes, it is the same in both directions, and the distance of a
    string to itself is all zeros. *)
Theorem distance_symmetric_zero_on_self (keyA keyB : string) :
  length (distance keyA keyB) = 32%nat
  /\ distance keyA keyB = distance keyB keyA
  /\ distance keyA keyA = replicate 32 x00.
Proof.
  split; [apply distance_length|]. split; [|apply distance_self].
  rewrite !distance_bytes. apply map_ext. intros i. rewrite Z.lxor_comm. reflexivity.
Qed.

Lemma beValue_zeros (n : nat) : beValue (replicate n x00) = 0.
Proof. induction n as [|n IH]; simpl; [reflexivity|]. rewrite IH. reflexivity. Qed.

(** X6. For two ids in wire form the distance is all zeros exactly when the
    ids are the same. *)
Theorem distance_zero_iff_same_key (keyA keyB : string) :
  isKey64 keyA -> isKey64 keyB ->
  (distance keyA keyB = replicate 32 x00 <-> keyA = keyB).
Proof.
  intros HA HB. split.
  - intros Hzero.
    pose proof (distance_value keyA keyB HA HB) as Hval.
    rewrite Hzero, beValue_zeros in Hval. symmetry in Hval. apply Z.lxor_eq in Hval.
    destruct HA as [HlA HfA], HB as [HlB HfB].
    apply hexValue_inj; [congruence | assumption | assumption | exact Hval].
  - intros ->. apply distance_self.
Qed.

Lemma distance_zero_iff_same_key_witness :
  distance idZero idTopNext = replicate 32 x00 <-> idZero = idTopNext.
Proof.
  apply distance_zero_iff_same_key; [exact isKey64_idZero | exact isKey64_idTopNext].
Defined.

(** [compare] on two buffers of the same length orders them as the numbers
    they denote. *)
Lemma Buffer_compare_spec (a : Buffer) :
  forall b, length a = length b ->
    (Buffer_compare a b = -1 /\ beValue a < beValue b)
    \/ (Buffer_compare a b = 0 /\ a = b)
    \/ (Buffer_compare a b = 1 /\ beValue b < beValue a).
Proof.
  induction a as [|x a IH]; intros [|y b] Hlen; try discriminate Hlen.
  - right. left. split; reflexivity.
  - simpl in Hlen. injection Hlen as Hlen. simpl.
    pose proof (beValue_range a) as Ha. pose proof (beValue_range b) as Hb.
    pose proof (byteZ_range x) as Hx. pose proof (byteZ_range y) as Hy.
    rewrite <- Hlen in *.
    assert (0 < 256 ^ Z.of_nat (length a)) by (apply Z.pow_pos_nonneg; lia).
    destruct (Z.ltb_spec (byteZ x) (byteZ y)) as [Hlt|Hge].
    + left. split; [reflexivity | nia].
    + destruct (Z.ltb_spec (byteZ y) (byteZ x)) as [Hgt|Hle].
      * right. right. split; [reflexivity | nia].
      * assert (Heq : byteZ x = byteZ y) by lia. apply byteZ_inj in Heq. subst y.
        destruct (IH b Hlen) as [[Hc Hv]|[[Hc Hv]|[Hc Hv]]].
        -- left. split; [exact Hc | lia].
        -- right. left. split; [exact Hc | congruence].
        -- right. right. split; [exact Hc | lia].
Qed.

(** X7. For ids in wire form, [isCloser(a, b, target)] holds exactly when
    XOR(a, target) is less than XOR(b, target) as a number; and of two
    different ids exactly one is closer to the target than the other. *)
Theorem isCloser_compares_xor (keyA keyB target : string) :
  isKey64 keyA -> isKey64 keyB -> isKey64 target ->
  (isCloser keyA keyB target = true
   <-> Z.lxor (hexValue keyA) (hexValue target) < Z.lxor (hexValue keyB) (hexValue target))
  /\ (keyA <> keyB -> isCloser keyA keyB target = negb (isCloser keyB keyA target))
  /\ isCloser keyA keyA target = false.
Proof.
  intros HA HB HT.
  pose proof (distance_value keyA target HA HT) as HvA.
  pose proof (distance_value keyB target HB HT) as HvB.
  assert (Hcmp : forall k1 k2,
             isCloser k1 k2 target = true
             <-> beValue (distance k1 target) < beValue (distance k2 target)).
  { intros k1 k2. unfold isCloser.
    destruct (Buffer_compare_spec (distance k1 target) (distance k2 target))
      as [[Hc Hv]|[[Hc Hv]|[Hc Hv]]];
      [rewrite !distance_length; reflexivity | | |]; rewrite Hc.
    - split; [intros _; exact Hv | reflexivity].
    - change (0 <? 0) with false. split; [discriminate | rewrite Hv; lia].
    - change (1 <? 0) with false. split; [discriminate | lia]. }
  split; [rewrite Hcmp, HvA, HvB; reflexivity|]. split.
  - intros Hne.
    assert (Hdiff : beValue (distance keyA target) <> beValue (distance keyB target)).
    { rewrite HvA, HvB. intros Heq. apply Hne.
      assert (Hv : hexValue keyA = hexValue keyB).
      { apply (f_equal (fun v => Z.lxor v (hexValue target))) in Heq.
        rewrite !Z.lxor_assoc, !Z.lxor_nilpotent, !Z.lxor_0_r in Heq. exact Heq. }
      destruct HA as [HlA HfA], HB as [HlB HfB].
      apply hexValue_inj; [congruence | assumption | assumption | exact Hv]. }
    pose proof (Hcmp keyA keyB) as H1. pose proof (Hcmp keyB keyA) as H2.
    destruct (isCloser keyA keyB target), (isCloser keyB keyA target); simpl;
      try reflexivity; exfalso.
    + assert (beValue (distance keyA target) < beValue (distance keyB target)) by (apply H1; reflexivity).
      assert (beValue (distance keyB target) < beValue (distance keyA target)) by (apply H2; reflexivity).
      lia.
    + assert (~ beValue (distance keyA target) < beValue (distance keyB target))
        by (intros Hlt; apply H1 in Hlt; discriminate).
      assert (~ beValue (distance keyB target) < beValue (distance keyA target))
        by (intros Hlt; apply H2 in Hlt; discriminate).
      lia.
  - pose proof (Hcmp keyA keyA) as H1.
    destruct (isCloser keyA keyA target); [|reflexivity].
    assert (beValue (distance keyA target) < beValue (distance keyA target))
      by (apply H1; reflexivity). lia.
Qed.

Lemma isCloser_compares_xor_witness :
  isCloser idTopNext idTop idTop = negb (isCloser idTop idTopNext idTop).
Proof.
  destruct (isCloser_compares_xor idTopNext idTop idTop) as [_ [Hne _]].
  - exact isKey64_idTopNext.
  - apply test_key_format_spec. vm_compute. reflexivity.
  - apply test_key_format_spec. vm_compute. reflexivity.
  - apply Hne. intros Heq. apply (f_equal (fun s => String.get 0 s)) in Heq.
    vm_compute in Heq. discriminate Heq.
Defined.

(** *** The stable sort *)

Section ArraySort.
Context {A : Type} (cmp : A -> A -> Z) (key : A -> Z).
Hypothesis cmp_key : forall x y, cmp x y <= 0 <-> key x <= key y.

Lemma insertBy_perm (x : A) (l : list A) : insertBy cmp x l ≡ₚ x :: l.
Proof.
  induction l as [|y l IH]; simpl; [reflexivity|].
  destruct (cmp x y <=? 0); [reflexivity|]. rewrite IH. apply Permutation_swap.
Qed.

Lemma Array_sort_perm (l : list A) : Array_sort cmp l ≡ₚ l.
Proof.
  induction l as [|x l IH]; simpl; [reflexivity|].
  rewrite insertBy_perm, IH. reflexivity.
Qed.

Lemma insertBy_sorted (x : A) (l : list A) :
  StronglySorted (fun a b => key a <= key b) l ->
  StronglySorted (fun a b => key a <= key b) (insertBy cmp x l).
Proof.
  induction 1 as [|y l Hs IH Hy]; simpl; [repeat constructor|].
  destruct (Z.leb_spec (cmp x y) 0) as [Hle|Hgt].
  - apply cmp_key in Hle. constructor; [constructor; assumption|].
    constructor; [exact Hle|]. eapply Forall_impl; [exact Hy|]. simpl. intros; lia.
  - assert (key y <= key x).
    { destruct (Z.le_gt_cases (key x) (key y)) as [Hxy|Hxy]; [|lia].
      apply cmp_key in Hxy. lia. }
    constructor; [assumption|]. rewrite insertBy_perm. constructor; assumption.
Qed.

Lemma Array_sort_sorted (l : list A) :
  StronglySorted (fun a b => key a <= key b) (Array_sort cmp l).
Proof.
  induction l as [|x l IH]; simpl; [constructor|]. apply insertBy_sorted, IH.
Qed.

Lemma insertBy_stable (z : Z) (x : A) (l : list A) :
  List.filter (fun a => key a =? z) (insertBy cmp x l)
  = List.filter (fun a => key a =? z) (x :: l).
Proof.
  induction l as [|y l IH]; [reflexivity|]. simpl insertBy.
  destruct (Z.leb_spec (cmp x y) 0) as [Hle|Hgt]; [reflexivity|].
  assert (key y < key x).
  { destruct (Z.le_gt_cases (key x) (key y)) as [Hxy|Hxy]; [|lia].
    apply cmp_key in Hxy. lia. }
  simpl in *. rewrite IH.
  destruct (Z.eqb_spec (key x) z), (Z.eqb_spec (key y) z); try reflexivity; lia.
Qed.

Lemma Array_sort_stable (z : Z) (l : list A) :
  List.filter (fun a => key a =? z) (Array_sort cmp l)
  = List.filter (fun a => key a =? z) l.
Proof.
  induction l as [|x l IH]; [reflexivity|].
  simpl Array_sort. rewrite insertBy_stable. simpl. rewrite IH. reflexivity.
Qed.
End ArraySort.

Lemma compare_distance_key (target : string) (a b : PeerInfo) :
  Buffer_compare (distance (peer_id a) target) (distance (peer_id b) target) <= 0
  <-> beValue (distance (peer_id a) target) <= beValue (distance (peer_id b) target).
Proof.
  destruct (Buffer_compare_spec (distance (peer_id a) target) (distance (peer_id b) target))
    as [[Hc Hv]|[[Hc Hv]|[Hc Hv]]];
    [rewrite !distance_length; reflexivity | | |]; rewrite Hc.
  - split; intros; lia.
  - rewrite Hv. split; intros; lia.
  - split; intros; lia.
Qed.

(** X8. [sortByDistance] returns the peers it is given, each as often as
    given, in ascending order of their distance to the target, read as a
    number; peers at the same distance keep their order. *)
Theorem sortByDistance_sorted_permutation (peers0 : list PeerInfo) (target : string) :
  let d := fun p => beValue (distance (peer_id p) target) in
  sortByDistance peers0 target ≡ₚ peers0
  /\ StronglySorted (fun a b => d a <= d b) (sortByDistance peers0 target)
  /\ forall z, List.filter (fun p => d p =? z) (sortByDistance peers0 target)
               = List.filter (fun p => d p =? z) peers0.
Proof.
  intros d. unfold sortByDistance. split; [apply Array_sort_perm|]. split.
  - apply (Array_sort_sorted _ d). intros x y. apply compare_distance_key.
  - intros z. apply (Array_sort_stable _ d). intros x y. apply compare_distance_key.
Qed.

(** * Wire messages: further properties *)

Section DHTProtocolMore.
Context `{RT : Runtime}.

(** X9. A message made by [createMessage] is accepted by [validateMessage]
    exactly when its sender is not the empty string, its key is missing,
    empty or 64 lower-case hex characters, and the reading of the clock at
    validation is within 5 minutes of the reading that gave the timestamp.
    In particular a message for a key that is not in wire form, such as a
    namespaced key, is made but never accepted. *)
Theorem createMessage_accepted_iff (dhtType : DHTMessageType) (sender : string)
    (options : MessageOptions) (clk clk' : Clock) :
  let m := (createMessage dhtType sender options clk).1 in
  payload_timestamp (msg_payload m) = clk 1%nat
  /\ ((validateMessage m clk').1 = true
      <-> sender <> ""
          /\ (mo_key options = None \/ mo_key options = Some ""
              \/ exists k, mo_key options = Some k /\ isKey64 k)
          /\ Z.abs (clk' O - clk 1%nat) <= 5 * 60 * 1000).
Proof.
  intros m. subst m. split; [reflexivity|].
  unfold createMessage, validateMessage. simpl.
  assert (Htype : String.eqb (DHTMessageType_string dhtType) "" = false)
    by (destruct dhtType; reflexivity).
  rewrite Htype. simpl.
  destruct (String.eqb_spec sender "") as [->|Hsender]; simpl.
  { split; [discriminate | intros [Hne _]; contradiction]. }
  destruct (mo_key options) as [k|] eqn:Hkey; simpl.
  - destruct (String.eqb_spec k "") as [->|Hk]; simpl.
    + destruct (Z.gtb_spec (Z.abs (clk' O - clk 1%nat)) MAX_TIME_DIFF) as [Hlate|Hok];
        unfold MAX_TIME_DIFF in *; simpl.
      * split; [discriminate | intros [_ [_ Ht]]; lia].
      * split; [intros _|reflexivity]. split; [exact Hsender|]. split; [|lia].
        right. left. reflexivity.
    + destruct (test_key_format k) eqn:Hfmt; simpl.
      * apply test_key_format_spec in Hfmt.
        destruct (Z.gtb_spec (Z.abs (clk' O - clk 1%nat)) MAX_TIME_DIFF) as [Hlate|Hok];
          unfold MAX_TIME_DIFF in *; simpl.
        -- split; [discriminate | intros [_ [_ Ht]]; lia].
        -- split; [intros _|reflexivity]. split; [exact Hsender|]. split; [|lia].
           right. right. exists k. split; [reflexivity | exact Hfmt].
      * split; [discriminate|]. intros [_ [[Hnone|[Hempty|[k' [Hk' Hfmt']]]] _]].
        -- discriminate Hnone.
        -- injection Hempty as ->. contradiction.
        -- injection Hk' as <-. apply test_key_format_spec in Hfmt'. congruence.
  - destruct (Z.gtb_spec (Z.abs (clk' O - clk 1%nat)) MAX_TIME_DIFF) as [Hlate|Hok];
      unfold MAX_TIME_DIFF in *; simpl.
    + split; [discriminate | intros [_ [_ Ht]]; lia].
    + split; [intros _|reflexivity]. split; [exact Hsender|]. split; [|lia].
      left. reflexivity.
Qed.
End DHTProtocolMore.

(** * Routing table: further properties *)

Lemma reachable_tableInv (table : KBucket) : reachable table -> tableInv table.
Proof.
  intros [id [k [n [clk [ops [clk' [Hk [Hn Hrun]]]]]]]].
  destruct (newKBucket_tableInv id k n clk Hk Hn) as [Hinv0 _].
  destruct (runOps_tableInv ops _ (newKBucket id k n clk).2 Hinv0)
    as [t [c [Heq [_ [_ Hinv]]]]].
  rewrite Hrun in Heq. injection Heq as <- <-. exact Hinv.
Qed.

Lemma reachable_emptyTable : reachable emptyTable.
Proof.
  exists idZero, None, None, (evalClock 0), [], (newKBucket idZero None None (evalClock 0)).2.
  split; [simpl; lia|]. split; [simpl; lia | reflexivity].
Qed.

Lemma reachable_twoPeers : reachable twoPeers.
Proof.
  unfold twoPeers.
  destruct (runOps [AddPeer (peerWithId idTop 0); AddPeer (peerWithId idTopNext 0)]
              (newKBucket idZero None None (evalClock 0)).1
              (newKBucket idZero None None (evalClock 0)).2) as [[table clk']|e] eqn:Hrun.
  - exists idZero, None, None, (evalClock 0),
      [AddPeer (peerWithId idTop 0); AddPeer (peerWithId idTopNext 0)], clk'.
    split; [simpl; lia|]. split; [simpl; lia | exact Hrun].
  - exact reachable_emptyTable.
Qed.

Lemma getAllPeers_concat (self : KBucket) :
  getAllPeers self = concat (map peers (buckets self)).
Proof.
  unfold getAllPeers.
  assert (Hgen : forall (l : list Bucket) (acc : list PeerInfo),
             fold_left (fun acc bucket => acc ++ peers bucket) l acc
             = acc ++ concat (map peers l)).
  { induction l as [|b l IH]; intros acc; simpl; [rewrite app_nil_r; reflexivity|].
    rewrite IH, app_assoc. reflexivity. }
  apply (Hgen (buckets self) []).
Qed.

Lemma KBucket_size_sum (l : list Bucket) (acc : Z) :
  fold_left (fun total bucket => total + Z.of_nat (length (peers bucket))) l acc
  = acc + Z.of_nat (length (concat (map peers l))).
Proof.
  revert acc. induction l as [|b l IH]; intros acc; simpl; [lia|].
  rewrite IH, length_app. lia.
Qed.

(** X10. The three counts of the table agree: [size()] is the number of
    peers that [getAllPeers()] returns, [getBucketStats().totalPeers] is the
    same number, and [getBucketStats().bucketSize] has one entry per
    bucket, the number of its peers. *)
Theorem size_counts_all_peers (self : KBucket) :
  KBucket_size self = Z.of_nat (length (getAllPeers self))
  /\ (getBucketStats self).2 = KBucket_size self
  /\ length (getBucketStats self).1 = length (buckets self)
  /\ forall (b : nat) (bucket : Bucket),
       buckets self !! b = Some bucket ->
       (getBucketStats self).1 !! b = Some (Z.of_nat (length (peers bucket))).
Proof.
  split; [|split; [|split]].
  - unfold KBucket_size. rewrite KBucket_size_sum, getAllPeers_concat. lia.
  - unfold getBucketStats, KBucket_size. simpl.
    generalize 0. induction (buckets self) as [|b l IH]; intros acc; simpl; [reflexivity|].
    apply IH.
  - unfold getBucketStats. simpl. apply length_map.
  - intros b bucket Hb. unfold getBucketStats. simpl.
    change (map (fun bucket0 => Z.of_nat (length (peers bucket0))) (buckets self))
      with ((fun bucket0 => Z.of_nat (length (peers bucket0))) <$> buckets self).
    rewrite list_lookup_fmap, Hb. reflexivity.
Qed.

Lemma concat_length_bound (l : list Bucket) (k : Z) :
  0 <= k ->
  Forall (fun bucket => Z.of_nat (length (peers bucket)) <= k) l ->
  Z.of_nat (length (concat (map peers l))) <= k * Z.of_nat (length l).
Proof.
  intros Hk. induction 1 as [|b l Hb _ IH]; simpl; [lia|].
  rewrite length_app. lia.
Qed.

(** X11. A table reached from a new one never holds more than
    [kSize * numberOfBuckets] peers. *)
Theorem size_bounded (table : KBucket) :
  reachable table ->
  0 <= KBucket_size table <= kSize table * Z.of_nat (numberOfBuckets table).
Proof.
  intros Hreach. apply reachable_tableInv in Hreach as [[Hlen _] [Hk Hinv]].
  unfold KBucket_size. rewrite KBucket_size_sum. split; [lia|].
  rewrite <- Hlen. rewrite Z.add_0_l. apply concat_length_bound; [exact Hk|].
  apply Forall_lookup. intros b bucket Hb. apply (Hinv b bucket Hb).
Qed.

Lemma size_bounded_witness :
  0 <= KBucket_size twoPeers <= kSize twoPeers * Z.of_nat (numberOfBuckets twoPeers).
Proof. apply size_bounded. exact reachable_twoPeers. Defined.

Lemma elem_of_getAllPeers (self : KBucket) (p : PeerInfo) :
  p ∈ getAllPeers self
  <-> exists (b : nat) (bucket : Bucket), buckets self !! b = Some bucket /\ p ∈ peers bucket.
Proof.
  rewrite getAllPeers_concat. split.
  - intros Hin. apply list_elem_of_In, in_concat in Hin as [l [Hl Hp]].
    apply in_map_iff in Hl as [bucket [<- Hb]].
    apply list_elem_of_In, list_elem_of_lookup in Hb as [b Hb].
    exists b, bucket. split; [exact Hb | apply list_elem_of_In, Hp].
  - intros [b [bucket [Hb Hp]]]. apply list_elem_of_In, in_concat.
    exists (peers bucket). split; [|apply list_elem_of_In, Hp].
    apply in_map, list_elem_of_In. eapply list_elem_of_lookup_2. exact Hb.
Qed.

Lemma find_hasId_NoDup (id : string) (l : list PeerInfo) (p : PeerInfo) :
  NoDup (map peer_id l) -> p ∈ l -> peer_id p = id ->
  List.find (hasId id) l = Some p.
Proof.
  intros Hnd Hin Hid. induction l as [|q l IH]; [apply elem_of_nil in Hin; destruct Hin|].
  simpl in Hnd. apply NoDup_cons in Hnd as [Hq Hnd]. simpl. unfold hasId at 1.
  apply elem_of_cons in Hin as [->|Hin].
  - rewrite Hid, String.eqb_refl. reflexivity.
  - destruct (String.eqb_spec (peer_id q) id) as [Heq|Hne]; [|apply IH; assumption].
    exfalso. apply Hq. rewrite Heq, <- Hid.
    apply list_elem_of_fmap. exists p. split; [reflexivity | exact Hin].
Qed.

Lemma bucketAt_lookup (self : KBucket) (peerId : string) (bucket : Bucket) :
  wfTable self ->
  (bucketAt self (getBucketIndex self peerId) = Some bucket
   <-> buckets self !! Z.to_nat (getBucketIndex self peerId) = Some bucket).
Proof.
  intros [_ Hn]. pose proof (getBucketIndex_range self peerId Hn) as Hr.
  unfold bucketAt. destruct (Z.ltb_spec (getBucketIndex self peerId) 0); [lia|]. reflexivity.
Qed.

(** X12. On a table that a new table of capacity 0 or more and with at
    least 256 buckets becomes by calls of [addPeer] and [removePeer],
    [getPeer] does not throw, and it returns a peer exactly when that peer
    is among [getAllPeers()] and has the id that was asked for. *)
Theorem getPeer_finds_exactly_the_stored_peer (table : KBucket) (peerId : string)
    (p : PeerInfo) :
  reachable table ->
  (exists r, getPeer peerId table = Ok r)
  /\ (getPeer peerId table = Ok (Some p)
      <-> p ∈ getAllPeers table /\ peer_id p = peerId).
Proof.
  intros Hreach. apply reachable_tableInv in Hreach as [Hwf [Hk Hinv]].
  destruct (bucketAt_wf table peerId Hwf) as [bucket Hbucket].
  unfold getPeer. rewrite Hbucket. split; [eexists; reflexivity|].
  pose proof (proj1 (bucketAt_lookup table peerId bucket Hwf) Hbucket) as Hb.
  destruct (Hinv _ _ Hb) as [Hnd [_ Hidx]].
  split.
  - intros Heq. injection Heq as Hfind.
    apply List.find_some in Hfind as [Hin Hid].
    apply String.eqb_eq in Hid. split; [|exact Hid].
    apply elem_of_getAllPeers. eexists _, bucket. split; [exact Hb|].
    apply list_elem_of_In. exact Hin.
  - intros [Hin Hid]. f_equal.
    apply elem_of_getAllPeers in Hin as [b' [bucket' [Hb' Hp]]].
    destruct (Hinv _ _ Hb') as [_ [_ Hidx']].
    rewrite Forall_forall in Hidx'. pose proof (Hidx' p Hp) as Hpb. rewrite Hid in Hpb.
    assert (b' = Z.to_nat (getBucketIndex table peerId)) by lia. subst b'.
    assert (bucket' = bucket) by congruence. subst bucket'.
    apply (find_hasId_NoDup peerId); assumption.
Qed.

Lemma getPeer_finds_exactly_the_stored_peer_witness :
  getPeer idTop twoPeers = Ok (Some (peerWithId idTop 512))
  <-> peerWithId idTop 512 ∈ getAllPeers twoPeers /\ peer_id (peerWithId idTop 512) = idTop.
Proof.
  apply (getPeer_finds_exactly_the_stored_peer twoPeers idTop (peerWithId idTop 512)).
  exact reachable_twoPeers.
Defined.

Lemma find_insert_first {A} (f : A -> bool) (l : list A) :
  forall (i : nat) (x : A),
    (i < length l)%nat -> f x = true ->
    (forall j y, (j < i)%nat -> l !! j = Some y -> f y = false) ->
    List.find f (<[i := x]> l) = Some x.
Proof.
  induction l as [|y l IH]; intros i x Hi Hx Hbefore; [simpl in Hi; lia|].
  destruct i as [|i]; simpl.
  - rewrite Hx. reflexivity.
  - rewrite (Hbefore O y ltac:(lia) eq_refl).
    apply IH; [simpl in Hi; lia | exact Hx|].
    intros j z Hj Hz. apply (Hbefore (S j) z); [lia | exact Hz].
Qed.

Lemma find_none_Forall {A} (f : A -> bool) (l : list A) :
  Forall (fun x => f x = false) l -> List.find f l = None.
Proof. induction 1 as [|x l Hx _ IH]; simpl; [reflexivity|]. rewrite Hx. exact IH. Qed.

Lemma find_app_last {A} (f : A -> bool) (l : list A) (x : A) :
  Forall (fun y => f y = false) l -> f x = true -> List.find f (l ++ [x]) = Some x.
Proof.
  induction 1 as [|y l Hy _ IH]; intros Hx; simpl; [rewrite Hx; reflexivity|].
  rewrite Hy. apply IH, Hx.
Qed.

Lemma absent_hasId (p : PeerInfo) (old : list PeerInfo) :
  Forall (fun q => peer_id q <> peer_id p) old ->
  Forall (fun q => hasId (peer_id p) q = false) old.
Proof.
  intros Habs. eapply Forall_impl; [exact Habs|]. intros q Hq.
  unfold hasId. apply String.eqb_neq. exact Hq.
Qed.

(** X13. [addPeer(p)] on a table that has the bucket of [p] does not throw,
    and afterwards: if the id of [p] was in that bucket, or the bucket had
    room, [getPeer(p.id)] returns [p] with its [lastSeen] set to the first
    reading of the clock; if the id was not in the bucket, the bucket was
    full and one of its peers was last seen more than an hour before the
    first reading, [getPeer(p.id)] returns [p] with its [lastSeen] set to
    the second reading; if the id was not in the bucket, the bucket was
    full and none of its peers was last seen more than an hour before, [p]
    is dropped: [getPeer(p.id)] returns [null] and [getAllPeers()] is what
    it was. *)
Theorem addPeer_then_getPeer (p : PeerInfo) (self : KBucket) (clk : Clock)
    (bucket : Bucket) :
  bucketAt self (getBucketIndex self (peer_id p)) = Some bucket ->
  exists self' clk',
    addPeer p self clk = Ok (self', clk')
    /\ (Exists (fun q => peer_id q = peer_id p) (peers bucket)
        \/ Z.of_nat (length (peers bucket)) < kSize self ->
        getPeer (peer_id p) self' = Ok (Some (seenAt p (clk O))))
    /\ (Forall (fun q => peer_id q <> peer_id p) (peers bucket) ->
        kSize self <= Z.of_nat (length (peers bucket)) ->
        (Exists (stale (clk O)) (peers bucket) ->
         getPeer (peer_id p) self' = Ok (Some (seenAt p (clk 1%nat))))
        /\ (Forall (fun q => ~ stale (clk O) q) (peers bucket) ->
            getPeer (peer_id p) self' = Ok None
            /\ getAllPeers self' = getAllPeers self)).
Proof.
  intros Hbucket.
  destruct (addPeer_outcome p self clk bucket Hbucket) as [peers' [clk1 [Heq Hout]]].
  eexists _, _. split; [exact Heq|].
  assert (Hget : forall new,
             getPeer (peer_id p) (setBucket self (getBucketIndex self (peer_id p)) new)
             = Ok (List.find (hasId (peer_id p)) (peers new))).
  { intros new. unfold getPeer.
    change (getBucketIndex (setBucket self (getBucketIndex self (peer_id p)) new) (peer_id p))
      with (getBucketIndex self (peer_id p)).
    rewrite (bucketAt_setBucket self _ bucket) by exact Hbucket.
    destruct (decide _); [reflexivity | contradiction]. }
  rewrite Hget. simpl.
  assert (Hid : forall t, hasId (peer_id p) (seenAt p t) = true)
    by (intros t; unfold hasId; simpl; apply String.eqb_refl).
  assert (Hclash : forall (A : Type) (Q : A -> Prop) (l : list A),
             Forall (fun x => ~ Q x) l -> Exists Q l -> False).
  { intros A Q l Hall Hex. apply Exists_exists in Hex as [x [Hx HQ]].
    rewrite Forall_forall in Hall. exact (Hall x Hx HQ). }
  assert (Hat : forall (Q : PeerInfo -> Prop) (i : nat),
             firstAt Q (peers bucket) i -> Exists Q (peers bucket)).
  { intros Q i [[q [Hq HQ]] _]. apply Exists_exists. exists q.
    split; [eapply list_elem_of_lookup_2; exact Hq | exact HQ]. }
  destruct Hout as [i Hi|Habs Hroom|i Habs Hfull Hi|Habs Hfull Hfresh].
  - split.
    + intros _. f_equal. destruct Hi as [[q [Hq Hqid]] Hfirst].
      apply find_insert_first; [eapply lookup_lt_Some; exact Hq | apply Hid|].
      intros j y Hj Hy. unfold hasId. apply String.eqb_neq. exact (Hfirst j y Hj Hy).
    + intros Habs. destruct (Hclash _ _ _ Habs (Hat _ _ Hi)).
  - split.
    + intros _. f_equal. apply find_app_last; [apply absent_hasId, Habs | apply Hid].
    + intros _ Hfull. lia.
  - split.
    + intros [Hin|Hroom]; [destruct (Hclash _ _ _ Habs Hin) | lia].
    + intros _ _. split.
      * intros _. f_equal. destruct Hi as [[q [Hq _]] _].
        apply find_insert_first; [eapply lookup_lt_Some; exact Hq | apply Hid|].
        intros j y Hj Hy. pose proof (absent_hasId p _ Habs) as Hall.
        rewrite Forall_lookup in Hall. exact (Hall j y Hy).
      * intros Hfresh. destruct (Hclash _ _ _ Hfresh (Hat _ _ Hi)).
  - split.
    + intros [Hin|Hroom]; [destruct (Hclash _ _ _ Habs Hin) | lia].
    + intros _ _. split.
      * intros Hstale. destruct (Hclash _ _ _ Hfresh Hstale).
      * intros _. split; [f_equal; exact (find_none_Forall _ _ (absent_hasId p _ Habs))|].
        rewrite !getAllPeers_concat. simpl. f_equal.
        change (map peers (<[Z.to_nat (getBucketIndex self (peer_id p)) :=
                  {| peers := peers bucket; lastUpdated := clk 1%nat |}]> (buckets self)))
          with (peers <$> <[Z.to_nat (getBucketIndex self (peer_id p)) :=
                  {| peers := peers bucket; lastUpdated := clk 1%nat |}]> (buckets self)).
        rewrite list_fmap_insert. simpl. apply list_insert_id.
        rewrite list_lookup_fmap. unfold bucketAt in Hbucket.
        destruct (getBucketIndex self (peer_id p) <? 0); [discriminate|].
        rewrite Hbucket. reflexivity.
Qed.

Lemma addPeer_then_getPeer_witness :
  (exists self' clk',
     addPeer (peerWithId idTop 0) emptyTable (evalClock 0) = Ok (self', clk')
     /\ getPeer idTop self' = Ok (Some (seenAt (peerWithId idTop 0) 0)))
  /\ (exists self' clk',
        addPeer (peerWithId idTopNext 0) fullBucketTable.1 fullBucketTable.2
        = Ok (self', clk')
        /\ getPeer idTopNext self' = Ok None
        /\ getAllPeers self' = getAllPeers fullBucketTable.1).
Proof.
  split.
  - destruct (addPeer_then_getPeer (peerWithId idTop 0) emptyTable (evalClock 0)
                {| peers := []; lastUpdated := 256 |})
      as [self' [clk' [Heq [Hroom _]]]]; [vm_compute; reflexivity|].
    exists self', clk'. split; [exact Heq|].
    apply Hroom. right. vm_compute. reflexivity.
  - destruct (addPeer_then_getPeer (peerWithId idTopNext 0) fullBucketTable.1
                fullBucketTable.2
                {| peers := [seenAt (peerWithId idTop 0) 512]; lastUpdated := 513 |})
      as [self' [clk' [Heq [_ Hfull]]]]; [vm_compute; reflexivity|].
    exists self', clk'. split; [exact Heq|].
    apply Hfull.
    + constructor; [|constructor]. intros Hsame.
      apply (f_equal (fun s => String.get 0 s)) in Hsame. vm_compute in Hsame.
      discriminate Hsame.
    + vm_compute. discriminate.
    + constructor; [|constructor]. vm_compute. intros Hgt. discriminate Hgt.
Defined.

Lemma filter_concat_map (f : PeerInfo -> bool) (ls : list (list PeerInfo)) :
  List.filter f (concat ls) = concat (map (List.filter f) ls).
Proof.
  induction ls as [|l ls IH]; simpl; [reflexivity|].
  rewrite List.filter_app, IH. reflexivity.
Qed.

Lemma filter_all_true {A} (f : A -> bool) (l : list A) :
  Forall (fun x => f x = true) l -> List.filter f l = l.
Proof. induction 1 as [|x l Hx _ IH]; simpl; [reflexivity|]. rewrite Hx, IH. reflexivity. Qed.

Lemma delete_first_filter (id : string) (l : list PeerInfo) :
  forall i,
    NoDup (map peer_id l) ->
    firstAt (fun q => hasId id q = true) l i ->
    delete i l = List.filter (fun q => negb (hasId id q)) l.
Proof.
  induction l as [|y l IH]; intros i Hnd [[x [Hx Hfx]] Hfirst]; [discriminate Hx|].
  simpl in Hnd. apply NoDup_cons in Hnd as [Hy Hnd].
  destruct i as [|i]; simpl.
  - simpl in Hx. injection Hx as <-. rewrite Hfx. simpl.
    symmetry. apply filter_all_true. apply Forall_forall. intros q Hq.
    unfold hasId in *. apply String.eqb_eq in Hfx.
    destruct (String.eqb_spec (peer_id q) id) as [Heq|]; [|reflexivity].
    exfalso. apply Hy. rewrite Hfx, <- Heq.
    apply list_elem_of_fmap. exists q. split; [reflexivity | exact Hq].
  - assert (Hfy : hasId id y = false).
    { destruct (hasId id y) eqn:Hh; [|reflexivity].
      exfalso. exact (Hfirst O y ltac:(lia) eq_refl Hh). }
    rewrite Hfy. simpl. f_equal. apply IH; [exact Hnd|]. split.
    + exists x. split; [exact Hx | exact Hfx].
    + intros j z Hj Hz. apply (Hfirst (S j) z); [lia | exact Hz].
Qed.

(** What [removePeer] does to a table that satisfies the invariant. *)
Lemma removePeer_effect (peerId : string) (self : KBucket) (clk : Clock) :
  tableInv self ->
  exists self' clk',
    removePeer peerId self clk = Ok (self', clk')
    /\ tableInv self'
    /\ getAllPeers self' = List.filter (fun q => negb (hasId peerId q)) (getAllPeers self)
    /\ (Forall (fun q => hasId peerId q = false) (getAllPeers self) ->
        self' = self /\ clk' = clk).
Proof.
  intros Hinv.
  destruct (removePeer_tableInv peerId self clk Hinv) as [self' [clk' [Heq [_ [_ Hinv']]]]].
  exists self', clk'. split; [exact Heq|]. split; [exact Hinv'|].
  pose proof Hinv as [Hwf [Hk Hbuckets]].
  destruct (bucketAt_wf self peerId Hwf) as [bucket Hbucket].
  pose proof (proj1 (bucketAt_lookup self peerId bucket Hwf) Hbucket) as Hb.
  assert (Hothers : forall (b : nat) (other : Bucket),
             buckets self !! b = Some other -> b <> Z.to_nat (getBucketIndex self peerId) ->
             List.filter (fun q => negb (hasId peerId q)) (peers other) = peers other).
  { intros b other Hother Hne. apply filter_all_true.
    destruct (Hbuckets b other Hother) as [_ [_ Hidx]].
    eapply Forall_impl; [exact Hidx|]. intros q Hq. simpl in Hq. unfold hasId.
    destruct (String.eqb_spec (peer_id q) peerId) as [Hid|]; [|reflexivity].
    exfalso. rewrite Hid in Hq. destruct Hwf as [_ Hn].
    pose proof (getBucketIndex_range self peerId Hn). lia. }
  unfold removePeer in Heq. rewrite Hbucket in Heq.
  fold (hasId peerId) in Heq.
  destruct (findIndex_spec (hasId peerId) (peers bucket)) as [[Hnone Hall]|[Hrange Hfirst]].
  - rewrite Hnone in Heq. simpl in Heq. injection Heq as <- <-.
    assert (Hsame : List.filter (fun q => negb (hasId peerId q)) (getAllPeers self)
                    = getAllPeers self).
    { rewrite getAllPeers_concat, filter_concat_map. f_equal.
      rewrite map_map. apply list_eq. intros b.
      change (map (fun x => List.filter (fun q => negb (hasId peerId q)) (peers x)) (buckets self))
        with ((fun x => List.filter (fun q => negb (hasId peerId q)) (peers x)) <$> buckets self).
      change (map peers (buckets self)) with (peers <$> buckets self).
      rewrite !list_lookup_fmap. destruct (buckets self !! b) as [other|] eqn:Hother;
        [|reflexivity]. simpl. f_equal.
      destruct (decide (b = Z.to_nat (getBucketIndex self peerId))) as [->|Hne].
      - assert (other = bucket) by congruence. subst other.
        apply filter_all_true. eapply Forall_impl; [exact Hall|].
        intros q Hq. simpl in Hq. rewrite Hq. reflexivity.
      - apply (Hothers b other Hother Hne). }
    split; [symmetry; exact Hsame|]. intros _. split; reflexivity.
  - destruct (Z.eqb_spec (findIndex (hasId peerId) (peers bucket)) (-1)) as [Hm|Hm]; [lia|].
    simpl in Heq. injection Heq as <- <-. split.
    + rewrite !getAllPeers_concat, filter_concat_map. f_equal. simpl.
      rewrite map_map. apply list_eq. intros b.
      change (map peers (<[Z.to_nat (getBucketIndex self peerId) :=
                {| peers := delete (Z.to_nat (findIndex (hasId peerId) (peers bucket)))
                              (peers bucket);
                   lastUpdated := clk O |}]> (buckets self)))
        with (peers <$> <[Z.to_nat (getBucketIndex self peerId) :=
                {| peers := delete (Z.to_nat (findIndex (hasId peerId) (peers bucket)))
                              (peers bucket);
                   lastUpdated := clk O |}]> (buckets self)).
      change (map (fun x => List.filter (fun q => negb (hasId peerId q)) (peers x)) (buckets self))
        with ((fun x => List.filter (fun q => negb (hasId peerId q)) (peers x)) <$> buckets self).
      rewrite !list_lookup_fmap.
      destruct (decide (b = Z.to_nat (getBucketIndex self peerId))) as [->|Hne].
      * rewrite list_lookup_insert_eq by (eapply lookup_lt_Some; exact Hb).
        rewrite Hb. simpl. f_equal.
        destruct (Hbuckets _ _ Hb) as [Hnd _].
        apply delete_first_filter; assumption.
      * rewrite list_lookup_insert_ne by lia.
        destruct (buckets self !! b) as [other|] eqn:Hother; [|reflexivity].
        simpl. f_equal. symmetry. apply (Hothers b other Hother Hne).
    + intros Habsent. exfalso.
      destruct Hfirst as [[q [Hq Hfq]] _].
      assert (Hin : q ∈ getAllPeers self).
      { apply elem_of_getAllPeers. eexists _, bucket. split; [exact Hb|].
        eapply list_elem_of_lookup_2. exact Hq. }
      rewrite Forall_forall in Habsent. rewrite (Habsent q Hin) in Hfq. discriminate.
Qed.

Lemma filter_negb_twice {A} (f : A -> bool) (l : list A) :
  Forall (fun x => f x = false) (List.filter (fun x => negb (f x)) l).
Proof.
  apply Forall_forall. intros x Hx. apply list_elem_of_In, List.filter_In in Hx as [_ Hx].
  destruct (f x); [discriminate | reflexivity].
Qed.

(** X14. On a table that a new table of capacity 0 or more and with at
    least 256 buckets becomes by calls of [addPeer] and [removePeer],
    [removePeer(id)] takes away the peer with that id and no other:
    [getAllPeers()] loses exactly the peers with the id, and [getPeer(id)]
    returns [null] afterwards. It is idempotent: a second [removePeer(id)]
    changes nothing and does not even read the clock. *)
Theorem removePeer_removes_and_is_idempotent (peerId : string) (table : KBucket)
    (clk : Clock) :
  reachable table ->
  exists table' clk',
    removePeer peerId table clk = Ok (table', clk')
    /\ getAllPeers table'
       = List.filter (fun q => negb (String.eqb (peer_id q) peerId)) (getAllPeers table)
    /\ getPeer peerId table' = Ok None
    /\ removePeer peerId table' clk' = Ok (table', clk').
Proof.
  intros Hreach. apply reachable_tableInv in Hreach.
  destruct (removePeer_effect peerId table clk Hreach)
    as [table' [clk' [Heq [Hinv' [Hall _]]]]].
  exists table', clk'. split; [exact Heq|]. split; [exact Hall|].
  assert (Hgone : Forall (fun q => hasId peerId q = false) (getAllPeers table')).
  { rewrite Hall. apply filter_negb_twice. }
  split.
  - pose proof Hinv' as [Hwf' _].
    destruct (bucketAt_wf table' peerId Hwf') as [bucket Hbucket].
    unfold getPeer. rewrite Hbucket. f_equal. apply find_none_Forall.
    apply Forall_forall. intros q Hq. rewrite Forall_forall in Hgone. apply Hgone.
    apply elem_of_getAllPeers. eexists _, bucket.
    split; [apply (bucketAt_lookup table' peerId bucket Hwf'); exact Hbucket | exact Hq].
  - destruct (removePeer_effect peerId table' clk' Hinv')
      as [t2 [c2 [Heq2 [_ [_ Hsame]]]]].
    destruct (Hsame Hgone) as [-> ->]. exact Heq2.
Qed.

Lemma removePeer_removes_and_is_idempotent_witness :
  exists table' clk',
    removePeer idTop twoPeers (evalClock 0) = Ok (table', clk')
    /\ getPeer idTop table' = Ok None.
Proof.
  destruct (removePeer_removes_and_is_idempotent idTop twoPeers (evalClock 0)
              reachable_twoPeers) as [table' [clk' [Heq [_ [Hget _]]]]].
  exists table', clk'. split; [exact Heq | exact Hget].
Defined.

Lemma runOps_remove_all (ids : list string) :
  forall (self : KBucket) (clk : Clock),
    tableInv self ->
    Forall (fun q => peer_id q ∈ ids) (getAllPeers self) ->
    exists self' clk',
      runOps (map RemovePeer ids) self clk = Ok (self', clk')
      /\ getAllPeers self' = [].
Proof.
  induction ids as [|id ids IH]; intros self clk Hinv Hall; simpl.
  - exists self, clk. split; [reflexivity|].
    destruct (getAllPeers self) as [|q l]; [reflexivity|].
    apply Forall_cons in Hall as [Hq _]. apply elem_of_nil in Hq. destruct Hq.
  - destruct (removePeer_effect id self clk Hinv) as [s1 [c1 [Heq [Hinv1 [Hall1 _]]]]].
    rewrite Heq. apply IH; [exact Hinv1|].
    rewrite Hall1. apply Forall_forall. intros q Hq.
    apply list_elem_of_In, List.filter_In in Hq as [Hq Hne].
    rewrite Forall_forall in Hall. specialize (Hall q (proj2 (list_elem_of_In _ _) Hq)).
    apply elem_of_cons in Hall as [Hid|Hin]; [|exact Hin].
    unfold hasId in Hne. rewrite Hid, String.eqb_refl in Hne. discriminate.
Qed.

(** X15. On a table that a new table of capacity 0 or more and with at
    least 256 buckets becomes by calls of [addPeer] and [removePeer],
    removing every peer that [getAllPeers()] returns, one after the other,
    as [DHTNetwork.stop] does through [disconnectFromPeer], leaves a table
    without peers: no call throws, and [size()] is 0 afterwards. *)
Theorem removing_all_peers_empties_the_table (table : KBucket) (clk : Clock) :
  reachable table ->
  exists table' clk',
    runOps (map (fun p => RemovePeer (peer_id p)) (getAllPeers table)) table clk
    = Ok (table', clk')
    /\ getAllPeers table' = []
    /\ KBucket_size table' = 0.
Proof.
  intros Hreach. apply reachable_tableInv in Hreach.
  destruct (runOps_remove_all (map peer_id (getAllPeers table)) table clk Hreach)
    as [table' [clk' [Heq Hempty]]].
  - apply Forall_forall. intros q Hq. apply list_elem_of_fmap.
    exists q. split; [reflexivity | exact Hq].
  - exists table', clk'. rewrite map_map in Heq. split; [exact Heq|].
    split; [exact Hempty|].
    unfold KBucket_size. rewrite KBucket_size_sum, <- getAllPeers_concat, Hempty.
    reflexivity.
Qed.

Lemma removing_all_peers_empties_the_table_witness :
  exists table' clk',
    runOps (map (fun p => RemovePeer (peer_id p)) (getAllPeers twoPeers)) twoPeers
      (evalClock 0) = Ok (table', clk')
    /\ getAllPeers table' = []
    /\ KBucket_size table' = 0.
Proof. apply removing_all_peers_empties_the_table. exact reachable_twoPeers. Defined.

(** X16. For a count of 0 or more, [getClosestPeers(key, count)] returns
    [count] peers, or all of them if the table has fewer, in ascending order
    of their distance to the key; with the peers that it leaves out they are
    the peers of the table, and no peer that is left out is closer to the
    key than one that is returned. Without a count, the count is [kSize]. *)
Theorem getClosestPeers_returns_the_nearest (key : string) (count : option Z)
    (self : KBucket) :
  0 <= default (kSize self) count ->
  let result := getClosestPeers key count self in
  length result
  = Nat.min (Z.to_nat (default (kSize self) count)) (length (getAllPeers self))
  /\ StronglySorted (fun a b => distanceTo key a <= distanceTo key b) result
  /\ exists rest,
       result ++ rest ≡ₚ getAllPeers self
       /\ forall p q, p ∈ result -> q ∈ rest -> distanceTo key p <= distanceTo key q.
Proof.
  intros Hcount result. subst result. unfold getClosestPeers, Array_slice, clamp_pos.
  set (n := default (kSize self) count) in *.
  set (sorted := sortByDistance (getAllPeers self) key).
  assert (Hperm : sorted ≡ₚ getAllPeers self) by apply Array_sort_perm.
  assert (Hsorted : StronglySorted (fun a b => distanceTo key a <= distanceTo key b) sorted).
  { apply (Array_sort_sorted _ (distanceTo key)). intros x y. apply compare_distance_key. }
  clearbody n sorted. change (0 <? 0) with false. cbv iota.
  destruct (Z.ltb_spec n 0) as [Hneg|_]; [lia|].
  rewrite (Z.min_l 0) by lia. change (Z.to_nat 0) with 0%nat. rewrite drop_0, Z.sub_0_r.
  pose proof (Permutation_length Hperm) as Hlen.
  remember (Z.to_nat (Z.min n (Z.of_nat (length sorted)))) as k eqn:Hk.
  rewrite <- (take_drop k sorted) in Hsorted.
  split; [|split].
  - rewrite length_take. lia.
  - eapply StronglySorted_app_1_l. exact Hsorted.
  - exists (drop k sorted). split; [rewrite take_drop; exact Hperm|].
    intros p q Hp Hq. exact (StronglySorted_app_1_elem_of _ _ _ _ _ Hsorted Hp Hq).
Qed.

Lemma getClosestPeers_returns_the_nearest_witness :
  length (getClosestPeers idTopNext (Some 1) twoPeers)
  = Nat.min (Z.to_nat 1) (length (getAllPeers twoPeers)).
Proof.
  apply (getClosestPeers_returns_the_nearest idTopNext (Some 1) twoPeers). simpl. lia.
Defined.

(** X17. A table that is made with fewer than 256 buckets has no bucket for
    the peers nearest to its own id. For ids in wire form, [addPeer] and
    [getPeer] throw a TypeError exactly when the table has no bucket at
    all, or the XOR of the peer's id and the node's id is not 0 and is below
    2^(256 - numberOfBuckets). The XOR is 0 exactly for the node's own id,
    which goes to the last bucket. With 256 buckets or more nothing
    throws. *)
Theorem small_table_has_no_bucket_for_near_peers (id : string) (k : option Z) (n : nat)
    (clk clk' : Clock) (peer : PeerInfo) :
  isKey64 id -> isKey64 (peer_id peer) ->
  let table := (newKBucket id k (Some n) clk).1 in
  let d := Z.lxor (hexValue id) (hexValue (peer_id peer)) in
  let thrown := TypeError "Cannot read properties of undefined (reading 'peers')" in
  let near := n = 0%nat \/ 0 < d < 2 ^ (256 - Z.of_nat n) in
  (addPeer peer table clk' = Err thrown <-> near)
  /\ (getPeer (peer_id peer) table = Err thrown <-> near)
  /\ (d = 0 <-> peer_id peer = id)
  /\ (d = 0 -> getBucketIndex table (peer_id peer) = Z.of_nat n - 1)
  /\ ((256 <= n)%nat -> ~ near).
Proof.
  intros Hid Hpeer table d thrown near.
  assert (Htable : nodeId table = id /\ numberOfBuckets table = n).
  { subst table. unfold newKBucket. destruct (freshBuckets 256 clk) as [first clk1].
    destruct (freshBuckets (default 256%nat (Some n)) clk1). split; reflexivity. }
  destruct Htable as [Hnode Hcount].
  assert (Hlen : length (buckets table) = n).
  { subst table. unfold newKBucket. destruct (freshBuckets 256 clk) as [first clk1].
    pose proof (freshBuckets_spec (default 256%nat (Some n)) clk1) as [Hl _].
    destruct (freshBuckets (default 256%nat (Some n)) clk1). exact Hl. }
  assert (Hzero : d = 0 <-> peer_id peer = id).
  { split.
    - intros Hd. apply Z.lxor_eq in Hd. symmetry.
      destruct Hid as [Hl1 Hf1], Hpeer as [Hl2 Hf2].
      apply hexValue_inj; [congruence | assumption | assumption | exact Hd].
    - intros Heq. subst d. rewrite Heq. apply Z.lxor_nilpotent. }
  assert (Hown : d = 0 -> getBucketIndex table (peer_id peer) = Z.of_nat n - 1).
  { intros Hd. apply Hzero in Hd. unfold getBucketIndex.
    rewrite Hnode, Hd, distance_self, Hcount. reflexivity. }
  assert (Hbucket : bucketAt table (getBucketIndex table (peer_id peer)) = None <-> near).
  { subst near. destruct (Z.eq_dec d 0) as [Hd|Hd].
    - rewrite (Hown Hd). unfold bucketAt.
      destruct (Z.ltb_spec (Z.of_nat n - 1) 0) as [Hneg|Hpos].
      + split; [intros _; left; lia | reflexivity].
      + rewrite lookup_ge_None, Hlen. lia.
    - destruct (getBucketIndex_value table (peer_id peer)) as [Hrange Hidx];
        [rewrite Hnode; exact Hid | exact Hpeer
         | rewrite Hnode; intros Heq; apply Hd, Hzero; symmetry; exact Heq |].
      rewrite Hnode in Hrange, Hidx. fold d in Hrange, Hidx.
      assert (Hlog : 0 <= Z.log2 d < 256).
      { split; [apply Z.log2_nonneg|]. apply Z.log2_lt_pow2; lia. }
      assert (Hnear : d < 2 ^ (256 - Z.of_nat n) <-> Z.of_nat n <= 255 - Z.log2 d).
      { rewrite Z.log2_lt_pow2 by lia. lia. }
      rewrite Hidx. unfold bucketAt.
      destruct (Z.ltb_spec (255 - Z.log2 d) 0) as [Hneg|_]; [lia|].
      rewrite lookup_ge_None, Hlen. split.
      + intros Hge. right. split; [lia|]. apply Hnear. lia.
      + intros [->|[_ Hlt]]; [lia|]. apply Hnear in Hlt. lia. }
  split; [|split; [|split; [exact Hzero|split; [exact Hown|]]]].
  - rewrite <- Hbucket. unfold addPeer.
    destruct (bucketAt table (getBucketIndex table (peer_id peer))) as [bucket|].
    + split; [|discriminate].
      destruct (negb _); [destruct (Date_now clk')|destruct (addPeerToBucket _ _ _ _)];
        destruct (Date_now _); discriminate.
    + split; reflexivity.
  - rewrite <- Hbucket. unfold getPeer.
    destruct (bucketAt table (getBucketIndex table (peer_id peer))) as [bucket|].
    + split; discriminate.
    + split; reflexivity.
  - intros Hbig [->|[Hpos Hlt]]; [lia|].
    assert (2 ^ (256 - Z.of_nat n) <= 2 ^ 0) by (apply Z.pow_le_mono_r; lia).
    change (2 ^ 0) with 1 in *. lia.
Qed.

Lemma small_table_has_no_bucket_for_near_peers_witness :
  (addPeer (peerWithId idOne 0) (newKBucket idZero None (Some 255%nat) (evalClock 0)).1
     (evalClock 0)
   = Err (TypeError "Cannot read properties of undefined (reading 'peers')"))
  /\ getPeer idZero (newKBucket idZero None (Some 255%nat) (evalClock 0)).1
     <> Err (TypeError "Cannot read properties of undefined (reading 'peers')").
Proof.
  split.
  - apply (small_table_has_no_bucket_for_near_peers idZero None 255 (evalClock 0)
             (evalClock 0) (peerWithId idOne 0)).
    + exact isKey64_idZero.
    + apply test_key_format_spec. vm_compute. reflexivity.
    + right. vm_compute. split; reflexivity.
  - destruct (small_table_has_no_bucket_for_near_peers idZero None 255 (evalClock 0)
                (evalClock 0) (peerWithId idZero 0) isKey64_idZero isKey64_idZero)
      as [_ [Hget _]].
    intros Hthrown. apply Hget in Hthrown as [Hnone|[Hpos _]]; [discriminate Hnone|].
    vm_compute in Hpos. discriminate Hpos.
Defined.

(** * Storage manager: further properties *)

Section StorageManagerMoreProofs.
Context {P : Type} `{SP : StorageProvider P} `{SM : StorageProviderMore P}.

(** The first part of [retrieve] is [getMetadata]. *)
Lemma getMetadata_lookup (id : string) (m : StorageManager (P := P)) :
  getMetadata id m = lookupMetadata id m.
Proof.
  unfold getMetadata, lookupMetadata, bind.
  destruct (cacheGet id m) as [[[cached|]|e] m1]; try reflexivity.
  destruct (findMetadata id m1) as [[[found|]|e] m2]; reflexivity.
Qed.

(** With a location in every chunk, [retrieveFrom] fails in two ways
    only. *)
Lemma retrieveFrom_Err_located (id : string) (preferred : option string)
    (metadata : StorageMetadata) (m m' : StorageManager (P := P)) (e : Error) :
  located metadata ->
  retrieveFrom id preferred metadata m = (Err e, m') ->
  e = NO_PROVIDERS_for_retrieval \/ e = RETRIEVE_ERROR.
Proof.
  intros Hlocated. unfold retrieveFrom, bind, getProvidersForMetadata.
  rewrite (filterProviders_located metadata (providers m) Hlocated).
  destruct (length (candidatesFor metadata (providers m)) =? 0)%nat.
  { unfold throw. intros Heq. injection Heq as <- _. left. reflexivity. }
  assert (Hloop : forall (m0 : StorageManager (P := P)) names,
             retrieve_loop names id metadata None m0 = (Err e, m') ->
             e = NO_PROVIDERS_for_retrieval \/ e = RETRIEVE_ERROR).
  { intros m0 names Hl. apply retrieve_loop_Err in Hl as [-> _]. right. reflexivity. }
  destruct (falsy preferred); [apply Hloop|].
  destruct (providerState (providers m) (default "" preferred)); [|apply Hloop].
  unfold try_catch.
  destruct (call (default "" preferred) (fun p => provider_retrieve p id) m)
    as [[data|e1] m1]; [discriminate | apply Hloop].
Qed.

(** X18. [retrieve] fails with one of four errors, and a failed [retrieve]
    emits no event. NOT_FOUND means that the id was not in the cache and is
    not there afterwards. With the other three the metadata of the id is in
    the cache afterwards: they are NO_PROVIDERS, RETRIEVE_ERROR and, only
    when a chunk of that metadata has no location, the TypeError of reading
    the storage type of a location that is not there. *)
Theorem retrieve_fails_with_one_of_four_errors (id : string)
    (preferred : option string) (m m' : StorageManager (P := P)) (e : Error) :
  retrieve id preferred m = (Err e, m') ->
  emitted m' = emitted m
  /\ ((e = NOT_FOUND /\ metadataCache m !! id = None /\ metadataCache m' = metadataCache m)
      \/ (exists md,
            metadataCache m' !! id = Some md
            /\ (e = NO_PROVIDERS_for_retrieval
                \/ e = RETRIEVE_ERROR
                \/ (e = NO_LOCATION /\ ~ located md)))).
Proof.
  assert (Hcodes : forall md (m1 m2 : StorageManager (P := P)),
            retrieveFrom id preferred md m1 = (Err e, m2) ->
            e = NO_PROVIDERS_for_retrieval
            \/ e = RETRIEVE_ERROR
            \/ (e = NO_LOCATION /\ ~ located md)).
  { intros md m1 m2 Hfrom.
    destruct (retrieveFrom_Err id preferred md m1 m2 e Hfrom) as [[->|[->| ->]] _];
      [left; reflexivity | right; left; reflexivity |].
    right. right. split; [reflexivity|]. intros Hlocated.
    destruct (retrieveFrom_Err_located id preferred md m1 m2 _ Hlocated Hfrom)
      as [Heq|Heq]; discriminate Heq. }
  unfold retrieve, bind.
  destruct (lookupMetadata_cases id m)
    as [[md [Hcache ->]]|[[Hcache [m1 [Hfind ->]]]|[Hcache [md [m1 [Hfind ->]]]]]].
  - intros Hfrom.
    pose proof (retrieveFrom_cache id preferred md m) as [Hc _].
    rewrite Hfrom in Hc. simpl in Hc.
    pose proof (Hcodes _ _ _ Hfrom) as Hcode.
    apply retrieveFrom_Err in Hfrom as [_ He].
    split; [exact He|]. right. exists md. split; [rewrite Hc; exact Hcache | exact Hcode].
  - unfold throw. intros Heq. injection Heq as <- <-.
    unfold findMetadata in Hfind.
    pose proof (findMetadata_loop_frame id (map fst (providers m)) m) as [He _].
    pose proof (findMetadata_loop_cache id (map fst (providers m)) m) as [Hc _].
    rewrite Hfind in He, Hc. simpl in He, Hc.
    split; [exact He|]. left. split; [reflexivity|]. split; assumption.
  - intros Hfrom.
    unfold findMetadata in Hfind.
    pose proof (findMetadata_loop_frame id (map fst (providers m)) m) as [He0 _].
    rewrite Hfind in He0. simpl in He0.
    match type of Hfrom with retrieveFrom _ _ _ ?m2 = _ =>
      pose proof (retrieveFrom_cache id preferred md m2) as [Hc _] end.
    rewrite Hfrom in Hc. simpl in Hc.
    pose proof (Hcodes _ _ _ Hfrom) as Hcode.
    apply retrieveFrom_Err in Hfrom as [_ He]. simpl in He.
    split; [congruence|]. right. exists md.
    split; [rewrite Hc; apply lookup_insert_eq | exact Hcode].
Qed.

Lemma getMetadata_cached (id : string) (md : StorageMetadata)
    (m : StorageManager (P := P)) :
  metadataCache m !! id = Some md -> getMetadata id m = (Ok (Some md), m).
Proof.
  intros Hcache. rewrite getMetadata_lookup.
  unfold lookupMetadata, bind, cacheGet. rewrite Hcache. reflexivity.
Qed.

(** X19. [getMetadata] never throws and emits nothing. Metadata that it
    returns is in the cache afterwards, so that the next call for the id
    returns the same without asking any provider; when it returns [null]
    the id is not in the cache and the cache is left as it was. An id that
    is in the cache is answered from there, whatever the providers hold. *)
Theorem getMetadata_caches_what_it_finds (id : string) (m : StorageManager (P := P)) :
  exists r m',
    getMetadata id m = (Ok r, m')
    /\ emitted m' = emitted m
    /\ match r with
       | Some md =>
           metadataCache m' !! id = Some md /\ getMetadata id m' = (Ok (Some md), m')
       | None => metadataCache m !! id = None /\ metadataCache m' = metadataCache m
       end
    /\ match metadataCache m !! id with
       | Some md => r = Some md /\ m' = m
       | None => True
       end.
Proof.
  rewrite getMetadata_lookup.
  destruct (lookupMetadata_cases id m)
    as [[md [Hcache ->]]|[[Hcache [m1 [Hfind ->]]]|[Hcache [md [m1 [Hfind ->]]]]]].
  - exists (Some md), m. split; [reflexivity|]. split; [reflexivity|].
    rewrite Hcache. split; [|split; reflexivity].
    split; [reflexivity | apply getMetadata_cached; exact Hcache].
  - exists None, m1. unfold findMetadata in Hfind.
    pose proof (findMetadata_loop_frame id (map fst (providers m)) m) as [He _].
    pose proof (findMetadata_loop_cache id (map fst (providers m)) m) as [Hc _].
    rewrite Hfind in He, Hc. simpl in He, Hc.
    split; [reflexivity|]. split; [exact He|]. rewrite Hcache.
    split; [split; [reflexivity | exact Hc] | exact I].
  - eexists (Some md), _. unfold findMetadata in Hfind.
    pose proof (findMetadata_loop_frame id (map fst (providers m)) m) as [He _].
    rewrite Hfind in He. simpl in He.
    split; [reflexivity|]. split; [exact He|]. rewrite Hcache.
    split; [|exact I].
    split; [apply lookup_insert_eq | apply getMetadata_cached, lookup_insert_eq].
Qed.

(** *** [store] *)

(** X20. What [store] returns can be asked for at once: after a [store]
    that returned metadata, [getMetadata] for the id of that metadata
    returns the same metadata, from the cache, and [retrieve] for the id
    does not fail with NOT_FOUND. *)
Theorem store_then_getMetadata (schedule : list nat) (request : StorageRequest)
    (m m' : StorageManager (P := P)) (md : StorageMetadata) :
  store schedule request m = (Ok md, m') ->
  getMetadata (md_id md) m' = (Ok (Some md), m')
  /\ forall preferred, (retrieve (md_id md) preferred m').1 <> Err NOT_FOUND.
Proof.
  intros Hstore.
  assert (Hcache : metadataCache m' !! md_id md = Some md).
  { destruct (store_cases schedule request m)
      as [Hnone|[[m1 [Herr _]]|[md1 [m1 [events [replicas [Hok [Hc _]]]]]]]];
      try congruence.
    rewrite Hstore in Hok. injection Hok as <- <-. rewrite Hc. apply lookup_insert_eq. }
  split; [apply getMetadata_cached, Hcache|].
  intros preferred Hnot. unfold retrieve, bind in Hnot.
  destruct (lookupMetadata_cases (md_id md) m') as [[md' [_ Hl]]|[[Hnone _]|[Hnone _]]];
    [|congruence|congruence].
  rewrite Hl in Hnot.
  destruct (retrieveFrom (md_id md) preferred md' m') as [r m2] eqn:Hfrom.
  simpl in Hnot. subst r.
  apply retrieveFrom_Err in Hfrom as [[Hcode|[Hcode|Hcode]] _]; discriminate Hcode.
Qed.

(** X21. [store] fails with NO_PROVIDERS, and then it has done nothing, or
    with STORE_ERROR; in both cases the cache and the emitted events are
    what they were before the call, and the keys of the providers always
    are. *)
Theorem store_failure_leaves_cache_and_events (schedule : list nat)
    (request : StorageRequest) (m m' : StorageManager (P := P)) (e : Error) :
  store schedule request m = (Err e, m') ->
  metadataCache m' = metadataCache m
  /\ emitted m' = emitted m
  /\ map fst (providers m') = map fst (providers m)
  /\ ((e = NO_PROVIDERS_for_strategy /\ m' = m) \/ e = STORE_ERROR).
Proof.
  intros Hstore.
  destruct (store_cases schedule request m)
    as [Hnone|[[m1 [Herr [Hc [He Hk]]]]|[md1 [m1 [events [replicas [Hok _]]]]]]].
  - rewrite Hstore in Hnone. injection Hnone as -> ->.
    repeat split; try reflexivity. left. split; reflexivity.
  - rewrite Hstore in Herr. injection Herr as -> ->.
    repeat split; try assumption. right. reflexivity.
  - congruence.
Qed.

Lemma store_single (schedule : list nat) (request : StorageRequest)
    (m : StorageManager (P := P)) (key : string) :
  getProvidersForStrategy (resolvedStrategy (config m) request) m
  = (Ok (if bool_decide (is_Some (providerState (providers m) key)) then [key] else []), m) ->
  (providerState (providers m) key = None ->
   store schedule request m = (Err NO_PROVIDERS_for_strategy, m))
  /\ (forall name, name <> key ->
        providerState (providers (store schedule request m).2) name
        = providerState (providers m) name)
  /\ (forall md, (store schedule request m).1 = Ok md ->
        emitted (store schedule request m).2
        = emitted m ++ [Stored (md_id md) (md_size md) 1
                          (resolvedStrategy (config m) request)])
  /\ forall p, providerState (providers m) key = Some p ->
       (store schedule request m).1
       = match (provider_store p (req_data request) (req_options request)).1 with
         | Ok md => Ok md
         | Err _ => Err STORE_ERROR
         end.
Proof.
  intros Htargets. unfold store, bind. fold (resolvedStrategy (config m) request).
  rewrite Htargets.
  destruct (providerState (providers m) key) as [p|] eqn:Hp.
  - rewrite bool_decide_true by (eexists; reflexivity).
    unfold try_catch, bind, call. rewrite Hp.
    destruct (provider_store p (req_data request) (req_options request)) as [[md|e] p']
      eqn:Hstore; simpl.
    + split; [discriminate|]. split; [intros name Hne; apply providerState_set_ne, Hne|].
      split; [intros md' Heq; injection Heq as <-; reflexivity|].
      intros q Hq. injection Hq as <-. rewrite Hstore. reflexivity.
    + split; [discriminate|]. split; [intros name Hne; apply providerState_set_ne, Hne|].
      split; [discriminate|]. intros q Hq. injection Hq as <-. rewrite Hstore. reflexivity.
  - rewrite bool_decide_false by (intros [q Hq]; discriminate Hq). simpl.
    split; [reflexivity|]. split; [reflexivity|]. split; [discriminate | discriminate].
Qed.

(** X22. Under the strategies 'local-only', 'network-only' and 'p2p-only'
    [store] works with the one provider under the key 'local', 'network'
    or 'p2p': without it, it fails with NO_PROVIDERS and does nothing;
    with it, it returns what that provider's [store] returns, or fails with
    STORE_ERROR when that throws. No other provider is touched, no
    replication is started, and the 'stored' event counts 1 replica. *)
Theorem store_single_provider_strategy (schedule : list nat)
    (request : StorageRequest) (m : StorageManager (P := P)) (key : string) :
  strategyKey (resolvedStrategy (config m) request) = Some key ->
  (providerState (providers m) key = None ->
   store schedule request m = (Err NO_PROVIDERS_for_strategy, m))
  /\ (forall name, name <> key ->
        providerState (providers (store schedule request m).2) name
        = providerState (providers m) name)
  /\ (forall md, (store schedule request m).1 = Ok md ->
        emitted (store schedule request m).2
        = emitted m ++ [Stored (md_id md) (md_size md) 1
                          (resolvedStrategy (config m) request)])
  /\ forall p, providerState (providers m) key = Some p ->
       (store schedule request m).1
       = match (provider_store p (req_data request) (req_options request)).1 with
         | Ok md => Ok md
         | Err _ => Err STORE_ERROR
         end.
Proof.
  intros Hkey. apply store_single.
  destruct (resolvedStrategy (config m) request); simpl in Hkey;
    try discriminate Hkey; injection Hkey as <-; reflexivity.
Qed.

(** *** [delete] and [cleanup] *)

Lemma allPromise_state {A} (c : M (P := P) A) (rest : list (M (P := P) A))
    (m : StorageManager (P := P)) :
  (allPromise (c :: rest) m).2 = (allPromise rest (c m).2).2
  /\ isOk (allPromise (c :: rest) m).1
     = isOk (c m).1 && isOk (allPromise rest (c m).2).1.
Proof.
  simpl. destruct (c m) as [[a|e] m1]; simpl.
  - destruct (allPromise rest m1) as [[l|e] m2]; split; reflexivity.
  - split; reflexivity.
Qed.

Lemma allPromise_calls_frame {A} (f : P -> Result A * P) (names : list string) :
  forall m : StorageManager (P := P),
    let m' := (allPromise (map (fun name => call name f) names) m).2 in
    metadataCache m' = metadataCache m
    /\ emitted m' = emitted m
    /\ map fst (providers m') = map fst (providers m).
Proof.
  induction names as [|name names IH]; intros m; cbv zeta; [repeat split|].
  rewrite map_cons, (proj1 (allPromise_state _ _ _)).
  destruct (IH (call name f m).2) as [Hc [He Hk]].
  pose proof (call_cache name f m) as [Hc1 Hk1].
  pose proof (call_frame name f m) as [He1 _].
  repeat split; congruence.
Qed.

Lemma allPromise_calls_states {A} (f : P -> Result A * P) (names : list string) :
  NoDup names ->
  forall m : StorageManager (P := P),
    let m' := (allPromise (map (fun name => call name f) names) m).2 in
    (forall name p, name ∈ names -> providerState (providers m) name = Some p ->
                    providerState (providers m') name = Some (f p).2)
    /\ (forall name, name ∉ names ->
          providerState (providers m') name = providerState (providers m) name).
Proof.
  induction 1 as [|name names Hfresh Hnd IH]; intros m; cbv zeta.
  - simpl. split; [intros n p Hin; apply elem_of_nil in Hin; destruct Hin | reflexivity].
  - rewrite map_cons, (proj1 (allPromise_state _ _ _)).
    destruct (IH (call name f m).2) as [Hin Hout]. split.
    + intros n p Hn Hp. apply elem_of_cons in Hn as [->|Hn].
      * rewrite Hout by exact Hfresh. unfold call. rewrite Hp.
        destruct (f p) as [r p']. simpl. apply (providerState_set_eq _ _ p). exact Hp.
      * apply Hin; [exact Hn|]. rewrite call_other; [exact Hp|].
        intros ->. contradiction.
    + intros n Hn. apply not_elem_of_cons in Hn as [Hne Hn].
      rewrite Hout by exact Hn. apply call_other. exact Hne.
Qed.

Lemma allPromise_calls_result {A} (f : P -> Result A * P) (names : list string) :
  NoDup names ->
  forall m : StorageManager (P := P),
    (forall name, name ∈ names -> is_Some (providerState (providers m) name)) ->
    (isOk (allPromise (map (fun name => call name f) names) m).1 = true
     <-> forall name p, name ∈ names -> providerState (providers m) name = Some p ->
                        isOk (f p).1 = true).
Proof.
  induction 1 as [|name names Hfresh Hnd IH]; intros m Hsome.
  - simpl. split; [|reflexivity].
    intros _ n p Hin. apply elem_of_nil in Hin. destruct Hin.
  - rewrite map_cons, (proj2 (allPromise_state _ _ _)), andb_true_iff.
    destruct (Hsome name (list_elem_of_here _ _)) as [p Hp].
    assert (Hcall : (call name f m).1 = (f p).1).
    { unfold call. rewrite Hp. destruct (f p). reflexivity. }
    rewrite Hcall, IH.
    2:{ intros n Hn. rewrite call_other by (intros ->; contradiction).
        apply Hsome, list_elem_of_further, Hn. }
    split.
    + intros [Hok Hrest] n q Hn Hq. apply elem_of_cons in Hn as [->|Hn].
      * rewrite Hp in Hq. injection Hq as <-. exact Hok.
      * apply (Hrest n q Hn). rewrite call_other by (intros ->; contradiction). exact Hq.
    + intros Hall. split; [apply (Hall name p); [apply list_elem_of_here | exact Hp]|].
      intros n q Hn Hq. rewrite call_other in Hq by (intros ->; contradiction).
      apply (Hall n q); [apply list_elem_of_further, Hn | exact Hq].
Qed.

(** X23. [delete] changes the cache and emits only when it returns [true]:
    then the id is gone from the cache and 'deleted' is the one event
    emitted. In every other case the cache and the events are what they
    were. [delete] asks the providers and not the cache: for an id that no
    provider knows it returns [false], and a stale cache entry for the id
    stays where it is. *)
Theorem delete_outcome (id : string) (m : StorageManager (P := P)) :
  let r := (StorageManager_delete id m).1 in
  let m' := (StorageManager_delete id m).2 in
  map fst (providers m') = map fst (providers m)
  /\ (r = Ok true ->
      metadataCache m' = delete id (metadataCache m)
      /\ emitted m' = emitted m ++ [Deleted id])
  /\ (r <> Ok true -> metadataCache m' = metadataCache m /\ emitted m' = emitted m)
  /\ (NoDup (map fst (providers m)) ->
      (forall name p, providerState (providers m) name = Some p -> unknownTo id p) ->
      r = Ok false).
Proof.
  intros r m'. subst r m'. unfold StorageManager_delete, bind, findMetadata.
  pose proof (findMetadata_loop_frame id (map fst (providers m)) m) as [He0 _].
  pose proof (findMetadata_loop_cache id (map fst (providers m)) m) as [Hc0 Hk0].
  pose proof (findMetadata_loop_unknown id (map fst (providers m)) m) as Hunknown.
  destruct (findMetadata_loop (map fst (providers m)) id m) as [[[md|]|e] m1];
    simpl in He0, Hc0, Hk0, Hunknown.
  - unfold getProvidersForMetadata.
    destruct (filterProviders (providers m1) md) as [names|e].
    2:{ simpl. split; [exact Hk0|]. split; [discriminate|].
        split; [intros _; split; assumption|].
        intros Hnd Hu. specialize (Hunknown Hnd (fun name p _ => Hu name p)).
        discriminate Hunknown. }
    pose proof (allPromise_calls_frame (fun p => provider_delete p id) names m1)
      as [Hc [He Hk]].
    cbv zeta in Hc, He, Hk.
    destruct (allPromise _ m1) as [[results|e] m2]; simpl in Hc, He, Hk.
    + destruct (existsb (fun result => result) results); simpl.
      * split; [congruence|]. split; [intros _; split; congruence|].
        split; [intros Hne; contradiction Hne; reflexivity|].
        intros Hnd Hu. specialize (Hunknown Hnd (fun name p _ => Hu name p)).
        discriminate Hunknown.
      * split; [congruence|]. split; [discriminate|].
        split; [intros _; split; congruence|].
        intros Hnd Hu. reflexivity.
    + simpl. split; [congruence|]. split; [discriminate|].
      split; [intros _; split; congruence|].
      intros Hnd Hu. specialize (Hunknown Hnd (fun name p _ => Hu name p)).
      discriminate Hunknown.
  - simpl. split; [exact Hk0|]. split; [discriminate|].
    split; [intros _; split; assumption|]. reflexivity.
  - simpl. split; [exact Hk0|]. split; [discriminate|].
    split; [intros _; split; assumption|].
    intros Hnd Hu. specialize (Hunknown Hnd (fun name p _ => Hu name p)).
    discriminate Hunknown.
Qed.

(** X24. [cleanup] calls [cleanup] on every provider, whatever the others
    do, and emits nothing. It returns exactly when every provider's
    [cleanup] returns, and only then is the cache cleared: when one of them
    throws, the cache is left as it was. *)
Theorem cleanup_clears_cache_iff_all_succeed (m : StorageManager (P := P)) :
  NoDup (map fst (providers m)) ->
  let m' := (cleanup m).2 in
  emitted m' = emitted m
  /\ (forall name p, providerState (providers m) name = Some p ->
                     providerState (providers m') name = Some (provider_cleanup p).2)
  /\ (isOk (cleanup m).1 = true
      <-> forall name p, providerState (providers m) name = Some p ->
                         isOk (provider_cleanup p).1 = true)
  /\ metadataCache m' = if isOk (cleanup m).1 then ∅ else metadataCache m.
Proof.
  intros Hnd m'. subst m'. unfold cleanup, bind.
  pose proof (allPromise_calls_frame provider_cleanup (map fst (providers m)) m)
    as [Hc [He Hk]].
  pose proof (allPromise_calls_states provider_cleanup _ Hnd m) as [Hin _].
  pose proof (allPromise_calls_result provider_cleanup _ Hnd m
                (fun name Hname => proj2 (providerState_elem _ _) Hname)) as Hres.
  cbv zeta in Hc, He, Hk, Hin.
  assert (Hall : (forall name p, name ∈ map fst (providers m) ->
                    providerState (providers m) name = Some p ->
                    isOk (provider_cleanup p).1 = true)
                 <-> (forall name p, providerState (providers m) name = Some p ->
                        isOk (provider_cleanup p).1 = true)).
  { split; [|intros Hall name p _; apply Hall].
    intros Hall name p Hp. apply (Hall name p); [|exact Hp].
    apply providerState_elem. eexists; exact Hp. }
  rewrite Hall in Hres.
  assert (Hstates : forall name p, providerState (providers m) name = Some p ->
             providerState
               (providers (allPromise (map (fun name => call name provider_cleanup)
                                         (map fst (providers m))) m).2) name
             = Some (provider_cleanup p).2).
  { intros name p Hp. apply Hin; [|exact Hp]. apply providerState_elem. eexists; exact Hp. }
  destruct (allPromise _ m) as [[l|e] m1]; simpl in *.
  - split; [exact He|]. split; [exact Hstates|]. split; [exact Hres | reflexivity].
  - split; [exact He|]. split; [exact Hstates|]. split; [exact Hres | exact Hc].
Qed.

(** *** The providers for a piece of metadata *)

Lemma class_name_mismatch (storageType className : string) :
  storageType ∈ storageTypes -> className ∈ builtinClassNames ->
  String.eqb storageType (toLowerCase className) = false.
Proof.
  unfold storageTypes, builtinClassNames. intros Ht Hc.
  repeat (apply elem_of_cons in Ht as [->|Ht]);
    try (apply elem_of_nil in Ht; destruct Ht);
    repeat (apply elem_of_cons in Hc as [->|Hc]);
    try (apply elem_of_nil in Hc; destruct Hc); reflexivity.
Qed.

Lemma builtin_no_candidates (md : StorageMetadata) (ps : list (string * P)) :
  builtinProviders ps -> typedChunks md -> filterProviders ps md = Ok [].
Proof.
  intros Hps Hmd.
  assert (Hlocated : located md).
  { unfold located. eapply Forall_impl; [exact Hmd|].
    intros chunk [location [Hlocation _]]. rewrite Hlocation. eexists; reflexivity. }
  rewrite (filterProviders_located md ps Hlocated). f_equal. unfold candidatesFor.
  assert (Hnone : forall np : string * P,
             constructorName np.2 ∈ builtinClassNames ->
             existsb (fun chunk =>
                        match chunk_location chunk with
                        | Some location =>
                            String.eqb (loc_storageType location)
                              (toLowerCase (constructorName np.2))
                        | None => false
                        end)
               (md_chunks md) = false).
  { intros np Hnp. unfold typedChunks in Hmd.
    induction Hmd as [|chunk chunks [location [Hlocation Htype]] _ IHc]; [reflexivity|].
    simpl. rewrite Hlocation, (class_name_mismatch _ _ Htype Hnp). exact IHc. }
  induction Hps as [|np ps Hnp _ IH]; [reflexivity|]. simpl.
  rewrite (Hnone np Hnp). exact IH.
Qed.

Lemma retrieve_builtin (md : StorageMetadata) (preferred : option string)
    (m : StorageManager (P := P)) :
  builtinProviders (providers m) -> typedChunks md ->
  metadataCache m !! md_id md = Some md ->
  retrieve (md_id md) preferred m = (Err NO_PROVIDERS_for_retrieval, m).
Proof.
  intros Hps Hmd Hcache. unfold retrieve, bind, lookupMetadata, bind, cacheGet.
  rewrite Hcache. cbn [ret]. unfold retrieveFrom, bind, getProvidersForMetadata.
  rewrite (builtin_no_candidates md _ Hps Hmd). reflexivity.
Qed.

Lemma replicateToProvider_builtin (md : StorageMetadata) (secondary : string)
    (options : option StorageOptions) (m : StorageManager (P := P)) :
  builtinProviders (providers m) -> typedChunks md ->
  metadataCache m !! md_id md = Some md ->
  replicateToProvider md secondary options m
  = (Settled (Ok tt),
     {| config := config m; providers := providers m;
        metadataCache := metadataCache m;
        emitted := emitted m
                   ++ [ReplicationFailed (md_id md) secondary
                         NO_PROVIDERS_for_retrieval] |}).
Proof.
  intros Hps Hmd Hcache.
  unfold replicateToProvider, acatch, abind, acase, retrieveA, abind, acase,
    lookupMetadataA, abind, acase, now, cacheGet.
  rewrite Hcache. cbn [andThen ret].
  unfold retrieveFromA, abind, acase, now, getProvidersForMetadata.
  rewrite (builtin_no_candidates md _ Hps Hmd). reflexivity.
Qed.

(** X25. The manager takes as the providers for a piece of metadata those
    whose class name in lower case is the storage type of a chunk. With
    providers of the classes that the manager creates and chunks whose
    locations have the storage types 'local', 'network' and 'p2p' there is
    none: for an id whose metadata is in the cache, [retrieve] fails with
    NO_PROVIDERS without calling any provider, not even a preferred one,
    and every replication ends, without waiting for any provider, in
    'replication-failed' with that error. *)
Theorem builtin_providers_are_no_providers_for_metadata (md : StorageMetadata)
    (m : StorageManager (P := P)) :
  builtinProviders (providers m) -> typedChunks md ->
  metadataCache m !! md_id md = Some md ->
  getProvidersForMetadata md m = (Ok [], m)
  /\ (forall preferred,
        retrieve (md_id md) preferred m = (Err NO_PROVIDERS_for_retrieval, m))
  /\ (forall secondary options,
        replicateToProvider md secondary options m
        = (Settled (Ok tt),
           {| config := config m; providers := providers m;
              metadataCache := metadataCache m;
              emitted := emitted m
                         ++ [ReplicationFailed (md_id md) secondary
                               NO_PROVIDERS_for_retrieval] |})).
Proof.
  intros Hps Hmd Hcache. split; [|split].
  - unfold getProvidersForMetadata.
    rewrite (builtin_no_candidates md _ Hps Hmd). reflexivity.
  - intros preferred. apply retrieve_builtin; assumption.
  - intros secondary options. apply replicateToProvider_builtin; assumption.
Qed.

Lemma startAll_builtin (md : StorageMetadata) (options : option StorageOptions)
    (names : list string) :
  forall m : StorageManager (P := P),
    builtinProviders (providers m) -> typedChunks md ->
    metadataCache m !! md_id md = Some md ->
    startAll (map (fun provider => replicateToProvider md provider options) names) m
    = (map (fun _ => Settled (Ok tt)) names,
       {| config := config m; providers := providers m;
          metadataCache := metadataCache m;
          emitted := emitted m
                     ++ map (fun secondary =>
                               ReplicationFailed (md_id md) secondary
                                 NO_PROVIDERS_for_retrieval) names |}).
Proof.
  induction names as [|name names IH]; intros m Hps Hmd Hcache; simpl.
  - rewrite app_nil_r. destruct m; reflexivity.
  - rewrite (replicateToProvider_builtin md name options m Hps Hmd Hcache).
    rewrite IH by assumption. simpl. rewrite <- app_assoc. reflexivity.
Qed.

Lemma runSchedule_settled (schedule : list nat) (tasks : list (Task (P := P) unit)) :
  Forall (fun t => exists r, t = Settled r) tasks ->
  forall m : StorageManager (P := P), runSchedule schedule tasks m = (tasks, m).
Proof.
  intros Hall. induction schedule as [|i schedule IH]; intros m; simpl; [reflexivity|].
  unfold resumeAt. destruct (tasks !! i) as [t|] eqn:Hi; [|apply IH].
  rewrite Forall_lookup in Hall. destruct (Hall i t Hi) as [r ->]. simpl.
  rewrite (list_insert_id tasks i (Settled r) Hi). apply IH.
Qed.

Lemma finishAll_settled (tasks : list (Task (P := P) unit)) :
  Forall (fun t => exists r, t = Settled r) tasks ->
  forall m : StorageManager (P := P), finishAll tasks m = m.
Proof.
  induction 1 as [|t tasks [r ->] _ IH]; intros m; simpl; [reflexivity | apply IH].
Qed.

Lemma allSettled_builtin (schedule : list nat) (md : StorageMetadata)
    (options : option StorageOptions) (names : list string)
    (m : StorageManager (P := P)) :
  builtinProviders (providers m) -> typedChunks md ->
  metadataCache m !! md_id md = Some md ->
  allSettled schedule
    (map (fun provider => replicateToProvider md provider options) names) m
  = (Ok tt,
     {| config := config m; providers := providers m;
        metadataCache := metadataCache m;
        emitted := emitted m
                   ++ map (fun secondary =>
                             ReplicationFailed (md_id md) secondary
                               NO_PROVIDERS_for_retrieval) names |}).
Proof.
  intros Hps Hmd Hcache. unfold allSettled.
  rewrite (startAll_builtin md options names m Hps Hmd Hcache).
  assert (Hall : Forall (fun t : Task (P := P) unit => exists r, t = Settled r)
                   (map (fun _ : string => Settled (Ok tt)) names)).
  { apply Forall_forall. intros t Ht. apply list_elem_of_fmap in Ht as [name [-> _]].
    eexists; reflexivity. }
  rewrite (runSchedule_settled schedule _ Hall), (finishAll_settled _ Hall). reflexivity.
Qed.

(** X26. Under the hybrid strategy, with providers of the classes that the
    manager creates and chunks whose locations have the storage types
    'local', 'network' and 'p2p', [store] never replicates: when the first
    provider's [store] returns, every replication that is started ends in
    'replication-failed' with NO_PROVIDERS, in the order of the
    secondaries and whatever the order in which calls settle, no other
    provider's state changes, and 'stored' is emitted all the same. *)
Theorem hybrid_store_with_builtin_providers_never_replicates (schedule : list nat)
    (request : StorageRequest) (m : StorageManager (P := P)) (primary : string)
    (p0 p0' : P) (rest : list (string * P)) (md : StorageMetadata) :
  resolvedStrategy (config m) request = Hybrid ->
  providers m = (primary, p0) :: rest ->
  provider_store p0 (req_data request) (req_options request) = (Ok md, p0') ->
  builtinProviders ((primary, p0') :: rest) -> typedChunks md ->
  store schedule request m
  = (Ok md,
     {| config := config m; providers := (primary, p0') :: rest;
        metadataCache := <[md_id md := md]> (metadataCache m);
        emitted := emitted m
                   ++ map (fun secondary =>
                             ReplicationFailed (md_id md) secondary
                               NO_PROVIDERS_for_retrieval)
                        (attemptedSecondaries request m rest)
                   ++ [Stored (md_id md) (md_size md) (Z.of_nat (S (length rest)))
                         Hybrid] |}).
Proof.
  intros Hstrategy Hproviders Hstored Hps Hmd.
  rewrite (store_hybrid schedule request m primary p0 rest Hstrategy Hproviders), Hstored.
  unfold afterPrimary, attemptedSecondaries.
  destruct ((1 <? S (length rest))%nat
            && negb (bool_decide (req_options request ≫= opt_replicas = Some 0))).
  - unfold handleReplication. rewrite allSettled_builtin;
      [|exact Hps | exact Hmd | apply lookup_insert_eq].
    simpl. rewrite <- app_assoc. reflexivity.
  - simpl. reflexivity.
Qed.
End StorageManagerMoreProofs.

Lemma retrieve_fails_with_one_of_four_errors_witness :
  emitted staleCacheManager = emitted staleCacheManager
  /\ ((NO_PROVIDERS_for_retrieval = NOT_FOUND
       /\ metadataCache staleCacheManager !! "id-1" = None
       /\ metadataCache staleCacheManager = metadataCache staleCacheManager)
      \/ (exists md,
            metadataCache staleCacheManager !! "id-1" = Some md
            /\ (NO_PROVIDERS_for_retrieval = NO_PROVIDERS_for_retrieval
                \/ NO_PROVIDERS_for_retrieval = RETRIEVE_ERROR
                \/ (NO_PROVIDERS_for_retrieval = NO_LOCATION
                    /\ ~ located md)))).
Proof.
  apply (retrieve_fails_with_one_of_four_errors (SP := evalProvider) "id-1" None
           staleCacheManager staleCacheManager NO_PROVIDERS_for_retrieval).
  reflexivity.
Defined.

Lemma store_then_getMetadata_witness :
  getMetadata (SP := evalProvider) "id-1"
    (store (SP := evalProvider) [1; 0]%nat (evalRequest None) builtinManager).2
  = (Ok (Some (evalMetadata "id-1" "local")),
     (store (SP := evalProvider) [1; 0]%nat (evalRequest None) builtinManager).2).
Proof.
  apply (store_then_getMetadata (SP := evalProvider) [1; 0]%nat (evalRequest None)
           builtinManager
           (store (SP := evalProvider) [1; 0]%nat (evalRequest None) builtinManager).2
           (evalMetadata "id-1" "local")).
  reflexivity.
Defined.

Lemma store_failure_leaves_cache_and_events_witness :
  let m' := (store (SP := evalProvider) [] (strategyRequest P2POnly) p2pDownManager).2 in
  metadataCache m' = metadataCache p2pDownManager /\ emitted m' = emitted p2pDownManager.
Proof.
  destruct (store_failure_leaves_cache_and_events (SP := evalProvider) []
              (strategyRequest P2POnly) p2pDownManager
              (store (SP := evalProvider) [] (strategyRequest P2POnly) p2pDownManager).2
              STORE_ERROR eq_refl) as [Hc [He _]].
  split; [exact Hc | exact He].
Defined.

Lemma store_single_provider_strategy_witness :
  providerState
    (providers (store (SP := evalProvider) [] (strategyRequest LocalOnly)
                  builtinManager).2)
    "network"
  = providerState (providers builtinManager) "network".
Proof.
  destruct (store_single_provider_strategy (SP := evalProvider) []
              (strategyRequest LocalOnly) builtinManager "local" eq_refl)
    as [_ [Hother _]].
  apply Hother. discriminate.
Defined.

Lemma delete_outcome_witness :
  (StorageManager_delete (SP := evalProvider) (SM := evalProviderMore) "id-1"
     staleCacheManager).1 = Ok false
  /\ metadataCache
       (StorageManager_delete (SP := evalProvider) (SM := evalProviderMore) "id-1"
          staleCacheManager).2 !! "id-1"
     = Some (evalMetadata "id-1" "local").
Proof.
  destruct (delete_outcome (SP := evalProvider) (SM := evalProviderMore) "id-1"
              staleCacheManager) as [_ [_ [Hkeep Hfalse]]].
  assert (Hr : (StorageManager_delete (SP := evalProvider) (SM := evalProviderMore) "id-1"
                  staleCacheManager).1 = Ok false).
  { apply Hfalse.
    - repeat constructor. intros Hin. apply elem_of_nil in Hin. exact Hin.
    - intros name p Hp md p'. unfold staleCacheManager in Hp.
      cbn [providers providerState] in Hp.
      destruct (String.eqb "local" name); [|discriminate].
      injection Hp as <-. intros Heq. cbv in Heq. discriminate Heq. }
  split; [exact Hr|].
  destruct Hkeep as [Hc _]; [rewrite Hr; discriminate|].
  rewrite Hc. reflexivity.
Defined.

Lemma cleanup_clears_cache_iff_all_succeed_witness :
  metadataCache (cleanup (SM := evalProviderMore) staleCacheManager).2
  = if isOk (cleanup (SM := evalProviderMore) staleCacheManager).1
    then ∅ else metadataCache staleCacheManager.
Proof.
  apply (cleanup_clears_cache_iff_all_succeed (SM := evalProviderMore) staleCacheManager).
  repeat constructor. intros Hin. apply elem_of_nil in Hin. exact Hin.
Defined.

Lemma builtin_providers_are_no_providers_for_metadata_witness :
  retrieve (SP := evalProvider) "id-1" (Some "local") staleCacheManager
  = (Err NO_PROVIDERS_for_retrieval, staleCacheManager).
Proof.
  destruct (builtin_providers_are_no_providers_for_metadata (SP := evalProvider)
              (evalMetadata "id-1" "local") staleCacheManager)
    as [_ [Hretrieve _]].
  - repeat constructor.
  - constructor; [|constructor]. eexists. split; [reflexivity|]. repeat constructor.
  - reflexivity.
  - apply Hretrieve.
Defined.

Lemma hybrid_store_with_builtin_providers_never_replicates_witness :
  emitted (store (SP := evalProvider) [1; 0; 1]%nat (evalRequest None) builtinManager).2
  = [ReplicationFailed "id-1" "network" NO_PROVIDERS_for_retrieval;
     ReplicationFailed "id-1" "p2p" NO_PROVIDERS_for_retrieval;
     Stored "id-1" 3 3 Hybrid].
Proof.
  rewrite (hybrid_store_with_builtin_providers_never_replicates (SP := evalProvider)
             [1; 0; 1]%nat (evalRequest None) builtinManager "local" _ _ _
             (evalMetadata "id-1" "local") eq_refl eq_refl eq_refl).
  - reflexivity.
  - repeat constructor.
  - constructor; [|constructor]. eexists. split; [reflexivity|]. repeat constructor.
Defined.
